(** * Pokers: a shallow embedding of the decision engine

    The development follows the translation units of the repository:
    the card primitives, the 7-card evaluator, the Monte Carlo equity
    simulator, the CFR solver, the MCTS engine and the EQR layer.  The
    definitions come first, module by module and under the names of the
    source; the properties follow.

    Conventions.
    - C++ integers are [Z]; where the source fixes a width (uint16_t table
      entries, the 64-bit xorshift state) the wrap-around is written out.
    - [double] is Rocq's primitive binary64 [float]; the single-precision
      [float] of the equity field is [spec_float] at precision 24.
    - An operation the C++ standard leaves undefined (a negative shift
      count, an index outside an array, a read of a slot never written,
      an integer division by zero) yields [Undef]; everything downstream
      of it is [Undef] as well.
    - Unbounded recursion is modelled with fuel: [None] means that the
      call has not returned within the given recursion depth. *)

From Stdlib Require Import ZArith Bool List Lia Floats QArith.
From stdpp Require Import base option list gmap strings.

Local Open Scope Z_scope.

(* Decimal literals denote the nearest binary64 value, as in C++. *)
#[global] Set Warnings "-inexact-float".

(** ** Undefined behaviour as a result *)

Inductive ub : Type :=
  | NegativeShift (amount : Z)
  | ShiftTooWide (amount : Z)
  | OutOfBounds (index : Z)
  | UninitialisedRead (index : Z)
  | DivisionByZero
  | NullDereference
  | NotATree.

Inductive Res (A : Type) : Type :=
  | Val (a : A)
  | Undef (u : ub).
Arguments Val {A} a.
Arguments Undef {A} u.

Global Instance res_ret : MRet Res := fun A a => Val a.
Global Instance res_bind : MBind Res := fun A B k m =>
  match m with
  | Val a => k a
  | Undef u => Undef u
  end.

(** Array read: [a[i]] on an array whose initialised cells are [a]. *)
Definition read {A : Type} (a : list A) (i : Z) : Res A :=
  if i <? 0 then Undef (OutOfBounds i)
  else match a !! Z.to_nat i with
       | Some x => Val x
       | None => Undef (OutOfBounds i)
       end.

(** Array write: [a[i] = x]. *)
Definition write {A : Type} (a : list A) (i : Z) (x : A) : Res (list A) :=
  if (0 <=? i) && (i <? Z.of_nat (length a))
  then Val (<[Z.to_nat i := x]> a)
  else Undef (OutOfBounds i).

Fixpoint pos_popcount (p : positive) : Z :=
  match p with
  | xH => 1
  | xO q => pos_popcount q
  | xI q => 1 + pos_popcount q
  end.

(** [__builtin_popcount] on a non-negative value. *)
Definition popcount (x : Z) : Z :=
  match x with
  | Zpos p => pos_popcount p
  | _ => 0
  end.

(** ** step1_card_system_advanced.cpp *)

Module PokerCore.

Definition RANK_COUNT : Z := 13.
Definition SUIT_COUNT : Z := 4.
Definition DECK_SIZE : Z := 52.

Definition make_card (rank suit : Z) : Z := (suit * RANK_COUNT + rank) mod 256.
Definition get_rank (card : Z) : Z := card mod RANK_COUNT.
Definition get_suit (card : Z) : Z := card / RANK_COUNT.

(** [1ULL << card]: defined for shift counts below the width of the type. *)
Definition card_to_mask (card : Z) : Res Z :=
  if card <? 0 then Undef (NegativeShift card)
  else if 64 <=? card then Undef (ShiftTooWide card)
  else Val (Z.shiftl 1 card).

Definition has_card (mask card : Z) : Res bool :=
  m ← card_to_mask card; Val (negb (Z.land mask m =? 0)).

Definition add_card (mask card : Z) : Res Z :=
  m ← card_to_mask card; Val (Z.lor mask m).

Definition remove_card (mask card : Z) : Res Z :=
  m ← card_to_mask card; Val (Z.land mask (Z.lxor m (Z.ones 64))).

Definition count_cards (mask : Z) : Z := popcount mask.

(** [class Deck]: the array [cards] and the index [position]. *)
Module Deck.

Record Deck : Type := {
  cards : list Z;
  position : Z
}.

(** The constructor: [cards[i] = i], [position = 0]. *)
Definition new_deck : Deck := {| cards := seqZ 0 DECK_SIZE; position := 0 |}.

(** One round of the xorshift generator on a [uint64_t]. *)
Definition xorshift (seed : Z) : Z :=
  let s1 := Z.lxor seed (Z.shiftl seed 13 mod 2 ^ 64) in
  let s2 := Z.lxor s1 (Z.shiftr s1 7) in
  Z.lxor s2 (Z.shiftl s2 17 mod 2 ^ 64).

(** [for (i = DECK_SIZE - 1; i > 0; --i)]; here [i = n]. *)
Fixpoint shuffle_loop (n : nat) (cards : list Z) (seed : Z) : Res (list Z) :=
  match n with
  | O => Val cards
  | S n' =>
      let i := Z.of_nat n in
      let seed := xorshift seed in
      let j := seed mod (i + 1) in
      ci ← read cards i;
      cj ← read cards j;
      c1 ← write cards i cj;
      c2 ← write c1 j ci;
      shuffle_loop n' c2 seed
  end.

Definition shuffle (seed : Z) (d : Deck) : Res Deck :=
  cs ← shuffle_loop (Z.to_nat (DECK_SIZE - 1)) (cards d) seed;
  Val {| cards := cs; position := 0 |}.

(** [deal]: the card and the deck after the call; [None] when the
    assertion [position < DECK_SIZE] fails and ends the program. *)
Definition deal (d : Deck) : Res (option (Z * Deck)) :=
  if position d <? DECK_SIZE then
    c ← read (cards d) (position d);
    Val (Some (c, {| cards := cards d; position := position d + 1 |}))
  else Val None.

Definition reset (d : Deck) : Deck := {| cards := cards d; position := 0 |}.

(** The first loop of [exclude_cards]: the kept cards move to the front. *)
Fixpoint exclude_loop (n : nat) (i : Z) (excluded : Z) (cards : list Z)
    (write_pos : Z) : Res (list Z * Z) :=
  match n with
  | O => Val (cards, write_pos)
  | S n' =>
      c ← read cards i;
      b ← has_card excluded c;
      if (b : bool) then exclude_loop n' (i + 1) excluded cards write_pos
      else
        cs ← write cards write_pos c;
        exclude_loop n' (i + 1) excluded cs (write_pos + 1)
  end.

(** The second loop: [cards[i] = 255] from [write_pos] on. *)
Fixpoint invalidate_loop (n : nat) (i : Z) (cards : list Z) : Res (list Z) :=
  match n with
  | O => Val cards
  | S n' => cs ← write cards i 255; invalidate_loop n' (i + 1) cs
  end.

Definition exclude_cards (excluded : Z) (d : Deck) : Res Deck :=
  '(cs, write_pos) ← exclude_loop (Z.to_nat DECK_SIZE) 0 excluded (cards d) 0;
  cs ← invalidate_loop (Z.to_nat (DECK_SIZE - write_pos)) write_pos cs;
  Val {| cards := cs; position := position d |}.

(** [n] calls of [deal] in a row: the cards in the order dealt and the deck
    left, or [None] as soon as an assertion fails. *)
Fixpoint deal_n (n : nat) (d : Deck) : Res (option (list Z * Deck)) :=
  match n with
  | O => Val (Some ([], d))
  | S n' =>
      r ← deal d;
      match r with
      | None => Val None
      | Some (c, d') =>
          rest ← deal_n n' d';
          Val (match rest with
               | None => None
               | Some (cs, d'') => Some (c :: cs, d'')
               end)
      end
  end.

End Deck.

(** The C interface: [int] arguments are converted to the enumerations,
    whose underlying type is [uint8_t]. *)
Definition create_card_c (rank suit : Z) : Z := make_card (rank mod 256) (suit mod 256).
Definition get_rank_c (card : Z) : Z := get_rank card.
Definition get_suit_c (card : Z) : Z := get_suit card.

(** The cards of [0 .. 63] that [has_card] finds in a mask, in increasing
    order. *)
Definition held (mask : Z) : list Z :=
  List.filter (fun c => match has_card mask c with Val b => b | Undef _ => false end)
              (seqZ 0 64).

End PokerCore.

(** ** step2_3_perfect_evaluator.cpp *)

Module PokerEval.
Import PokerCore.

Definition RANK_STRAIGHT_FLUSH : Z := 8.
Definition RANK_FOUR_OF_KIND : Z := 7.
Definition RANK_FULL_HOUSE : Z := 6.
Definition RANK_FLUSH : Z := 5.
Definition RANK_STRAIGHT : Z := 4.
Definition RANK_THREE_OF_KIND : Z := 3.
Definition RANK_TWO_PAIR : Z := 2.
Definition RANK_ONE_PAIR : Z := 1.
Definition RANK_HIGH_CARD : Z := 0.

(** Conversion of an [int] to the [uint16_t] return type. *)
Definition to_u16 (x : Z) : Z := Z.land x 65535.

(** [mask >> k] on [int]: a negative count is undefined. *)
Definition shr_int (mask k : Z) : Res Z :=
  if k <? 0 then Undef (NegativeShift k) else Val (Z.shiftr mask k).

(** The window test [((mask >> k) & 0x1F) == 0x1F]. *)
Definition window (mask k : Z) : Res bool :=
  w ← shr_int mask k; Val (Z.land w 31 =? 31).

(** The loop [for (i = 8; i >= 0; --i)] of [is_straight]; [n] is [i + 1]. *)
Fixpoint is_straight_loop (n : nat) (mask : Z) : bool :=
  match n with
  | O => Z.land mask 4111 =? 4111
  | S i => if Z.land (Z.shiftr mask (Z.of_nat i)) 31 =? 31 then true
           else is_straight_loop i mask
  end.

Definition is_straight (mask : Z) : bool := is_straight_loop 9 mask.

(** [EvaluatorTables::get_highest_straight]: [for (i = 12; i >= 3; --i)],
    shifting by [i - 4].  [n] counts the iterations left, so [i = n + 2]. *)
Fixpoint get_highest_straight_loop (n : nat) (mask : Z) : Res Z :=
  match n with
  | O => Val 3
  | S n' =>
      let i := Z.of_nat n' + 3 in
      b ← window mask (i - 4);
      if (b : bool) then Val i else get_highest_straight_loop n' mask
  end.

Definition get_highest_straight (mask : Z) : Res Z :=
  get_highest_straight_loop 10 mask.

(** The shift counts [get_highest_straight] executes, in order. *)
Fixpoint get_highest_straight_shifts_loop (n : nat) (mask : Z) : list Z :=
  match n with
  | O => []
  | S n' =>
      let i := Z.of_nat n' + 3 in
      (i - 4) ::
      (if Z.land (Z.shiftr mask (i - 4)) 31 =? 31 then []
       else get_highest_straight_shifts_loop n' mask)
  end.

Definition get_highest_straight_shifts (mask : Z) : list Z :=
  get_highest_straight_shifts_loop 10 mask.

(** [get_top_cards]: [for (i = 12; i >= 0 && found < count; --i)]. *)
Fixpoint get_top_cards_loop (n : nat) (mask count result found : Z) : Z :=
  match n with
  | O => result
  | S i =>
      if found <? count then
        if negb (Z.land mask (Z.shiftl 1 (Z.of_nat i)) =? 0)
        then get_top_cards_loop i mask count
               (Z.lor result (Z.shiftl (Z.of_nat i) (found * 4))) (found + 1)
        else get_top_cards_loop i mask count result found
      else result
  end.

Definition get_top_cards (mask count : Z) : Z :=
  get_top_cards_loop 13 mask count 0 0.

Definition evaluate_flush_hand (mask : Z) : Res Z :=
  if is_straight mask then
    high ← get_highest_straight mask;
    Val (to_u16 (Z.lor (Z.shiftl RANK_STRAIGHT_FLUSH 12) (Z.shiftl high 8)))
  else
    Val (to_u16 (Z.lor (Z.shiftl RANK_FLUSH 12) (get_top_cards mask 5))).

Definition evaluate_unique5 (mask : Z) : Res Z :=
  if is_straight mask then
    high ← get_highest_straight mask;
    Val (to_u16 (Z.lor (Z.shiftl RANK_STRAIGHT 12) (Z.shiftl high 8)))
  else
    Val (to_u16 (Z.lor (Z.shiftl RANK_HIGH_CARD 12) (get_top_cards mask 5))).

(** [g_tables]: the two tables as functions of the index.  [g_tables] has
    static storage, so the cells [init_unique5_lookup] skips hold zero. *)
Definition flush_lookup (i : Z) : Res Z :=
  if (0 <=? i) && (i <? 8192) then evaluate_flush_hand i
  else Undef (OutOfBounds i).

Definition unique5_lookup (i : Z) : Res Z :=
  if (0 <=? i) && (i <? 8192) then
    if popcount i =? 5 then evaluate_unique5 i else Val 0
  else Undef (OutOfBounds i).

(** [HandEvaluator::is_straight_from_mask] has the body of [is_straight]. *)
Definition is_straight_from_mask (mask : Z) : bool := is_straight_loop 9 mask.

(** [HandEvaluator::get_straight_high]: [for (i = 12; i >= 4; --i)];
    [i = n + 3]. *)
Fixpoint get_straight_high_loop (n : nat) (mask : Z) : Res Z :=
  match n with
  | O => Val 3
  | S n' =>
      let i := Z.of_nat n' + 4 in
      b ← window mask (i - 4);
      if (b : bool) then Val i else get_straight_high_loop n' mask
  end.

Definition get_straight_high (mask : Z) : Res Z :=
  get_straight_high_loop 9 mask.

(** [counts[r]] for [r] in range (the scans below never leave it). *)
Definition cnt (counts : list Z) (r : Z) : Z :=
  default 0 (counts !! Z.to_nat r).

Fixpoint get_highest_kicker_loop (n : nat) (counts : list Z) (exclude : Z) : Z :=
  match n with
  | O => 0
  | S i =>
      let r := Z.of_nat i in
      if negb (r =? exclude) && (0 <? cnt counts r) then r
      else get_highest_kicker_loop i counts exclude
  end.

Definition get_highest_kicker (counts : list Z) (exclude : Z) : Z :=
  get_highest_kicker_loop 13 counts exclude.

Fixpoint get_highest_kicker_exclude_loop (n : nat) (counts : list Z) (ex1 ex2 : Z) : Z :=
  match n with
  | O => 0
  | S i =>
      let r := Z.of_nat i in
      if negb (r =? ex1) && negb (r =? ex2) && (0 <? cnt counts r) then r
      else get_highest_kicker_exclude_loop i counts ex1 ex2
  end.

Definition get_highest_kicker_exclude (counts : list Z) (ex1 ex2 : Z) : Z :=
  get_highest_kicker_exclude_loop 13 counts ex1 ex2.

Fixpoint get_top_kickers_loop (n : nat) (counts : list Z) (exclude k result found : Z) : Z :=
  match n with
  | O => result
  | S i =>
      let r := Z.of_nat i in
      if found <? k then
        if negb (r =? exclude) && (0 <? cnt counts r)
        then get_top_kickers_loop i counts exclude k
               (Z.lor result (Z.shiftl r (found * 4))) (found + 1)
        else get_top_kickers_loop i counts exclude k result found
      else result
  end.

Definition get_top_kickers (counts : list Z) (exclude k : Z) : Z :=
  get_top_kickers_loop 13 counts exclude k 0 0.

(** The locals of the scan in [evaluate_non_flush]. *)
Record scan_state : Type := {
  quads : Z;
  trips : Z;
  pairs0 : Z;
  pairs1 : Z;
  pair_count : Z
}.

Definition scan_init : scan_state :=
  {| quads := -1; trips := -1; pairs0 := -1; pairs1 := -1; pair_count := 0 |}.

Definition scan_step (counts : list Z) (r : Z) (st : scan_state) : scan_state :=
  if cnt counts r =? 4 then
    {| quads := r; trips := trips st; pairs0 := pairs0 st;
       pairs1 := pairs1 st; pair_count := pair_count st |}
  else if cnt counts r =? 3 then
    if trips st =? -1 then
      {| quads := quads st; trips := r; pairs0 := pairs0 st;
         pairs1 := pairs1 st; pair_count := pair_count st |}
    else st
  else if cnt counts r =? 2 then
    if pair_count st <? 2 then
      {| quads := quads st; trips := trips st;
         pairs0 := if pair_count st =? 0 then r else pairs0 st;
         pairs1 := if pair_count st =? 1 then r else pairs1 st;
         pair_count := pair_count st + 1 |}
    else st
  else st.

(** [for (r = 12; r >= 0; --r)]. *)
Fixpoint scan_loop (n : nat) (counts : list Z) (st : scan_state) : scan_state :=
  match n with
  | O => st
  | S i => scan_loop i counts (scan_step counts (Z.of_nat i) st)
  end.

(** The search for a second set of trips inside the full-house branch. *)
Fixpoint second_trips_loop (n : nat) (counts : list Z) (trips pair : Z) : Z :=
  match n with
  | O => pair
  | S i =>
      let r := Z.of_nat i in
      if (cnt counts r =? 3) && negb (r =? trips) then r
      else second_trips_loop i counts trips pair
  end.

Definition evaluate_non_flush (counts : list Z) (rank_mask : Z) : Res Z :=
  let st := scan_loop 13 counts scan_init in
  if negb (quads st =? -1) then
    let kicker := get_highest_kicker counts (quads st) in
    Val (Z.lor (Z.lor (Z.shiftl RANK_FOUR_OF_KIND 12) (Z.shiftl (quads st) 8)) kicker)
  else if negb (trips st =? -1) && (negb (pairs0 st =? -1) || (0 <? pair_count st)) then
    let pair := second_trips_loop 13 counts (trips st) (pairs0 st) in
    Val (Z.lor (Z.lor (Z.shiftl RANK_FULL_HOUSE 12) (Z.shiftl (trips st) 8)) pair)
  else if is_straight_from_mask rank_mask then
    high ← get_straight_high rank_mask;
    Val (Z.lor (Z.shiftl RANK_STRAIGHT 12) (Z.shiftl high 8))
  else if negb (trips st =? -1) then
    let kickers := get_top_kickers counts (trips st) 2 in
    Val (Z.lor (Z.lor (Z.shiftl RANK_THREE_OF_KIND 12) (Z.shiftl (trips st) 8)) kickers)
  else if 2 <=? pair_count st then
    let kicker := get_highest_kicker_exclude counts (pairs0 st) (pairs1 st) in
    Val (Z.lor (Z.lor (Z.lor (Z.shiftl RANK_TWO_PAIR 12) (Z.shiftl (pairs0 st) 8))
                      (Z.shiftl (pairs1 st) 4)) kicker)
  else if pair_count st =? 1 then
    let kickers := get_top_kickers counts (pairs0 st) 3 in
    Val (Z.lor (Z.lor (Z.shiftl RANK_ONE_PAIR 12) (Z.shiftl (pairs0 st) 8)) kickers)
  else
    unique5_lookup (Z.land rank_mask 8191).

(** The three accumulators of [evaluate_7cards]. *)
Record tally : Type := {
  suit_masks : list Z;
  rank_counts : list Z;
  rank_mask : Z
}.

Definition tally_init : tally :=
  {| suit_masks := [0; 0; 0; 0]; rank_counts := replicate 13 0; rank_mask := 0 |}.

(** One pass of the loop over [cards[i]]. *)
Definition tally_card (t : tally) (card : Z) : Res tally :=
  let r := get_rank card in
  let s := get_suit card in
  sm ← read (suit_masks t) s;
  sms ← write (suit_masks t) s (Z.lor sm (Z.shiftl 1 r));
  rc ← read (rank_counts t) r;
  rcs ← write (rank_counts t) r ((rc + 1) mod 256);
  Val {| suit_masks := sms; rank_counts := rcs;
         rank_mask := Z.lor (rank_mask t) (Z.shiftl 1 r) |}.

(** [for (i = 0; i < 7; ++i)] over the array [cards]; [n] passes are left. *)
Fixpoint tally_loop (n : nat) (i : Z) (cards : list Z) (t : tally) : Res tally :=
  match n with
  | O => Val t
  | S n' =>
      c ← read cards i;
      t' ← tally_card t c;
      tally_loop n' (i + 1) cards t'
  end.

(** [for (s = 0; s < 4; ++s)]: the first suit holding five cards decides. *)
Fixpoint flush_loop (masks : list Z) : option Z :=
  match masks with
  | [] => None
  | m :: rest => if 5 <=? popcount m then Some m else flush_loop rest
  end.

Definition evaluate_7cards (cards : list Z) : Res Z :=
  t ← tally_loop 7 0 cards tally_init;
  match flush_loop (suit_masks t) with
  | Some m => flush_lookup m
  | None => evaluate_non_flush (rank_counts t) (rank_mask t)
  end.

Definition evaluate_7cards_perfect (cards : list Z) : Res Z := evaluate_7cards cards.

(** The category field of a score. *)
Definition category (score : Z) : Z := Z.shiftr score 12.

End PokerEval.


(** ** step4_5_optimized_monte_carlo.cpp *)

Module MonteCarloEngine.
Import PokerCore PokerEval.

(** Wrap-around of [uint64_t] and [uint32_t]. *)
Definition u64 (x : Z) : Z := x mod 2 ^ 64.
Definition u32 (x : Z) : Z := x mod 2 ^ 32.

(** [FastRNG::next]: the new state, which is also the value returned. *)
Definition next (state : Z) : Z :=
  let s1 := Z.lxor state (u64 (Z.shiftl state 13)) in
  let s2 := Z.lxor s1 (Z.shiftr s1 7) in
  Z.lxor s2 (u64 (Z.shiftl s2 17)).

Definition next32 (state : Z) : Z * Z :=
  let s := next state in (u32 s, s).

(** [next32() % max]: the [int] operand is converted to [unsigned]. *)
Definition next_int (max state : Z) : Res (Z * Z) :=
  let '(v, s) := next32 state in
  let m := u32 max in
  if m =? 0 then Undef DivisionByZero else Val (v mod m, s).

(** Single precision, for the [equity] field. *)
Definition f32_of_int (z : Z) : spec_float := binary_normalize 24 128 z 0 false.
Definition f32_half : spec_float := S754_finite false 8388608 (-24).
Definition f32_mul : spec_float -> spec_float -> spec_float := SFmul 24 128.
Definition f32_add : spec_float -> spec_float -> spec_float := SFadd 24 128.
Definition f32_div : spec_float -> spec_float -> spec_float := SFdiv 24 128.

Record Result : Type := {
  equity : spec_float;
  wins : Z;
  ties : Z;
  losses : Z;
  iterations : Z
}.

(** The three counters together. *)
Definition decided (r : Result) : Z := wins r + ties r + losses r.

(** [dead_cards |= card_to_mask(board[i])] for [i < board_count]. *)
Fixpoint dead_loop (n : nat) (i : Z) (board : list Z) (dead : Z) : Res Z :=
  match n with
  | O => Val dead
  | S n' =>
      c ← read board i;
      m ← card_to_mask c;
      dead_loop n' (i + 1) board (Z.lor dead m)
  end.

(** The survivors, in increasing order; the list is the written prefix
    [deck[0 .. deck_size)] of the local array. *)
Fixpoint build_deck (n : nat) (c : Z) (dead : Z) (deck : list Z) : Res (list Z) :=
  match n with
  | O => Val deck
  | S n' =>
      b ← has_card dead c;
      build_deck n' (c + 1) dead (if (b : bool) then deck else deck ++ [c])
  end.

(** A read of [deck[i]]: cells from [deck_size] on were never written. *)
Definition read_deck (deck : list Z) (i : Z) : Res Z :=
  if i <? 0 then Undef (OutOfBounds i)
  else match deck !! Z.to_nat i with
       | Some c => Val c
       | None => if i <? DECK_SIZE then Undef (UninitialisedRead i)
                 else Undef (OutOfBounds i)
       end.

(** Fisher-Yates: [for (i = deck_size - 1; i > 0; --i)]; here [i = n]. *)
Fixpoint shuffle_loop (n : nat) (deck : list Z) (rng : Z) : Res (list Z * Z) :=
  match n with
  | O => Val (deck, rng)
  | S n' =>
      let i := Z.of_nat n in
      '(j, rng') ← next_int (i + 1) rng;
      di ← read deck i;
      dj ← read deck j;
      d1 ← write deck i dj;
      d2 ← write d1 j di;
      shuffle_loop n' d2 rng'
  end.

Definition shuffle (deck : list Z) (rng : Z) : Res (list Z * Z) :=
  shuffle_loop (Z.to_nat (Z.of_nat (length deck) - 1)) deck rng.

(** [full_board[i] = board[i]] for [i < board_count]. *)
Fixpoint copy_board (n : nat) (i : Z) (board full_board : list Z) : Res (list Z) :=
  match n with
  | O => Val full_board
  | S n' =>
      c ← read board i;
      fb ← write full_board i c;
      copy_board n' (i + 1) board fb
  end.

(** [full_board[i] = deck[deck_pos++]] for [board_count <= i < 5]. *)
Fixpoint deal_board (n : nat) (i : Z) (deck : list Z) (deck_pos : Z)
    (full_board : list Z) : Res (list Z * Z) :=
  match n with
  | O => Val (full_board, deck_pos)
  | S n' =>
      c ← read_deck deck deck_pos;
      fb ← write full_board i c;
      deal_board n' (i + 1) deck (deck_pos + 1) fb
  end.

(** The loop over opponents, with its [break]; returns [(won, tied)]. *)
Fixpoint opponents_loop (n : nat) (deck : list Z) (deck_pos : Z)
    (full_board : list Z) (hero_score : Z) (tied : bool) : Res (bool * bool) :=
  match n with
  | O => Val (true, tied)
  | S n' =>
      o0 ← read_deck deck deck_pos;
      o1 ← read_deck deck (deck_pos + 1);
      opp_score ← evaluate_7cards_perfect (o0 :: o1 :: full_board);
      if hero_score <? opp_score then Val (false, tied)
      else if opp_score =? hero_score
           then opponents_loop n' deck (deck_pos + 2) full_board hero_score true
           else opponents_loop n' deck (deck_pos + 2) full_board hero_score tied
  end.

(** The counters after one showdown. *)
Definition count_outcome (won tied : bool) (r : Result) : Result :=
  if won then
    if tied then
      {| equity := equity r; wins := wins r; ties := ties r + 1;
         losses := losses r; iterations := iterations r |}
    else
      {| equity := equity r; wins := wins r + 1; ties := ties r;
         losses := losses r; iterations := iterations r |}
  else
    {| equity := equity r; wins := wins r; ties := ties r;
       losses := losses r + 1; iterations := iterations r |}.

(** What an iteration carries over to the next one. *)
Record sim : Type := {
  sim_rng : Z;
  sim_deck : list Z;
  sim_result : Result
}.

(** The board of one iteration and the deck position after it. *)
Definition complete_board (board : list Z) (board_count : Z) (deck : list Z)
    : Res (list Z * Z) :=
  fb0 ← copy_board (Z.to_nat board_count) 0 board (replicate 5 0);
  deal_board (Z.to_nat (5 - board_count)) board_count deck 0 fb0.

(** The showdown of one iteration on a shuffled deck: [(won, tied)]. *)
Definition showdown (hero_card1 hero_card2 : Z) (board : list Z)
    (board_count opponents : Z) (deck : list Z) : Res (bool * bool) :=
  '(full_board, deck_pos) ← complete_board board board_count deck;
  hero_score ← evaluate_7cards_perfect (hero_card1 :: hero_card2 :: full_board);
  opponents_loop (Z.to_nat opponents) deck deck_pos full_board hero_score false.

(** The score of opponent [k], who holds the two cards dealt at
    [deck_pos + 2k]. *)
Definition opp_score (deck : list Z) (deck_pos : Z) (full_board : list Z) (k : Z)
    : Res Z :=
  o0 ← read_deck deck (deck_pos + 2 * k);
  o1 ← read_deck deck (deck_pos + 2 * k + 1);
  evaluate_7cards_perfect (o0 :: o1 :: full_board).

(** Some opponent among the first [n] scores strictly more than the hero. *)
Definition some_opponent_exceeds (deck : list Z) (deck_pos : Z)
    (full_board : list Z) (n hero_score : Z) : Prop :=
  exists k sc, 0 <= k < n /\ opp_score deck deck_pos full_board k = Val sc
               /\ hero_score < sc.

(** Some opponent among the first [n] scores exactly what the hero does. *)
Definition some_opponent_equals (deck : list Z) (deck_pos : Z)
    (full_board : list Z) (n hero_score : Z) : Prop :=
  exists k, 0 <= k < n /\ opp_score deck deck_pos full_board k = Val hero_score.

(** The body of [for (iter = 0; iter < iterations; ++iter)]. *)
Definition iteration (hero_card1 hero_card2 : Z) (board : list Z)
    (board_count opponents : Z) (st : sim) : Res sim :=
  '(deck, rng) ← shuffle (sim_deck st) (sim_rng st);
  '(won, tied) ← showdown hero_card1 hero_card2 board board_count opponents deck;
  Val {| sim_rng := rng; sim_deck := deck;
         sim_result := count_outcome won tied (sim_result st) |}.

Fixpoint iterate (n : nat) (hero_card1 hero_card2 : Z) (board : list Z)
    (board_count opponents : Z) (st : sim) : Res sim :=
  match n with
  | O => Val st
  | S n' =>
      st' ← iteration hero_card1 hero_card2 board board_count opponents st;
      iterate n' hero_card1 hero_card2 board board_count opponents st'
  end.

Definition run_simulation (hero_card1 hero_card2 : Z) (board : list Z)
    (board_count opponents iterations seed : Z) : Res Result :=
  let result := {| equity := S754_zero false; wins := 0; ties := 0;
                   losses := 0; iterations := iterations |} in
  m1 ← card_to_mask hero_card1;
  m2 ← card_to_mask hero_card2;
  dead_cards ← dead_loop (Z.to_nat board_count) 0 board (Z.lor m1 m2);
  deck ← build_deck (Z.to_nat DECK_SIZE) 0 dead_cards [];
  st ← iterate (Z.to_nat iterations) hero_card1 hero_card2 board board_count
         opponents {| sim_rng := seed; sim_deck := deck; sim_result := result |};
  Val (sim_result st).

(** The workers [t = first, first + 1, ...]; each fills [results[t]] only,
    so running them one after the other gives what the joined threads give. *)
Fixpoint workers (n : nat) (t : Z) (hero_card1 hero_card2 : Z) (board : list Z)
    (board_count opponents iters_per_thread seed : Z) : Res (list Result) :=
  match n with
  | O => Val []
  | S n' =>
      r ← run_simulation hero_card1 hero_card2 board board_count opponents
            iters_per_thread (u64 (seed + t));
      rs ← workers n' (t + 1) hero_card1 hero_card2 board board_count
             opponents iters_per_thread seed;
      Val (r :: rs)
  end.

Definition accumulate (final r : Result) : Result :=
  {| equity := equity final;
     wins := wins final + wins r;
     ties := ties final + ties r;
     losses := losses final + losses r;
     iterations := iterations final + iterations r |}.

(** [calculate_equity].  [hardware_concurrency] is what
    [std::thread::hardware_concurrency()] answers and [rd] what the random
    device yields; the source reads both from the environment. *)
Definition calculate_equity (hardware_concurrency rd : Z)
    (hero_card1 hero_card2 : Z) (board : list Z)
    (board_count opponents iterations seed : Z) : Res Result :=
  let seed := if seed =? 0 then rd else seed in
  let num_threads := hardware_concurrency in
  if num_threads =? 0 then Undef DivisionByZero else
  let iters_per_thread := Z.quot iterations num_threads in
  results ← workers (Z.to_nat num_threads) 0 hero_card1 hero_card2 board
              board_count opponents iters_per_thread seed;
  let final := fold_left accumulate results
                 {| equity := S754_zero false; wins := 0; ties := 0;
                    losses := 0; iterations := 0 |} in
  Val {| equity := f32_div (f32_add (f32_of_int (wins final))
                                    (f32_mul (f32_of_int (ties final)) f32_half))
                           (f32_of_int (MonteCarloEngine.iterations final));
         wins := wins final; ties := ties final; losses := losses final;
         iterations := MonteCarloEngine.iterations final |}.

(** The seed and the iteration count handed to worker [t]. *)
Definition worker_seed (rd seed t : Z) : Z :=
  u64 ((if seed =? 0 then rd else seed) + t).
Definition worker_iterations (hardware_concurrency iterations : Z) : Z :=
  Z.quot iterations hardware_concurrency.

(** The C entry point: the default seed 0, and the equity alone. *)
Definition calculate_equity_optimized (hardware_concurrency rd : Z)
    (h1 h2 : Z) (board : list Z) (board_count opponents iterations : Z)
    : Res spec_float :=
  result ← calculate_equity hardware_concurrency rd h1 h2 board board_count
             opponents iterations 0;
  Val (equity result).

End MonteCarloEngine.

(** ** Conversions and helpers on [double] *)

(** [static_cast<double>(n)] for an integer of at most 63 bits. *)
Definition double_of_int (z : Z) : float :=
  match z with
  | Z0 => 0%float
  | Zpos _ => of_uint63 (Uint63.of_Z z)
  | Zneg p => (- of_uint63 (Uint63.of_Z (Zpos p)))%float
  end.

(** [std::max(a, b)] is [(a < b) ? b : a]. *)
Definition std_max (a b : float) : float := if (a <? b)%float then b else a.
Definition std_min (a b : float) : float := if (b <? a)%float then b else a.

(** [std::pow(x, -1.0)], taken as the correctly rounded reciprocal. *)
Definition pow_neg1 (x : float) : float := (1 / x)%float.

(** A value that compares as at least zero; NaN does not. *)
Definition nonneg (x : float) : Prop := (0 <=? x)%float = true.

(** The same on the specification side of binary64. *)
Definition SFnonneg (x : spec_float) : bool := SFleb (S754_zero false) x.

(** ** step6_7_cfr_engine_complete.cpp *)

Module CFREngine.

(** [m[a]] on a [std::map<Action, double>]: a missing key is inserted
    with value [0.0] first. *)
Definition touch (m : gmap Z float) (a : Z) : gmap Z float :=
  match m !! a with
  | Some _ => m
  | None => <[a := 0%float]> m
  end.

Definition at_key (m : gmap Z float) (a : Z) : float := default 0%float (m !! a).

Record InfoSet : Type := {
  regret_sum : gmap Z float;
  strategy_sum : gmap Z float;
  visit_count : Z
}.

Definition new_info_set : InfoSet :=
  {| regret_sum := ∅; strategy_sum := ∅; visit_count := 0 |}.

(** The first loop of [InfoSet::get_strategy]; the state is
    [(regret_sum, strategy, normalizing_sum)]. *)
Definition clip_step (st : gmap Z float * gmap Z float * float) (a : Z)
    : gmap Z float * gmap Z float * float :=
  let '(rs, strategy, normalizing_sum) := st in
  let rs' := touch rs a in
  let regret := std_max 0 (at_key rs' a) in
  (rs', <[a := regret]> strategy, (normalizing_sum + regret)%float).

Definition normalise_step (normalizing_sum : float) (strategy : gmap Z float) (a : Z)
    : gmap Z float :=
  <[a := (at_key strategy a / normalizing_sum)%float]> strategy.

Definition uniform_step (uniform : float) (strategy : gmap Z float) (a : Z)
    : gmap Z float :=
  <[a := uniform]> strategy.

Definition uniform_strategy (legal_actions : list Z) : gmap Z float :=
  let uniform := (1 / double_of_int (Z.of_nat (length legal_actions)))%float in
  fold_left (uniform_step uniform) legal_actions ∅.

(** [InfoSet::get_strategy]: the strategy and the information set after the
    call (the lookups may have added zero regrets). *)
Definition info_get_strategy (i : InfoSet) (legal_actions : list Z)
    : gmap Z float * InfoSet :=
  let '(rs, strategy, normalizing_sum) :=
    fold_left clip_step legal_actions (regret_sum i, ∅, 0%float) in
  let i' := {| regret_sum := rs; strategy_sum := strategy_sum i;
               visit_count := visit_count i |} in
  if (0 <? normalizing_sum)%float then
    (fold_left (normalise_step normalizing_sum) legal_actions strategy, i')
  else
    let uniform := (1 / double_of_int (Z.of_nat (length legal_actions)))%float in
    (fold_left (uniform_step uniform) legal_actions strategy, i').

Definition sum_step (st : gmap Z float * float) (a : Z) : gmap Z float * float :=
  let '(ss, normalizing_sum) := st in
  let ss' := touch ss a in
  (ss', (normalizing_sum + at_key ss' a)%float).

Definition average_step (normalizing_sum : float) (ss avg : gmap Z float) (a : Z)
    : gmap Z float :=
  <[a := (at_key ss a / normalizing_sum)%float]> avg.

Definition get_average_strategy (i : InfoSet) (legal_actions : list Z)
    : gmap Z float * InfoSet :=
  let '(ss, normalizing_sum) :=
    fold_left sum_step legal_actions (strategy_sum i, 0%float) in
  let i' := {| regret_sum := regret_sum i; strategy_sum := ss;
               visit_count := visit_count i |} in
  if (0 <? normalizing_sum)%float then
    (fold_left (average_step normalizing_sum ss) legal_actions ∅, i')
  else
    (uniform_strategy legal_actions, i').

(** [strategy_sum[action] += prob * weight] over the entries of [strategy]. *)
Definition accumulate_strategy (strategy : gmap Z float) (iteration : Z)
    (i : InfoSet) : InfoSet :=
  let weight := (double_of_int iteration / double_of_int (iteration + 1))%float in
  {| regret_sum := regret_sum i;
     strategy_sum :=
       map_fold (fun action prob ss =>
                   <[action := (at_key ss action + prob * weight)%float]> ss)
                (strategy_sum i) strategy;
     visit_count := visit_count i |}.

(** One entry of [update_regrets]: add, then clip at zero. *)
Definition update_regret (weight : float) (action : Z) (regret : float)
    (rs : gmap Z float) : gmap Z float :=
  <[action := std_max 0 (at_key rs action + weight * regret)%float]> rs.

Definition update_regrets (regrets : gmap Z float) (weight : float)
    (i : InfoSet) : InfoSet :=
  {| regret_sum := map_fold (update_regret weight) (regret_sum i) regrets;
     strategy_sum := strategy_sum i;
     visit_count := visit_count i |}.

Record CFRSolver : Type := {
  info_sets : gmap string InfoSet;
  iteration : Z;
  discount_alpha : float;
  discount_beta : float
}.

Definition new_solver : CFRSolver :=
  {| info_sets := ∅; iteration := 0;
     discount_alpha := 1.5%float; discount_beta := 0.5%float |}.

Definition with_info_sets (s : CFRSolver) (m : gmap string InfoSet) : CFRSolver :=
  {| info_sets := m; iteration := iteration s;
     discount_alpha := discount_alpha s; discount_beta := discount_beta s |}.

(** [info_sets[key]]: the set stored under [key], created empty if absent. *)
Definition info_set_at (s : CFRSolver) (key : string) : InfoSet :=
  default new_info_set (info_sets s !! key).

Definition set_info_set (s : CFRSolver) (key : string) (i : InfoSet) : CFRSolver :=
  with_info_sets s (<[key := i]> (info_sets s)).

(** The game-logic hooks, as the source has them. *)
Definition is_terminal (s : CFRSolver) : bool := false.
Definition is_chance_node (s : CFRSolver) : bool := false.
Definition get_current_player (s : CFRSolver) : Z := 0.
Definition get_info_set_key (s : CFRSolver) : string := "example_state".
Definition get_legal_actions (s : CFRSolver) : list Z := [0; 1; 2].
Definition get_payoff (s : CFRSolver) (player : Z) : float := 0%float.
Definition get_chance_outcomes (s : CFRSolver) : list (Z * float) := [].
Definition apply_chance_outcome (s : CFRSolver) (outcome : Z) : CFRSolver := s.
Definition revert_chance_outcome (s : CFRSolver) (outcome : Z) : CFRSolver := s.

(** [discount_regrets]: every regret times [pow(alpha, -1)], every strategy
    sum times [pow(beta, -1)]. *)
Definition discount_info_set (alpha beta : float) (i : InfoSet) : InfoSet :=
  {| regret_sum := (fun regret => (regret * pow_neg1 alpha)%float) <$> regret_sum i;
     strategy_sum := (fun strategy => (strategy * pow_neg1 beta)%float) <$> strategy_sum i;
     visit_count := visit_count i |}.

Definition discount_regrets (s : CFRSolver) : CFRSolver :=
  with_info_sets s
    (discount_info_set (discount_alpha s) (discount_beta s) <$> info_sets s).

Section Recursion.
(** The recursive call, one level of fuel down. *)
Variable rec : Z -> Z -> float -> float -> CFRSolver -> option (float * CFRSolver).

(** The loop over actions in [handle_player_node]; the state is
    [(action_utilities, node_utility, solver)]. *)
Fixpoint player_actions (actions : list Z) (strategy : gmap Z float)
    (depth player : Z) (pi_reach_player pi_reach_opponent : float)
    (st : gmap Z float * float * CFRSolver)
    : option (gmap Z float * float * CFRSolver) :=
  match actions with
  | [] => Some st
  | action :: rest =>
      let '(action_utilities, node_utility, s) := st in
      let action_prob := at_key strategy action in
      '(utility, s') ← rec (depth + 1) player
                           (pi_reach_player * action_prob)%float
                           pi_reach_opponent s;
      player_actions rest strategy depth player pi_reach_player pi_reach_opponent
        (<[action := utility]> action_utilities,
         (node_utility + action_prob * utility)%float, s')
  end.

Definition regrets_of (legal_actions : list Z) (action_utilities : gmap Z float)
    (node_utility : float) : gmap Z float :=
  fold_left (fun regrets action =>
               <[action := (at_key action_utilities action - node_utility)%float]> regrets)
            legal_actions ∅.

Definition handle_player_node (depth player : Z)
    (pi_reach_player pi_reach_opponent : float) (s : CFRSolver)
    : option (float * CFRSolver) :=
  let info_set_key := get_info_set_key s in
  let legal_actions := get_legal_actions s in
  let '(strategy, i) := info_get_strategy (info_set_at s info_set_key) legal_actions in
  let s := set_info_set s info_set_key i in
  '(action_utilities, node_utility, s) ←
     player_actions legal_actions strategy depth player
       pi_reach_player pi_reach_opponent (∅, 0%float, s);
  let regrets := regrets_of legal_actions action_utilities node_utility in
  let i := info_set_at s info_set_key in
  let i := update_regrets regrets pi_reach_opponent i in
  let i := accumulate_strategy strategy (iteration s) i in
  let i := {| regret_sum := regret_sum i; strategy_sum := strategy_sum i;
              visit_count := visit_count i + 1 |} in
  Some (node_utility, set_info_set s info_set_key i).

Fixpoint opponent_actions (actions : list Z) (strategy : gmap Z float)
    (depth player : Z) (pi_reach_player pi_reach_opponent : float)
    (st : float * CFRSolver) : option (float * CFRSolver) :=
  match actions with
  | [] => Some st
  | action :: rest =>
      let '(node_utility, s) := st in
      let action_prob := at_key strategy action in
      '(utility, s') ← rec (depth + 1) player pi_reach_player
                           (pi_reach_opponent * action_prob)%float s;
      opponent_actions rest strategy depth player pi_reach_player pi_reach_opponent
        ((node_utility + action_prob * utility)%float, s')
  end.

Definition handle_opponent_node (depth player : Z)
    (pi_reach_player pi_reach_opponent : float) (s : CFRSolver)
    : option (float * CFRSolver) :=
  let info_set_key := get_info_set_key s in
  let legal_actions := get_legal_actions s in
  let '(strategy, i) := info_get_strategy (info_set_at s info_set_key) legal_actions in
  let s := set_info_set s info_set_key i in
  opponent_actions legal_actions strategy depth player
    pi_reach_player pi_reach_opponent (0%float, s).

Fixpoint chance_outcomes (outcomes : list (Z * float)) (depth player : Z)
    (pi_reach_player pi_reach_opponent : float) (st : float * CFRSolver)
    : option (float * CFRSolver) :=
  match outcomes with
  | [] => Some st
  | (outcome, probability) :: rest =>
      let '(expected_utility, s) := st in
      let s := apply_chance_outcome s outcome in
      '(utility, s) ← rec (depth + 1) player pi_reach_player pi_reach_opponent s;
      let s := revert_chance_outcome s outcome in
      chance_outcomes rest depth player pi_reach_player pi_reach_opponent
        ((expected_utility + probability * utility)%float, s)
  end.

Definition handle_chance_node (depth player : Z)
    (pi_reach_player pi_reach_opponent : float) (s : CFRSolver)
    : option (float * CFRSolver) :=
  chance_outcomes (get_chance_outcomes s) depth player
    pi_reach_player pi_reach_opponent (0%float, s).
End Recursion.

(** [cfr_recursive]; [fuel] bounds the depth of the recursion. *)
Fixpoint cfr_recursive (fuel : nat) (depth player : Z)
    (pi_reach_player pi_reach_opponent : float) (s : CFRSolver)
    : option (float * CFRSolver) :=
  match fuel with
  | O => None
  | S fuel' =>
      if is_terminal s then Some (get_payoff s player, s)
      else if is_chance_node s then
        handle_chance_node (cfr_recursive fuel') depth player
          pi_reach_player pi_reach_opponent s
      else if get_current_player s =? player then
        handle_player_node (cfr_recursive fuel') depth player
          pi_reach_player pi_reach_opponent s
      else
        handle_opponent_node (cfr_recursive fuel') depth player
          pi_reach_player pi_reach_opponent s
  end.

(** [for (player = 0; player < 2; ++player)]. *)
Fixpoint players_loop (fuel : nat) (n : nat) (player : Z) (s : CFRSolver)
    : option CFRSolver :=
  match n with
  | O => Some s
  | S n' =>
      '(_, s') ← cfr_recursive fuel 0 player 1%float 1%float s;
      players_loop fuel n' (player + 1) s'
  end.

(** One pass of the loop of [train]. *)
Definition train_step (fuel : nat) (s : CFRSolver) : option CFRSolver :=
  let s := {| info_sets := info_sets s; iteration := iteration s + 1;
              discount_alpha := discount_alpha s;
              discount_beta := discount_beta s |} in
  s ← players_loop fuel 2 0 s;
  Some (if Z.rem (iteration s) 100 =? 0 then discount_regrets s else s).

Fixpoint train_loop (fuel : nat) (n : nat) (s : CFRSolver) : option CFRSolver :=
  match n with
  | O => Some s
  | S n' => s' ← train_step fuel s; train_loop fuel n' s'
  end.

(** [train(iterations)]: [Some] is the solver when the call returns. *)
Definition train (fuel : nat) (iterations : Z) (s : CFRSolver) : option CFRSolver :=
  train_loop fuel (Z.to_nat iterations) s.

(** The public [CFRSolver::get_strategy]. *)
Definition get_strategy (s : CFRSolver) (info_set_key : string)
    (legal_actions : list Z) : gmap Z float * CFRSolver :=
  match info_sets s !! info_set_key with
  | None => (uniform_strategy legal_actions, s)
  | Some i =>
      let '(avg, i') := get_average_strategy i legal_actions in
      (avg, set_info_set s info_set_key i')
  end.

Definition compute_exploitability (s : CFRSolver) : float :=
  let total_exploit :=
    map_fold (fun _ i total =>
                if 0 <? visit_count i then
                  (total + map_fold (fun _ regret best => (best + std_max 0 regret)%float)
                                    0%float (regret_sum i))%float
                else total)
             0%float (info_sets s) in
  (total_exploit / double_of_int (Z.of_nat (size (info_sets s))))%float.

(** What the solver does to an information set after creating it empty:
    the four operations on regrets and strategies, the averaging query and
    the visit counter.  The discount uses the constants of the solver,
    which no member function changes. *)
Inductive info_op : Type :=
  | OpUpdateRegrets (regrets : gmap Z float) (weight : float)
  | OpDiscountRegrets
  | OpAccumulateStrategy (strategy : gmap Z float) (iteration : Z)
  | OpGetStrategy (legal_actions : list Z)
  | OpGetAverageStrategy (legal_actions : list Z)
  | OpVisit.

Definition apply_op (i : InfoSet) (op : info_op) : InfoSet :=
  match op with
  | OpUpdateRegrets regrets weight => update_regrets regrets weight i
  | OpDiscountRegrets =>
      discount_info_set (discount_alpha new_solver) (discount_beta new_solver) i
  | OpAccumulateStrategy strategy iteration => accumulate_strategy strategy iteration i
  | OpGetStrategy legal_actions => snd (info_get_strategy i legal_actions)
  | OpGetAverageStrategy legal_actions => snd (get_average_strategy i legal_actions)
  | OpVisit => {| regret_sum := regret_sum i; strategy_sum := strategy_sum i;
                  visit_count := visit_count i + 1 |}
  end.

Definition run_ops (ops : list info_op) : InfoSet := fold_left apply_op ops new_info_set.

(** The invariant of CFR+: every stored regret compares as at least zero. *)
Definition regrets_nonneg (i : InfoSet) : Prop :=
  map_Forall (fun _ r => nonneg r) (regret_sum i).

End CFREngine.

(** ** step8_mcts_complete.cpp *)

Module MCTSEngine.

Definition EXPLORATION_CONSTANT : float := 1.41%float.

(** What the engine takes from the C++ library: the Mersenne twister with
    its seeding, [std::uniform_int_distribution] (whose mapping from
    generator output to integers the standard leaves to the
    implementation) and [std::log]. *)
Class Platform : Type := {
  rng_state : Type;
  seed_rng : Z -> rng_state;
  uniform_int : Z -> Z -> rng_state -> Z * rng_state;
  log : float -> float
}.

(** Nodes live in a heap, a list indexed by address; [parent] is the raw
    back-pointer ([None] is [nullptr]) and [children] the owned nodes. *)
Record MCTSNode : Type := {
  visits : Z;
  total_value : float;
  action : Z;
  parent : option nat;
  children : list nat;
  untried_actions : list Z;
  is_terminal : bool
}.

Definition new_node : MCTSNode :=
  {| visits := 0; total_value := 0%float; action := -1; parent := None;
     children := []; untried_actions := []; is_terminal := false |}.

Definition deref (heap : list MCTSNode) (p : nat) : Res MCTSNode :=
  match heap !! p with
  | Some n => Val n
  | None => Undef NullDereference
  end.

Definition get_average_value (n : MCTSNode) : float :=
  if 0 <? visits n then (total_value n / double_of_int (visits n))%float
  else 0%float.

(** The game-specific functions, as the source has them. *)
Definition get_legal_actions_after (action : Z) : list Z := [].
Definition is_terminal_state_after (action : Z) : bool := false.
Definition evaluate_terminal_state : float := 0%float.
Definition is_terminal_in_simulation : bool := false.
Definition get_available_actions_simulation : list Z := [].
Definition evaluate_final_state : float := 0%float.

(** The search object; [G] is the type of the generator's state. *)
Record MCTSSearch_of (G : Type) : Type := {
  nodes : list MCTSNode;
  rng : G;
  simulation_count : Z
}.
Arguments nodes {G} _.
Arguments rng {G} _.
Arguments simulation_count {G} _.

Section Search.
Context {P : Platform}.

Definition MCTSSearch : Type := MCTSSearch_of rng_state.

(** The address of the root. *)
Definition root : nat := 0%nat.

Definition get_ucb1_score (heap : list MCTSNode) (n : MCTSNode) : Res float :=
  if visits n =? 0 then Val infinity
  else match parent n with
       | None => Val 0%float
       | Some p =>
           pn ← deref heap p;
           let exploitation := (total_value n / double_of_int (visits n))%float in
           let exploration :=
             (EXPLORATION_CONSTANT *
              sqrt (log (double_of_int (visits pn)) / double_of_int (visits n)))%float in
           Val (exploitation + exploration)%float
       end.

(** The constructor; [rd] is what the random device yields. *)
Definition new_search (rd : Z) (legal_actions : list Z) (seed : Z) : MCTSSearch :=
  {| nodes := [ {| visits := 0; total_value := 0%float; action := -1;
                   parent := None; children := [];
                   untried_actions := legal_actions; is_terminal := false |} ];
     rng := seed_rng (if seed =? 0 then rd else seed);
     simulation_count := 0 |}.

Fixpoint select_loop (heap : list MCTSNode) (cs : list nat)
    (best : option nat) (best_score : float) : Res (option nat) :=
  match cs with
  | [] => Val best
  | c :: rest =>
      n ← deref heap c;
      score ← get_ucb1_score heap n;
      if (best_score <? score)%float
      then select_loop heap rest (Some c) score
      else select_loop heap rest best best_score
  end.

Definition select_best_child (heap : list MCTSNode) (n : MCTSNode) : Res (option nat) :=
  select_loop heap (children n) None neg_infinity.

(** Phase 1, the descent; a path of a tree is shorter than the heap. *)
Fixpoint selection (fuel : nat) (heap : list MCTSNode) (node : nat) : Res nat :=
  n ← deref heap node;
  match untried_actions n, children n with
  | [], _ :: _ =>
      match fuel with
      | O => Undef NotATree
      | S fuel' =>
          best ← select_best_child heap n;
          match best with
          | None => Undef NullDereference
          | Some c => selection fuel' heap c
          end
      end
  | _, _ => Val node
  end.

(** Phase 2: [expand(node)] gives the heap, the generator and the child. *)
Definition expand (heap : list MCTSNode) (g : rng_state) (node : nat)
    : Res (list MCTSNode * rng_state * nat) :=
  n ← deref heap node;
  let '(idx, g') := uniform_int 0 (Z.of_nat (length (untried_actions n)) - 1) g in
  a ← read (untried_actions n) idx;
  let child := {| visits := 0; total_value := 0%float; action := a;
                  parent := Some node; children := [];
                  untried_actions := get_legal_actions_after a;
                  is_terminal := is_terminal_state_after a |} in
  let child_ptr := length heap in
  let n' := {| visits := visits n; total_value := total_value n;
               action := action n; parent := parent n;
               children := children n ++ [child_ptr];
               untried_actions := delete (Z.to_nat idx) (untried_actions n);
               is_terminal := is_terminal n |} in
  Val (<[node := n']> heap ++ [child], g', child_ptr).

(** The playout loop, at most [max_depth = 100] rounds; gives the depth
    reached. *)
Fixpoint playout (n : nat) (depth : Z) (g : rng_state) : Res (Z * rng_state) :=
  match n with
  | O => Val (depth, g)
  | S n' =>
      if is_terminal_in_simulation then Val (depth, g)
      else
        let actions := get_available_actions_simulation in
        match actions with
        | [] => Val (depth, g)
        | _ :: _ =>
            let '(k, g') := uniform_int 0 (Z.of_nat (length actions) - 1) g in
            _ ← read actions k;
            playout n' (depth + 1) g'
        end
  end.

(** Phase 3. *)
Definition simulate (heap : list MCTSNode) (g : rng_state) (node : nat)
    : Res (float * rng_state) :=
  n ← deref heap node;
  if is_terminal n then Val (evaluate_terminal_state, g)
  else
    '(_, g') ← playout 100 0 g;
    Val (evaluate_final_state, g').

(** Phase 4: [while (node != nullptr)]. *)
Fixpoint backpropagate (fuel : nat) (heap : list MCTSNode) (node : option nat)
    (value : float) : Res (list MCTSNode) :=
  match node with
  | None => Val heap
  | Some p =>
      match fuel with
      | O => Undef NotATree
      | S fuel' =>
          n ← deref heap p;
          let n' := {| visits := visits n + 1;
                       total_value := (total_value n + value)%float;
                       action := action n; parent := parent n;
                       children := children n;
                       untried_actions := untried_actions n;
                       is_terminal := is_terminal n |} in
          backpropagate fuel' (<[p := n']> heap) (parent n) (- value)%float
      end
  end.

(** The body of the loop of [search]. *)
Definition search_step (s : MCTSSearch) : Res MCTSSearch :=
  node ← selection (length (nodes s)) (nodes s) root;
  n ← deref (nodes s) node;
  '(heap, g, node) ←
     (match untried_actions n with
      | _ :: _ => if is_terminal n then Val (nodes s, rng s, node)
                  else expand (nodes s) (rng s) node
      | [] => Val (nodes s, rng s, node)
      end);
  '(value, g) ← simulate heap g node;
  heap ← backpropagate (length heap) heap (Some node) value;
  Val {| nodes := heap; rng := g; simulation_count := simulation_count s + 1 |}.

Fixpoint search_loop (n : nat) (s : MCTSSearch) : Res MCTSSearch :=
  match n with
  | O => Val s
  | S n' => s' ← search_step s; search_loop n' s'
  end.

Definition search (iterations : Z) (s : MCTSSearch) : Res MCTSSearch :=
  search_loop (Z.to_nat iterations) s.

(** The visit counts of the given children, in order. *)
Fixpoint visits_of (heap : list MCTSNode) (cs : list nat) : Res (list Z) :=
  match cs with
  | [] => Val []
  | c :: rest =>
      n ← deref heap c;
      vs ← visits_of heap rest;
      Val (visits n :: vs)
  end.

(** [total_visits += child->visits] over the children. *)
Definition sum_visits (vs : list Z) : Z := fold_left Z.add vs 0.

Definition get_policy_distribution (s : MCTSSearch) : Res (list float) :=
  r ← deref (nodes s) root;
  vs ← visits_of (nodes s) (children r);
  let total_visits := sum_visits vs in
  if 0 <? total_visits then
    Val (map (fun v => (double_of_int v / double_of_int total_visits)%float) vs)
  else
    Val (replicate (length vs) 0%float).

Fixpoint best_loop (heap : list MCTSNode) (cs : list nat)
    (best : option MCTSNode) (max_visits : Z) : Res (option MCTSNode) :=
  match cs with
  | [] => Val best
  | c :: rest =>
      n ← deref heap c;
      if max_visits <? visits n
      then best_loop heap rest (Some n) (visits n)
      else best_loop heap rest best max_visits
  end.

Definition get_best_action (s : MCTSSearch) : Res Z :=
  r ← deref (nodes s) root;
  match children r with
  | [] => Val (-1)
  | _ :: _ =>
      best ← best_loop (nodes s) (children r) None 0;
      Val (match best with Some n => action n | None => -1 end)
  end.
(** A node that backpropagation has reached at least once. *)
Definition visited (heap : list MCTSNode) (c : nat) : Prop :=
  exists n, heap !! c = Some n /\ 1 <= visits n.

(** What policy extraction relies on: the root is allocated, its children
    are allocated nodes, no counter is negative and, once a search has run
    ([searched]), some child of the root has been visited. *)
Definition sound (searched : bool) (heap : list MCTSNode) : Prop :=
  exists r, heap !! root = Some r /\
    Forall (fun c => (c < length heap)%nat) (children r) /\
    Forall (fun n => 0 <= visits n) heap /\
    (searched = true -> Exists (visited heap) (children r)).

(** A node after one backpropagation step. *)
Definition bump (n : MCTSNode) (v : float) : MCTSNode :=
  {| visits := visits n + 1; total_value := (total_value n + v)%float;
     action := action n; parent := parent n; children := children n;
     untried_actions := untried_actions n; is_terminal := is_terminal n |}.

(** Successive calls of [search], one per count of the list. *)
Fixpoint searches (counts : list Z) (s : MCTSSearch) : Res MCTSSearch :=
  match counts with
  | [] => Val s
  | n :: rest => s' ← search n s; searches rest s'
  end.

(** What the engine expects of the library: a draw lies in the range asked
    for, and the logarithm of a count of at least one is not negative. *)
Definition platform_ok : Prop :=
  (forall lo hi g, lo <= hi -> lo <= fst (uniform_int lo hi g) <= hi) /\
  (forall v, 1 <= v -> nonneg (log (double_of_int v))).

(** A child of the root as the hooks of the source leave it: a leaf with
    nothing to try, visited at least once, with value total zero. *)
Definition leaf_ok (count : Z) (c : MCTSNode) : Prop :=
  parent c = Some root /\ children c = [] /\ untried_actions c = [] /\
  is_terminal c = false /\ total_value c = 0%float /\ 1 <= visits c <= count.

(** The heaps a search goes through with those hooks: the root followed
    by its children, in the order of their creation. *)
Definition flat (s : MCTSSearch) : Prop :=
  exists r cs,
    nodes s = r :: cs /\ parent r = None /\ is_terminal r = false /\
    total_value r = 0%float /\ children r = seq 1 (length cs) /\
    Forall (leaf_ok (simulation_count s)) cs /\
    0 <= visits r <= simulation_count s /\
    (cs <> [] -> 1 <= visits r) /\
    (untried_actions r <> [] \/ cs <> []).

(** The passes a list of calls asks for; a count below one asks for none. *)
Definition total_passes (counts : list Z) : Z :=
  fold_right (fun n acc => Z.max 0 n + acc) 0 counts.

(** The bookkeeping of a search over [legal_actions]: the root has been
    visited once per pass, and so have its children taken together; every
    legal action is still untried or has become a child; and as long as
    some action is untried, every pass so far has created a child. *)
Definition accounted (legal_actions : list Z) (s : MCTSSearch) : Prop :=
  exists r cs,
    nodes s = r :: cs /\
    visits r = simulation_count s /\
    sum_visits (map visits cs) = simulation_count s /\
    map action cs ++ untried_actions r ≡ₚ legal_actions /\
    (untried_actions r <> [] -> Z.of_nat (length cs) = simulation_count s).

End Search.

(** The share [v / total] as an exact fraction. *)
Definition exact_share (total v : Z) : Q := Qmake v (Z.to_pos total).

Definition Qsum (l : list Q) : Q := fold_right Qplus (0 # 1)%Q l.

(** The exact value of a finite binary64 number. *)
Definition float_to_Q (x : float) : Q :=
  match Prim2SF x with
  | S754_finite s m e =>
      ((if s then Zneg m else Zpos m) # 1) * Qpower (2 # 1) e
  | _ => 0 # 1
  end%Q.

End MCTSEngine.

(** ** step9_eqr_complete.cpp *)

Module EQRCalculator.

Definition FACTORS : list float :=
  [0.75; 0.78; 0.82; 0.86; 0.92; 0.98; 1.18; 0.70; 0.68]%float.

Definition get_factor (position : Z) : Res float :=
  read FACTORS (Z.min position 8).

Definition StackDepthAdjustment_calculate (spr : float) : float :=
  if (spr <? 1.0)%float then 1.25%float
  else if (spr <? 3.0)%float then 1.15%float
  else if (spr <? 7.0)%float then 1.05%float
  else if (spr <? 13.0)%float then 1.00%float
  else if (spr <? 25.0)%float then 0.95%float
  else 0.90%float.

Definition BoardTextureAdjustment_calculate (texture_score : Z) (in_position : bool)
    : float :=
  if texture_score =? 0 then (if in_position then 1.08 else 0.95)%float
  else if texture_score =? 1 then (if in_position then 1.02 else 0.98)%float
  else (if in_position then 0.95 else 0.92)%float.

Definition MultiwayAdjustment_calculate (opponents : Z) : float :=
  (1.0 / (1.0 + 0.18 * double_of_int (opponents - 1)))%float.

Definition SkillAdjustment_calculate (opponent_skill : float) : float :=
  (1.05 - opponent_skill * 0.15)%float.

Record EQRResult : Type := {
  raw_equity : float;
  eqr : float;
  position_factor : float;
  stack_factor : float;
  board_factor : float;
  multiway_factor : float;
  skill_factor : float
}.

Definition calculate_complete (raw_equity : float) (position : Z)
    (stack pot : float) (board_texture opponents : Z) (in_position : bool)
    (opponent_skill : float) : Res EQRResult :=
  position_factor ← get_factor position;
  let spr := if (0 <? pot)%float then (stack / pot)%float else 100.0%float in
  let stack_factor := StackDepthAdjustment_calculate spr in
  let board_factor := BoardTextureAdjustment_calculate board_texture in_position in
  let multiway_factor := MultiwayAdjustment_calculate opponents in
  let skill_factor := SkillAdjustment_calculate opponent_skill in
  let eqr := (raw_equity * position_factor * stack_factor * board_factor
              * multiway_factor * skill_factor)%float in
  Val {| raw_equity := raw_equity;
         eqr := std_min 1.0 (std_max 0.0 eqr);
         position_factor := position_factor;
         stack_factor := stack_factor;
         board_factor := board_factor;
         multiway_factor := multiway_factor;
         skill_factor := skill_factor |}.

Definition STREET_FACTORS : list float := [0.95; 1.00; 1.03; 1.05]%float.

Definition adjust_for_street (eqr : float) (street : Z) : Res float :=
  f ← read STREET_FACTORS (Z.min street 3);
  Val (eqr * f)%float.

Definition calculate_eqr_advanced (raw_equity : float) (position : Z)
    (stack pot : float) (board_texture opponents : Z) (in_position : bool)
    (opponent_skill : float) : Res float :=
  r ← calculate_complete raw_equity position stack pot board_texture
        opponents in_position opponent_skill;
  Val (eqr r).

End EQRCalculator.

(** ** The ranking the evaluator is specified against

    Written from the specification, not from the evaluator: the score of a
    seven-card set is the best score among its twenty-one five-card hands,
    a five-card hand being ranked by its category and then by its ranks in
    the order in which standard rules compare them.  The layout is the one
    of the specification's HandScore: the category above five four-bit
    rank fields. *)

Module Reference.
Import PokerCore.

Definition descending_ranks : list Z := [12; 11; 10; 9; 8; 7; 6; 5; 4; 3; 2; 1; 0].

Definition multiplicity (ranks : list Z) (r : Z) : Z :=
  Z.of_nat (length (filter (fun x => x = r) ranks)).

(** The ranks held exactly [k] times, highest first. *)
Definition held (ranks : list Z) (k : Z) : list Z :=
  filter (fun r => multiplicity ranks r = k) descending_ranks.

Definition all_same (l : list Z) : bool :=
  match l with
  | [] => true
  | x :: rest => forallb (Z.eqb x) rest
  end.

(** The high card of a straight: five distinct ranks in a row, the ace
    also counting below the two. *)
Definition straight_high (ranks : list Z) : option Z :=
  let singles := held ranks 1 in
  match singles with
  | [a; b; c; d; e] =>
      if a - e =? 4 then Some a
      else if (a =? 12) && (b =? 3) && (e =? 0) then Some 3
      else None
  | _ => None
  end.

Definition pack (category : Z) (tiebreak : list Z) : Z :=
  fold_left (fun acc r => acc * 16 + r) (take 5 (tiebreak ++ replicate 5 0)) category.

Definition score5 (hand : list Z) : Z :=
  let ranks := map get_rank hand in
  let flush := all_same (map get_suit hand) in
  let order := held ranks 4 ++ held ranks 3 ++ held ranks 2 ++ held ranks 1 in
  match straight_high ranks with
  | Some high => if flush then pack 8 [high] else pack 4 [high]
  | None =>
      if negb (length (held ranks 4) =? 0)%nat then pack 7 order
      else if negb (length (held ranks 3) =? 0)%nat
              && negb (length (held ranks 2) =? 0)%nat then pack 6 order
      else if flush then pack 5 order
      else if negb (length (held ranks 3) =? 0)%nat then pack 3 order
      else if (length (held ranks 2) =? 2)%nat then pack 2 order
      else if (length (held ranks 2) =? 1)%nat then pack 1 order
      else pack 0 order
  end.

(** The sublists of [l] with [k] elements. *)
Fixpoint choose (k : nat) (l : list Z) : list (list Z) :=
  match k, l with
  | O, _ => [[]]
  | S _, [] => []
  | S k', x :: rest => map (cons x) (choose k' rest) ++ choose k rest
  end.

Definition score7 (cards : list Z) : Z :=
  fold_left Z.max (map score5 (choose 5 cards)) 0.

Definition beats (s1 s2 : list Z) : bool := score7 s2 <? score7 s1.

Definition category (score : Z) : Z := Z.shiftr score 20.

End Reference.

(** ** Concrete hands used in the examples

    A card is [13 * suit + rank], suits in the order spades, hearts,
    diamonds, clubs and ranks from the two (0) to the ace (12). *)

Module Hands.

(** A♠ K♠ Q♠ J♠ T♠ 2♥ 3♦ *)
Definition royal_flush : list Z := [12; 11; 10; 9; 8; 13; 27].
(** A♠ K♠ Q♠ J♠ 9♠ 2♥ 3♦ *)
Definition ace_high_flush : list Z := [12; 11; 10; 9; 7; 13; 27].
(** A♠ K♥ Q♦ J♣ 9♠ 7♥ 5♦ *)
Definition ace_high : list Z := [12; 24; 36; 48; 7; 18; 29].
(** K♠ Q♥ J♦ 9♣ 7♠ 5♥ 3♦ *)
Definition king_high : list Z := [11; 23; 35; 46; 5; 16; 27].
(** 7♠ 7♥ 7♦ 7♣ 2♠ 3♠ 4♠ *)
Definition quad_sevens : list Z := [5; 18; 31; 44; 0; 1; 2].
(** A♠ A♥ K♦ K♣ K♠ 2♣ 3♣ *)
Definition kings_full_of_aces : list Z := [12; 25; 37; 50; 11; 39; 40].
(** A♠ A♥ A♦ K♠ K♥ K♦ 2♣ *)
Definition aces_and_kings_trips : list Z := [12; 25; 38; 11; 24; 37; 39].
(** A♠ 2♠ 3♠ 4♠ 5♠ K♥ K♦ *)
Definition wheel_flush : list Z := [12; 0; 1; 2; 3; 24; 37].
(** 2♠ 3♠ 4♠ 5♠ 6♠ K♥ K♦ *)
Definition six_high_straight_flush : list Z := [0; 1; 2; 3; 4; 24; 37].
(** The rank mask of the wheel: ace, two, three, four, five. *)
Definition wheel_mask : Z := 4111.

End Hands.

(** The EQR scenario of the specification: raw equity 0.60 on the button,
    stack 100 into a pot of 10, dry board, one opponent, in position,
    opponent skill 0.5. *)
Module Scenario.

Definition eqr_result : Res EQRCalculator.EQRResult :=
  EQRCalculator.calculate_complete 0.60 6 100 10 0 1 true 0.5.

Definition eqr_value : Res float :=
  EQRCalculator.calculate_eqr_advanced 0.60 6 100 10 0 1 true 0.5.

(** The value the specification gives for it. *)
Definition eqr_stated : float := (0.60 * 1.18 * 0.90 * 1.08 * 1.0 * 0.975)%float.

End Scenario.

(** Runs of the equity calculator with aces in the hole, an empty board and
    one opponent, on a machine with four hardware threads. *)
Module Runs.

Definition ten_requested : Res MonteCarloEngine.Result :=
  MonteCarloEngine.calculate_equity 4 7 12 25 [] 0 1 10 1.

Definition negative_count : Res MonteCarloEngine.Result :=
  MonteCarloEngine.calculate_equity 4 7 12 25 [] 0 1 (-8) 1.

(** The state a worker with seed 1 starts from, and the one it is in after
    two iterations. *)
Definition start : MonteCarloEngine.sim :=
  {| MonteCarloEngine.sim_rng := 1;
     MonteCarloEngine.sim_deck :=
       List.filter (fun c => negb (existsb (Z.eqb c) [12; 25])) (seqZ 0 52);
     MonteCarloEngine.sim_result :=
       {| MonteCarloEngine.equity := S754_zero false; MonteCarloEngine.wins := 0;
          MonteCarloEngine.ties := 0; MonteCarloEngine.losses := 0;
          MonteCarloEngine.iterations := 2 |} |}.

Definition state_after_two : MonteCarloEngine.sim :=
  Eval vm_compute in
    match MonteCarloEngine.iterate 2 12 25 [] 0 1 start with
    | Val st => st
    | Undef _ => start
    end.

End Runs.

(** A search over ten actions on a stand-in for the C++ library: a linear
    congruential generator reduced to the requested range, and the bound
    [max(0, x - 1)] in place of the natural logarithm. *)
Module Searches.

Definition stand_in : MCTSEngine.Platform :=
  {| MCTSEngine.rng_state := Z;
     MCTSEngine.seed_rng := fun seed => seed;
     MCTSEngine.uniform_int := fun lo hi g =>
       (lo + (g / 65536) mod (hi - lo + 1),
        (g * 6364136223846793005 + 1442695040888963407) mod 2 ^ 64);
     MCTSEngine.log := fun x => std_max 0 (x - 1)%float |}.

Definition ten_actions : list Z := [0; 1; 2; 3; 4; 5; 6; 7; 8; 9].

Definition after_ten : Res (@MCTSEngine.MCTSSearch stand_in) :=
  @MCTSEngine.search stand_in 10 (@MCTSEngine.new_search stand_in 7 ten_actions 1).

Definition policy_after_ten : Res (list float) :=
  s ← after_ten; MCTSEngine.get_policy_distribution s.

Definition after_twenty_five : Res (@MCTSEngine.MCTSSearch stand_in) :=
  @MCTSEngine.search stand_in 25 (@MCTSEngine.new_search stand_in 7 [3; 5; 8] 1).

(** The search state those twenty-five passes end in. *)
Definition state_after_twenty_five : @MCTSEngine.MCTSSearch stand_in :=
  Eval vm_compute in
    match after_twenty_five with
    | Val s => s
    | Undef _ => @MCTSEngine.new_search stand_in 7 [3; 5; 8] 1
    end.

End Searches.

(** ** Vocabulary of the properties *)

(** Rank masks: bit [r] stands for rank [r], the two at bit 0 and the ace
    at bit 12. *)
Module RankMask.

(** The five ranks [lo .. lo + 4] are all present. *)
Definition run_at (mask lo : Z) : Prop :=
  forall j, 0 <= j < 5 -> Z.testbit mask (lo + j) = true.

(** Ace, two, three, four and five are all present. *)
Definition wheel (mask : Z) : Prop :=
  Z.testbit mask 12 = true /\ forall j, 0 <= j < 4 -> Z.testbit mask j = true.

End RankMask.

(** Counting the cards of a hand by rank and suit. *)
Module Hand.
Import PokerCore.

(** How many cards of the hand have rank [r]. *)
Definition held_times (r : Z) (cards : list Z) : nat :=
  length (List.filter (fun c => get_rank c =? r) cards).

Definition of_rank (r : Z) (cards : list Z) : Z := Z.of_nat (held_times r cards).

(** Some card of the hand has rank [r]. *)
Definition has_rank (r : Z) (cards : list Z) : bool :=
  existsb (fun c => get_rank c =? r) cards.

(** Some card of the hand has suit [s] and rank [r]. *)
Definition has_suited (s r : Z) (cards : list Z) : bool :=
  existsb (fun c => (get_suit c =? s) && (get_rank c =? r)) cards.

(** A card of the 52-card deck. *)
Definition valid (c : Z) : Prop := 0 <= c < DECK_SIZE.

End Hand.

(** * Properties *)

(** ** Results *)

Lemma bind_val {A B : Type} (m : Res A) (k : A -> Res B) (b : B) :
  m ≫= k = Val b -> exists a, m = Val a /\ k a = Val b.
Proof. destruct m as [a|u]; [eauto | discriminate]. Qed.

(** Splits a hypothesis [x ← m; k = Val b] into [m = Val x] and the rest. *)
Tactic Notation "inv_bind" hyp(H) "as" ident(x) ident(Hx) :=
  apply bind_val in H; destruct H as [x [Hx H]].

Lemma read_val {A : Type} (a : list A) (i : Z) (x : A) :
  read a i = Val x -> 0 <= i /\ a !! Z.to_nat i = Some x.
Proof.
  unfold read. destruct (Z.ltb_spec i 0); [discriminate|].
  destruct (a !! Z.to_nat i); [|discriminate].
  intros [= ->]. split; [lia | reflexivity].
Qed.

Lemma write_val {A : Type} (a : list A) (i : Z) (x : A) (a' : list A) :
  write a i x = Val a' ->
  0 <= i < Z.of_nat (length a) /\ a' = <[Z.to_nat i := x]> a.
Proof.
  unfold write. destruct (Z.leb_spec 0 i), (Z.ltb_spec i (Z.of_nat (length a)));
    try discriminate.
  intros [= <-]. split; [lia | reflexivity].
Qed.



(** ** The evaluator *)

Section EvaluatorFacts.
Import PokerCore PokerEval Hands.

(** The three scenarios of the specification that the evaluator meets. *)
Example royal_flush_score :
  evaluate_7cards royal_flush = Val (Z.lor (Z.shiftl 8 12) (Z.shiftl 12 8)).
Proof. reflexivity. Qed.

Example quad_sevens_score :
  evaluate_7cards quad_sevens = Val (Z.lor (Z.lor (Z.shiftl 7 12) (Z.shiftl 5 8)) 2).
Proof. reflexivity. Qed.

Example kings_full_of_aces_score :
  evaluate_7cards kings_full_of_aces
  = Val (Z.lor (Z.lor (Z.shiftl 6 12) (Z.shiftl 11 8)) 12).
Proof. reflexivity. Qed.

(** The reference ranking on the same hands. *)
Example reference_categories :
  map (fun h => Reference.category (Reference.score7 h))
      [royal_flush; quad_sevens; kings_full_of_aces; aces_and_kings_trips;
       ace_high_flush; wheel_flush; ace_high; king_high]
  = [8; 7; 6; 6; 5; 8; 0; 0].
Proof. vm_compute. reflexivity. Qed.

(** A property checked on every index of a table holds at each index. *)
Lemma forall_masks (P : Z -> bool) :
  forallb P (seqZ 0 8192) = true ->
  forall mask, 0 <= mask < 8192 -> P mask = true.
Proof.
  intros Hall mask Hrange.
  rewrite forallb_forall in Hall.
  apply Hall, list_elem_of_In, elem_of_seqZ. lia.
Qed.

(** Whenever a five-card window is present, [get_highest_straight] stops
    at it with a non-negative shift, and agrees with [get_straight_high]. *)
Lemma get_highest_straight_window mask :
  0 <= mask < 8192 ->
  get_straight_high mask <> Val 3 ->
  get_highest_straight mask = get_straight_high mask /\
  Forall (fun k => 0 <= k) (get_highest_straight_shifts mask).
Proof.
  intros Hrange Hhigh.
  pose (is3 := fun r : Res Z => match r with Val 3 => true | _ => false end).
  pose (same := fun r1 r2 : Res Z =>
    match r1, r2 with Val a, Val b => a =? b | _, _ => false end).
  pose (P := fun m =>
    is3 (get_straight_high m)
    || same (get_highest_straight m) (get_straight_high m)
       && forallb (Z.leb 0) (get_highest_straight_shifts m)).
  assert (HP : P mask = true) by (apply forall_masks; [vm_compute; reflexivity | exact Hrange]).
  unfold P in HP.
  apply orb_prop in HP as [H3 | HP].
  - exfalso. apply Hhigh. destruct (get_straight_high mask) as [b|u]; [|discriminate H3].
    destruct b as [|p|p]; try discriminate H3.
    do 2 (destruct p as [p|p|]; try discriminate H3). reflexivity.
  - apply andb_prop in HP as [Hsame Hsh]. split.
    + destruct (get_highest_straight mask) as [a|u], (get_straight_high mask) as [b|v];
        try discriminate Hsame.
      apply Z.eqb_eq in Hsame. congruence.
    + apply Forall_forall. intros k Hk.
      rewrite forallb_forall in Hsh. apply Z.leb_le, Hsh, list_elem_of_In, Hk.
Qed.

(** On every mask that holds the wheel and no five-card window, the table
    builder reaches [i = 3] and shifts by [-1]. *)
Lemma get_highest_straight_wheel mask :
  0 <= mask < 8192 ->
  Z.land mask wheel_mask = wheel_mask ->
  get_straight_high mask = Val 3 ->
  get_highest_straight mask = Undef (NegativeShift (-1)) /\
  In (-1) (get_highest_straight_shifts mask).
Proof.
  intros Hrange Hwheel Hhigh.
  pose (is3 := fun r : Res Z => match r with Val 3 => true | _ => false end).
  pose (isneg := fun r : Res Z =>
    match r with Undef (NegativeShift k) => k =? -1 | _ => false end).
  pose (P := fun m =>
    implb ((Z.land m wheel_mask =? wheel_mask) && is3 (get_straight_high m))
          (isneg (get_highest_straight m)
           && existsb (Z.eqb (-1)) (get_highest_straight_shifts m))).
  assert (HP : P mask = true) by (apply forall_masks; [vm_compute; reflexivity | exact Hrange]).
  unfold P in HP. rewrite Hhigh in HP.
  apply Z.eqb_eq in Hwheel. rewrite Hwheel in HP.
  change (isneg (get_highest_straight mask)
          && existsb (Z.eqb (-1)) (get_highest_straight_shifts mask) = true) in HP.
  apply andb_prop in HP as [Hneg Hex]. split.
  - destruct (get_highest_straight mask) as [a|u]; [discriminate Hneg|].
    destruct u; try discriminate Hneg.
    apply Z.eqb_eq in Hneg. congruence.
  - apply existsb_exists in Hex as [k [Hin Hk]].
    apply Z.eqb_eq in Hk. subst k. exact Hin.
Qed.

(** The scan over the rank counts, property by property. *)
Lemma scan_loop_quads counts n : forall st,
  (forall r, 0 <= r < Z.of_nat n -> cnt counts r <> 4) ->
  quads (scan_loop n counts st) = quads st.
Proof.
  induction n as [|n IH]; intros st H; [reflexivity|].
  cbn [scan_loop]. rewrite IH by (intros r Hr; apply H; lia).
  unfold scan_step. destruct (Z.eqb_spec (cnt counts (Z.of_nat n)) 4) as [E|_].
  - exfalso. apply (H (Z.of_nat n)); [lia | exact E].
  - repeat match goal with |- context [if ?b then _ else _] => destruct b end; reflexivity.
Qed.

Lemma scan_loop_trips_kept counts n : forall st,
  trips st <> -1 -> trips (scan_loop n counts st) = trips st.
Proof.
  induction n as [|n IH]; intros st H; [reflexivity|].
  cbn [scan_loop].
  assert (Hs : trips (scan_step counts (Z.of_nat n) st) = trips st).
  { unfold scan_step. destruct (Z.eqb_spec (trips st) (-1)) as [E|_]; [contradiction|].
    repeat match goal with |- context [if ?b then _ else _] => destruct b end; reflexivity. }
  rewrite IH; [exact Hs | congruence].
Qed.

Lemma scan_loop_trips counts t n : forall st,
  trips st = -1 -> 0 <= t < Z.of_nat n -> cnt counts t = 3 ->
  (forall r, t < r < Z.of_nat n -> cnt counts r <> 3) ->
  trips (scan_loop n counts st) = t.
Proof.
  induction n as [|n IH]; intros st H Ht Hc Habove; [lia|].
  cbn [scan_loop]. destruct (Z.eq_dec t (Z.of_nat n)) as [<-|Hne].
  - rewrite scan_loop_trips_kept.
    + unfold scan_step. rewrite Hc, H. reflexivity.
    + unfold scan_step. rewrite Hc, H. cbn. lia.
  - apply IH; [|lia|exact Hc|intros r Hr; apply Habove; lia].
    unfold scan_step. destruct (Z.eqb_spec (cnt counts (Z.of_nat n)) 3) as [E|_].
    + exfalso. apply (Habove (Z.of_nat n)); [lia | exact E].
    + repeat match goal with |- context [if ?b then _ else _] => destruct b end;
        exact H.
Qed.

Lemma scan_loop_pairs_kept counts n : forall st,
  1 <= pair_count st ->
  pairs0 (scan_loop n counts st) = pairs0 st.
Proof.
  induction n as [|n IH]; intros st H; [reflexivity|].
  cbn [scan_loop].
  assert (Hs : pairs0 (scan_step counts (Z.of_nat n) st) = pairs0 st
               /\ 1 <= pair_count (scan_step counts (Z.of_nat n) st)).
  { unfold scan_step.
    repeat match goal with |- context [if ?b then _ else _] => destruct b eqn:? end;
      cbn; split; try reflexivity; try lia.
    all: destruct (Z.eqb_spec (pair_count st) 0); [lia | reflexivity]. }
  destruct Hs as [Hs1 Hs2]. rewrite IH; [exact Hs1 | exact Hs2].
Qed.

Lemma scan_loop_pairs counts p n : forall st,
  pair_count st = 0 -> 0 <= p < Z.of_nat n -> cnt counts p = 2 ->
  (forall r, p < r < Z.of_nat n -> cnt counts r <> 2) ->
  pairs0 (scan_loop n counts st) = p.
Proof.
  induction n as [|n IH]; intros st H Hp Hc Habove; [lia|].
  cbn [scan_loop]. destruct (Z.eq_dec p (Z.of_nat n)) as [<-|Hne].
  - rewrite scan_loop_pairs_kept; unfold scan_step; rewrite Hc, H; cbn; [reflexivity | lia].
  - apply IH; [|lia|exact Hc|intros r Hr; apply Habove; lia].
    unfold scan_step. destruct (Z.eqb_spec (cnt counts (Z.of_nat n)) 2) as [E|_].
    + exfalso. apply (Habove (Z.of_nat n)); [lia | exact E].
    + repeat match goal with |- context [if ?b then _ else _] => destruct b end;
        exact H.
Qed.

Lemma second_trips_loop_none counts t pair n :
  (forall r, 0 <= r < Z.of_nat n -> cnt counts r = 3 -> r = t) ->
  second_trips_loop n counts t pair = pair.
Proof.
  induction n as [|n IH]; intros H; [reflexivity|].
  cbn [second_trips_loop].
  destruct (Z.eqb_spec (cnt counts (Z.of_nat n)) 3) as [E|_]; cbn [andb].
  - rewrite (H (Z.of_nat n) ltac:(lia) E), Z.eqb_refl. cbn [negb].
    apply IH. intros r Hr. apply H. lia.
  - apply IH. intros r Hr. apply H. lia.
Qed.

(** One set of trips and at least one pair: a full house of the trips over
    the highest pair. *)
Lemma trips_and_pair_full_house counts mask t p :
  0 <= t < 13 -> 0 <= p < 13 ->
  cnt counts t = 3 -> cnt counts p = 2 ->
  (forall r, 0 <= r < 13 -> cnt counts r <> 4) ->
  (forall r, 0 <= r < 13 -> cnt counts r = 3 -> r = t) ->
  (forall r, p < r < 13 -> cnt counts r <> 2) ->
  evaluate_non_flush counts mask
  = Val (Z.lor (Z.lor (Z.shiftl RANK_FULL_HOUSE 12) (Z.shiftl t 8)) p).
Proof.
  intros Ht Hp Hct Hcp Hq Hone Hhigh. unfold evaluate_non_flush.
  rewrite (scan_loop_quads counts 13 scan_init) by (intros r Hr; apply Hq; lia).
  rewrite (scan_loop_trips counts t 13 scan_init eq_refl) by
    (try lia; try exact Hct; intros r Hr E; specialize (Hone r ltac:(lia) E); lia).
  rewrite (scan_loop_pairs counts p 13 scan_init eq_refl) by
    (try lia; try exact Hcp; intros r Hr; apply Hhigh; lia).
  cbn [quads scan_init]. cbn [Z.eqb negb].
  destruct (Z.eqb_spec t (-1)); [lia|]. destruct (Z.eqb_spec p (-1)); [lia|].
  cbn [negb andb orb].
  rewrite second_trips_loop_none by (intros r Hr; apply Hone; lia).
  reflexivity.
Qed.

End EvaluatorFacts.

(** C1.  The evaluator does not order hands as standard rules do.  A royal
    flush beats an ace-high flush, yet [evaluate_7cards] scores the flush
    higher: the fourth rank of [get_top_cards] lands on the category bits
    and the fifth is cut off by the 16-bit table cell.  An ace-high hand
    beats a king-high hand, yet both score 0: with seven distinct ranks
    the index of [unique5_lookup] has seven bits set, and only the cells
    with five are ever filled. *)
Theorem evaluate_7cards_order_differs_from_rules :
  Reference.beats Hands.royal_flush Hands.ace_high_flush = true /\
  PokerEval.evaluate_7cards Hands.royal_flush = Val 35840 /\
  PokerEval.evaluate_7cards Hands.ace_high_flush = Val 55996 /\
  PokerEval.category 55996 = 13 /\
  Reference.beats Hands.ace_high Hands.king_high = true /\
  PokerEval.evaluate_7cards Hands.ace_high = Val 0 /\
  PokerEval.evaluate_7cards Hands.king_high = Val 0.
Proof. repeat split; vm_compute; reflexivity. Qed.

(** C6.  Two sets of trips are not scored as a full house.  With aces and
    kings three times each and no pair, [pair_count] stays 0 and
    [pairs[0]] stays -1, so the guard of the full-house branch fails before
    the search for the second trips is reached; the hand is scored as
    three aces with king and two as kickers. *)
Theorem two_trips_scored_as_three_of_a_kind :
  PokerEval.evaluate_7cards Hands.aces_and_kings_trips
  = Val (Z.lor (Z.lor (Z.shiftl PokerEval.RANK_THREE_OF_KIND 12) (Z.shiftl 12 8)) 11) /\
  PokerEval.category 15371 = PokerEval.RANK_THREE_OF_KIND /\
  Reference.category (Reference.score7 Hands.aces_and_kings_trips) = 6.
Proof. repeat split; vm_compute; reflexivity. Qed.

(** C7.  Building the flush table, [get_highest_straight] runs [i] down to
    3 and so shifts by [3 - 4 = -1] on the wheel mask: the cell of the
    wheel, and a wheel straight flush with it, have no defined value.  The
    evaluator's own [get_straight_high] stops at [i = 4] and answers 3. *)
Theorem get_highest_straight_shifts_by_minus_one :
  PokerEval.get_highest_straight_shifts Hands.wheel_mask
  = [8; 7; 6; 5; 4; 3; 2; 1; 0; -1] /\
  PokerEval.get_highest_straight Hands.wheel_mask = Undef (NegativeShift (-1)) /\
  PokerEval.flush_lookup Hands.wheel_mask = Undef (NegativeShift (-1)) /\
  PokerEval.evaluate_7cards Hands.wheel_flush = Undef (NegativeShift (-1)) /\
  PokerEval.get_straight_high Hands.wheel_mask = Val 3.
Proof. repeat split; vm_compute; reflexivity. Qed.

(** ** The EQR layer *)

(** The scenario has SPR [100 / 10 = 10], which lies in the band
    [7 <= spr < 13] of factor 1.00; the factor 0.90 belongs to [spr >= 25]. *)
Example scenario_stack_factor :
  EQRCalculator.StackDepthAdjustment_calculate (100 / 10)%float = 1.00%float /\
  EQRCalculator.StackDepthAdjustment_calculate 25%float = 0.90%float.
Proof. split; vm_compute; reflexivity. Qed.

(** C9, as stated, fails: the value returned is not the stated product; it
    lies above 0.74 while the stated product lies below 0.68. *)
Lemma eqr_scenario_is_not_the_stated_product :
  Scenario.eqr_value <> Val Scenario.eqr_stated /\
  (exists v, Scenario.eqr_value = Val v /\ (0.74 <? v)%float = true) /\
  (Scenario.eqr_stated <? 0.68)%float = true.
Proof.
  split; [|split].
  - intros H.
    apply (f_equal (fun r => match r with
                             | Val v => (v <? 0.7)%float
                             | Undef _ => false
                             end)) in H.
    vm_compute in H. discriminate H.
  - eexists. split; [vm_compute; reflexivity|]. vm_compute. reflexivity.
  - vm_compute. reflexivity.
Qed.

(** C9, amended: with the stack factor 1.00 of SPR 10 the result is
    [0.60 * 1.18 * 1.00 * 1.08 * 1.0 * (1.05 - 0.5 * 0.15)], evaluated in
    binary64 from left to right; it is within [1e-15] of 0.745524. *)
Theorem eqr_scenario_value :
  Scenario.eqr_result
  = Val {| EQRCalculator.raw_equity := 0.60;
           EQRCalculator.eqr :=
             0.60 * 1.18 * 1.00 * 1.08 * 1.0 * (1.05 - 0.5 * 0.15);
           EQRCalculator.position_factor := 1.18;
           EQRCalculator.stack_factor := 1.00;
           EQRCalculator.board_factor := 1.08;
           EQRCalculator.multiway_factor := 1.0;
           EQRCalculator.skill_factor := 1.05 - 0.5 * 0.15 |}%float /\
  Scenario.eqr_value = Val (0.60 * 1.18 * 1.00 * 1.08 * 1.0 * (1.05 - 0.5 * 0.15))%float /\
  (0.745524 - 1e-15 <? 0.60 * 1.18 * 1.00 * 1.08 * 1.0 * (1.05 - 0.5 * 0.15))%float = true /\
  (0.60 * 1.18 * 1.00 * 1.08 * 1.0 * (1.05 - 0.5 * 0.15) <? 0.745524 + 1e-15)%float = true.
Proof. repeat split; vm_compute; reflexivity. Qed.

(** ** Binary64 facts used by the solver's invariants *)

Section FloatFacts.

Lemma nonneg_SF x : nonneg x <-> SFnonneg (Prim2SF x) = true.
Proof. unfold nonneg, SFnonneg. rewrite leb_spec. reflexivity. Qed.

Lemma nonneg_zero : nonneg 0.
Proof. reflexivity. Qed.

(** Shifting a non-negative mantissa right keeps it non-negative. *)
Lemma shr_1_nonneg mrs : 0 <= shr_m mrs -> 0 <= shr_m (shr_1 mrs).
Proof.
  destruct mrs as [m r s]. simpl.
  destruct m as [|p|p]; [|destruct p|destruct p]; simpl; lia.
Qed.

Lemma iter_pos_shr_1_nonneg p mrs :
  0 <= shr_m mrs -> 0 <= shr_m (SpecFloat.iter_pos shr_1 p mrs).
Proof.
  revert mrs. induction p as [p IH|p IH|]; intros mrs H; simpl.
  - apply IH, IH, shr_1_nonneg, H.
  - apply IH, IH, H.
  - apply shr_1_nonneg, H.
Qed.

Lemma shr_fexp_nonneg prec emax m e l :
  0 <= m -> 0 <= shr_m (fst (shr_fexp prec emax m e l)).
Proof.
  intros Hm. unfold shr_fexp, shr.
  assert (H0 : 0 <= shr_m (shr_record_of_loc m l))
    by (destruct l as [|[]]; exact Hm).
  destruct (fexp prec emax (Zdigits2 m + e) - e) as [|p|p]; simpl; try exact H0.
  apply iter_pos_shr_1_nonneg, H0.
Qed.

Lemma round_nearest_even_nonneg m l : 0 <= m -> 0 <= round_nearest_even m l.
Proof.
  intros Hm. destruct l as [|[]]; simpl; try lia.
  destruct (Z.even m); lia.
Qed.

(** Rounding a non-negative mantissa with a positive sign never yields a
    negative value or NaN. *)
Lemma binary_round_aux_nonneg prec emax m e l :
  0 <= m -> SFnonneg (binary_round_aux prec emax false m e l) = true.
Proof.
  intros Hm. unfold binary_round_aux.
  pose proof (shr_fexp_nonneg prec emax m e l Hm) as H1.
  destruct (shr_fexp prec emax m e l) as [mrs' e']. simpl in H1.
  pose proof (shr_fexp_nonneg prec emax _ e' loc_Exact
                (round_nearest_even_nonneg _ (loc_of_shr_record mrs') H1)) as H2.
  destruct (shr_fexp prec emax _ e' loc_Exact) as [mrs'' e'']. simpl in H2.
  destruct (shr_m mrs'') as [|p|p]; [reflexivity| |lia].
  destruct (e'' <=? emax - prec); reflexivity.
Qed.

(** A non-negative value times a positive finite constant. *)
Lemma mul_nonneg x c m e :
  Prim2SF c = S754_finite false m e -> nonneg x -> nonneg (x * c).
Proof.
  intros Hc Hx. apply nonneg_SF in Hx. apply nonneg_SF.
  rewrite mul_spec, Hc. unfold SF64mul, SFmul.
  destruct (Prim2SF x) as [s|s| |s mx ex]; try discriminate Hx.
  - reflexivity.
  - destruct s; [discriminate Hx | reflexivity].
  - destruct s; [discriminate Hx |]. apply binary_round_aux_nonneg. lia.
Qed.

Lemma ltb_leb x y : (x <? y)%float = true -> (x <=? y)%float = true.
Proof.
  rewrite ltb_spec, leb_spec. unfold SFltb, SFleb.
  destruct (SFcompare (Prim2SF x) (Prim2SF y)) as [[]|]; congruence.
Qed.

(** [std::max(0.0, x)] is never negative and never NaN. *)
Lemma std_max_nonneg x : nonneg (std_max 0 x).
Proof.
  unfold std_max. destruct (0 <? x)%float eqn:E.
  - apply ltb_leb, E.
  - apply nonneg_zero.
Qed.

(** Integers below [2^53] convert to binary64 without rounding. *)
Lemma digits2_iter_xO p k :
  digits2_pos (Pos.iter xO p k) = (digits2_pos p + k)%positive.
Proof.
  induction k as [|k IH] using Pos.peano_ind.
  - cbn. lia.
  - rewrite Pos.iter_succ. cbn [digits2_pos]. rewrite IH. lia.
Qed.

Lemma digits2_bound p : forall k, 0 <= k -> Zpos p < 2 ^ k -> Zpos (digits2_pos p) <= k.
Proof.
  induction p as [p IH|p IH|]; intros k Hk Hp.
  - assert (k <> 0) by (intros ->; cbn in Hp; lia).
    replace k with (Z.succ (k - 1)) in Hp by lia. rewrite Z.pow_succ_r in Hp by lia.
    cbn [digits2_pos]. specialize (IH (k - 1)). lia.
  - assert (k <> 0) by (intros ->; cbn in Hp; lia).
    replace k with (Z.succ (k - 1)) in Hp by lia. rewrite Z.pow_succ_r in Hp by lia.
    cbn [digits2_pos]. specialize (IH (k - 1)). lia.
  - assert (k <> 0) by (intros ->; cbn in Hp; lia). cbn. lia.
Qed.

Lemma binary_round_aux_exact m e :
  Zpos (digits2_pos m) = 53 -> -1074 <= e <= 971 ->
  binary_round_aux prec emax false (Zpos m) e loc_Exact = S754_finite false m e.
Proof.
  intros Hd He. unfold binary_round_aux, shr_fexp.
  cbn [Zdigits2 shr_record_of_loc]. rewrite Hd.
  assert (Hf : fexp prec emax (53 + e) - e = 0).
  { unfold fexp, SpecFloat.emin, prec, emax. lia. }
  rewrite Hf. cbn [shr shr_m loc_of_shr_record round_nearest_even Zdigits2 shr_record_of_loc].
  rewrite Hd, Hf. cbn [shr shr_m].
  destruct (Z.leb_spec e (emax - prec)) as [_|H]; [reflexivity|].
  unfold emax, prec in H. lia.
Qed.

Lemma binary_normalize_small p :
  Zpos p < 2 ^ 53 ->
  exists m e, binary_normalize prec emax (Zpos p) 0 false = S754_finite false m e.
Proof.
  intros Hp. pose proof (digits2_bound p 53 ltac:(lia) Hp) as Hd.
  unfold binary_normalize, binary_round, shl_align.
  assert (Hf : fexp prec emax (Zpos (digits2_pos p) + 0) = Zpos (digits2_pos p) - 53).
  { unfold fexp, SpecFloat.emin, prec, emax. lia. }
  rewrite Hf.
  destruct (Zpos (digits2_pos p) - 53 - 0) as [|k|k] eqn:Ek; try lia.
  - do 2 eexists. apply binary_round_aux_exact; lia.
  - do 2 eexists. apply binary_round_aux_exact; [|lia].
    rewrite digits2_iter_xO. lia.
Qed.

Lemma double_of_int_finite v :
  1 <= v < 2 ^ 53 ->
  exists m e, Prim2SF (double_of_int v) = S754_finite false m e.
Proof.
  intros Hv. destruct v as [|p|p]; try lia.
  unfold double_of_int. rewrite of_uint63_spec.
  change (Uint63Axioms.to_Z (Uint63.of_Z (Zpos p))) with (Uint63.to_Z (Uint63.of_Z (Zpos p))).
  rewrite Uint63.of_Z_spec.
  rewrite Z.mod_small.
  - apply binary_normalize_small. lia.
  - assert (Hw : Uint63.wB = 9223372036854775808) by reflexivity.
    rewrite Hw. change (2 ^ 53) with 9007199254740992 in Hv. lia.
Qed.
(** Quotient, square root, product and sum keep what is non-negative so. *)
Lemma SFdiv_nonneg X m e :
  SFnonneg X = true -> SFnonneg (SFdiv prec emax X (S754_finite false m e)) = true.
Proof.
  intros HX. destruct X as [s|s| |s mx ex]; try discriminate HX.
  - reflexivity.
  - destruct s; [discriminate HX | reflexivity].
  - destruct s; [discriminate HX |].
    unfold SFdiv, SFdiv_core_binary.
    set (s := ex - e - _).
    set (m' := match s with Z0 => Zpos mx | Zpos _ => Z.shiftl (Zpos mx) s | Zneg _ => 0 end).
    assert (Hm' : 0 <= m').
    { subst m'. destruct s; try lia. apply Z.shiftl_nonneg. lia. }
    pose proof (Z.div_pos m' (Zpos m) Hm' ltac:(lia)) as Hq.
    unfold Z.div in Hq. destruct (Z.div_eucl m' (Zpos m)) as [q r]. cbn in Hq.
    apply binary_round_aux_nonneg, Hq.
Qed.

Lemma SFsqrt_nonneg X : SFnonneg X = true -> SFnonneg (SFsqrt prec emax X) = true.
Proof.
  intros HX. destruct X as [s|s| |s mx ex]; try discriminate HX.
  - reflexivity.
  - destruct s; [discriminate HX | reflexivity].
  - destruct s; [discriminate HX |].
    unfold SFsqrt, SFsqrt_core_binary.
    set (m' := match _ with Z0 => Zpos mx | Zpos _ => _ | Zneg _ => 0 end).
    pose proof (Z.sqrtrem_sqrt m') as Hq. pose proof (Z.sqrt_nonneg m') as Hs.
    destruct (Z.sqrtrem m') as [q r]. cbn in Hq.
    apply binary_round_aux_nonneg. lia.
Qed.

Lemma SFmul_nonneg_l X m e :
  SFnonneg X = true -> SFnonneg (SFmul prec emax (S754_finite false m e) X) = true.
Proof.
  intros HX. destruct X as [s|s| |s mx ex]; try discriminate HX.
  - reflexivity.
  - destruct s; [discriminate HX | reflexivity].
  - destruct s; [discriminate HX |]. apply binary_round_aux_nonneg. lia.
Qed.

Lemma SFadd_zero_nonneg Y :
  SFnonneg Y = true -> SFnonneg (SFadd prec emax (S754_zero false) Y) = true.
Proof.
  intros HY. destruct Y as [s|s| |s my ey]; try discriminate HY.
  - destruct s; reflexivity.
  - exact HY.
  - exact HY.
Qed.

Lemma SFnonneg_above_neg_infinity Y :
  SFnonneg Y = true -> SFltb (S754_infinity true) Y = true.
Proof.
  intros HY. destruct Y as [s|s| |s my ey]; try discriminate HY.
  - reflexivity.
  - destruct s; [discriminate HY | reflexivity].
  - reflexivity.
Qed.

(** The UCB1 expression on a node whose value total is zero: it is above
    minus infinity as soon as the logarithm is not negative. *)
Lemma ucb1_expression_above_neg_infinity (l : float) v :
  1 <= v < 2 ^ 53 -> nonneg l ->
  (neg_infinity <? 0 / double_of_int v
                   + MCTSEngine.EXPLORATION_CONSTANT * sqrt (l / double_of_int v))%float = true.
Proof.
  intros Hv Hl. destruct (double_of_int_finite v Hv) as (m & e & Hd).
  apply nonneg_SF in Hl.
  rewrite ltb_spec, add_spec, mul_spec, sqrt_spec, !div_spec, Hd.
  apply SFnonneg_above_neg_infinity.
  change (Prim2SF 0) with (S754_zero false).
  change (SF64div (S754_zero false) (S754_finite false m e)) with (S754_zero false).
  apply SFadd_zero_nonneg.
  assert (Hc : Prim2SF MCTSEngine.EXPLORATION_CONSTANT
               = S754_finite false 6350075474592399 (-52)) by (vm_compute; reflexivity).
  rewrite Hc. apply SFmul_nonneg_l, SFsqrt_nonneg, SFdiv_nonneg, Hl.
Qed.
End FloatFacts.

(** ** The CFR solver *)

Section SolverFacts.
Import CFREngine.

(** With the hooks of the source no node is terminal, so the recursion
    exhausts any depth. *)
Lemma cfr_recursive_never_returns fuel :
  forall depth player p q s, cfr_recursive fuel depth player p q s = None.
Proof.
  induction fuel as [|fuel IH]; intros depth player p q s; [reflexivity|].
  cbn [cfr_recursive]. unfold is_terminal, is_chance_node, get_current_player.
  destruct (0 =? player).
  - unfold handle_player_node, get_legal_actions.
    destruct (info_get_strategy _ _) as [strategy i].
    cbn [player_actions]. rewrite IH. reflexivity.
  - unfold handle_opponent_node, get_legal_actions.
    destruct (info_get_strategy _ _) as [strategy i].
    cbn [opponent_actions]. rewrite IH. reflexivity.
Qed.

Lemma train_step_never_returns fuel s : train_step fuel s = None.
Proof.
  unfold train_step. cbn [players_loop].
  rewrite cfr_recursive_never_returns. reflexivity.
Qed.

Lemma train_positive_never_returns fuel n s :
  0 < n -> train fuel n s = None.
Proof.
  intros Hn. unfold train.
  destruct (Z.to_nat n) as [|k] eqn:Ek; [lia|].
  cbn [train_loop]. rewrite train_step_never_returns. reflexivity.
Qed.

Lemma touch_nonneg m a :
  map_Forall (fun _ r => nonneg r) m ->
  map_Forall (fun (_ : Z) r => nonneg r) (touch m a).
Proof.
  intros H. unfold touch. destruct (m !! a); [exact H|].
  apply map_Forall_insert_2; [apply nonneg_zero | exact H].
Qed.

Lemma clip_loop_nonneg legal_actions : forall rs strategy total,
  map_Forall (fun (_ : Z) r => nonneg r) rs ->
  map_Forall (fun (_ : Z) r => nonneg r)
    (fst (fst (fold_left clip_step legal_actions (rs, strategy, total)))).
Proof.
  induction legal_actions as [|a rest IH]; intros rs strategy total H; [exact H|].
  cbn [fold_left clip_step]. apply IH, touch_nonneg, H.
Qed.

Lemma info_get_strategy_nonneg i legal_actions :
  regrets_nonneg i -> regrets_nonneg (snd (info_get_strategy i legal_actions)).
Proof.
  intros H. unfold info_get_strategy.
  pose proof (clip_loop_nonneg legal_actions (regret_sum i) ∅ 0%float H) as Hloop.
  destruct (fold_left clip_step legal_actions _) as [[rs strategy] total].
  destruct (0 <? total)%float; exact Hloop.
Qed.

Lemma update_regrets_nonneg regrets weight i :
  regrets_nonneg i -> regrets_nonneg (update_regrets regrets weight i).
Proof.
  intros H. unfold regrets_nonneg, update_regrets. cbn [regret_sum].
  apply (map_fold_weak_ind
           (fun rs (_ : gmap Z float) => map_Forall (fun (_ : Z) r => nonneg r) rs)).
  - exact H.
  - intros action regret m rs _ Hrs. unfold update_regret.
    apply map_Forall_insert_2; [apply std_max_nonneg | exact Hrs].
Qed.

Lemma discount_nonneg i :
  regrets_nonneg i ->
  regrets_nonneg (discount_info_set (discount_alpha new_solver)
                                    (discount_beta new_solver) i).
Proof.
  intros H. unfold regrets_nonneg, discount_info_set. cbn [regret_sum].
  apply map_Forall_fmap. intros a r Har. cbn.
  eapply mul_nonneg; [vm_compute; reflexivity | exact (H a r Har)].
Qed.

Lemma apply_op_nonneg i op : regrets_nonneg i -> regrets_nonneg (apply_op i op).
Proof.
  intros H. destruct op; cbn [apply_op].
  - apply update_regrets_nonneg, H.
  - apply discount_nonneg, H.
  - exact H.
  - apply info_get_strategy_nonneg, H.
  - unfold get_average_strategy.
    destruct (fold_left sum_step _ _) as [ss total].
    destruct (0 <? total)%float; exact H.
  - exact H.
Qed.

Lemma fold_ops_nonneg ops : forall i,
  regrets_nonneg i -> regrets_nonneg (fold_left apply_op ops i).
Proof.
  induction ops as [|op ops IH]; intros i H; [exact H|].
  cbn [fold_left]. apply IH, apply_op_nonneg, H.
Qed.

(** The uniform strategy gives every listed action the same weight and
    nothing else any. *)
Lemma uniform_loop_lookup u legal_actions : forall m a,
  fold_left (uniform_step u) legal_actions m !! a
  = if bool_decide (a ∈ legal_actions) then Some u else m !! a.
Proof.
  induction legal_actions as [|b rest IH]; intros m a; cbn [fold_left].
  - reflexivity.
  - rewrite IH. unfold uniform_step.
    destruct (decide (a = b)) as [->|Hne].
    + rewrite lookup_insert_eq.
      rewrite (bool_decide_eq_true_2 (b ∈ b :: rest)) by left.
      destruct (bool_decide (b ∈ rest)); reflexivity.
    + rewrite lookup_insert_ne by congruence.
      destruct (decide (a ∈ rest)) as [Hin|Hnin].
      * rewrite !bool_decide_eq_true_2; [reflexivity | by right | exact Hin].
      * rewrite !bool_decide_eq_false_2; [reflexivity | | exact Hnin].
        intros Hin. apply elem_of_cons in Hin as [?|?]; contradiction.
Qed.

End SolverFacts.

(** C4, as stated, fails already for one iteration: whatever recursion
    depth is allowed, [train(1)] on a fresh solver has not returned. *)
Lemma train_one_iteration_never_returns :
  ~ exists fuel s, CFREngine.train fuel 1 CFREngine.new_solver = Some s.
Proof.
  intros [fuel [s H]].
  rewrite train_positive_never_returns in H by lia. discriminate H.
Qed.

(** C4, amended: [train(n)] returns, leaving the solver as it was, exactly
    when [n <= 0]; for [n >= 1] the first traversal recurses without end,
    since [is_terminal] answers false at every depth. *)
Theorem train_returns_iff_no_iteration (n : Z) (fuel : nat) (s : CFREngine.CFRSolver) :
  CFREngine.train fuel n s = if n <=? 0 then Some s else None.
Proof.
  unfold CFREngine.train. destruct (Z.leb_spec n 0) as [Hle|Hgt].
  - replace (Z.to_nat n) with 0%nat by lia. reflexivity.
  - apply train_positive_never_returns, Hgt.
Qed.

(** C5.  Take an information set whose stored regrets compare as at least
    zero, as the empty set the solver creates does.  Whatever operations it
    then goes through, every regret it stores still compares as at least
    zero, so it is neither negative nor NaN.  The statement is about the
    values between operations; inside [update_regrets] a sum is stored for
    an instant before it is clipped. *)
Theorem stored_regrets_nonnegative (i0 : CFREngine.InfoSet)
    (ops : list CFREngine.info_op) (a : Z) (r : float) :
  CFREngine.regrets_nonneg i0 ->
  CFREngine.regret_sum (fold_left CFREngine.apply_op ops i0) !! a = Some r ->
  (0 <=? r)%float = true.
Proof.
  intros H0 H. exact (fold_ops_nonneg ops i0 H0 a r H).
Qed.

Lemma stored_regrets_nonnegative_witness :
  CFREngine.regrets_nonneg CFREngine.new_info_set /\
  CFREngine.regret_sum
    (CFREngine.run_ops
       [CFREngine.OpGetStrategy [0; 1];
        CFREngine.OpUpdateRegrets {[0 := 1.5%float; 1 := (-2)%float]} 1%float;
        CFREngine.OpDiscountRegrets]) !! 0 = Some 1%float /\
  (0 <=? 1)%float = true.
Proof.
  assert (Hnew : CFREngine.regrets_nonneg CFREngine.new_info_set).
  { intros k x Hk. cbn in Hk. rewrite lookup_empty in Hk. discriminate Hk. }
  split; [exact Hnew|]. split; [vm_compute; reflexivity|].
  apply (stored_regrets_nonnegative CFREngine.new_info_set
           [CFREngine.OpGetStrategy [0; 1];
            CFREngine.OpUpdateRegrets {[0 := 1.5%float; 1 := (-2)%float]} 1%float;
            CFREngine.OpDiscountRegrets] 0 1%float Hnew).
  vm_compute. reflexivity.
Defined.

(** C10.  Asking for the strategy of a key the solver has never seen gives
    the uniform distribution over the listed actions and leaves the solver
    exactly as it was: the key is still absent afterwards. *)
Theorem get_strategy_unknown_key (s : CFREngine.CFRSolver) (key : string)
    (legal_actions : list Z) :
  CFREngine.info_sets s !! key = None ->
  let '(strategy, s') := CFREngine.get_strategy s key legal_actions in
  s' = s /\
  CFREngine.info_sets s' !! key = None /\
  (forall a, a ∈ legal_actions ->
     strategy !! a = Some (1 / double_of_int (Z.of_nat (length legal_actions)))%float) /\
  (forall a, a ∉ legal_actions -> strategy !! a = None).
Proof.
  intros Hkey. unfold CFREngine.get_strategy. rewrite Hkey.
  split; [reflexivity|]. split; [exact Hkey|].
  unfold CFREngine.uniform_strategy. split; intros a Ha; rewrite uniform_loop_lookup.
  - rewrite bool_decide_eq_true_2 by exact Ha. reflexivity.
  - rewrite bool_decide_eq_false_2 by exact Ha. apply lookup_empty.
Qed.

Lemma get_strategy_unknown_key_witness :
  let '(strategy, s') := CFREngine.get_strategy CFREngine.new_solver "flop" [0; 1; 2] in
  s' = CFREngine.new_solver /\
  CFREngine.info_sets s' !! "flop" = None /\
  (forall a, a ∈ [0; 1; 2] ->
     strategy !! a = Some (1 / double_of_int (Z.of_nat (length [0; 1; 2])))%float) /\
  (forall a, a ∉ [0; 1; 2] -> strategy !! a = None).
Proof.
  apply (get_strategy_unknown_key CFREngine.new_solver "flop" [0; 1; 2]).
  reflexivity.
Defined.

(** ** The equity simulator *)

Section SimulatorFacts.
Import PokerCore PokerEval MonteCarloEngine.

Lemma opp_score_shift deck pos fb k :
  opp_score deck (pos + 2) fb k = opp_score deck pos fb (k + 1).
Proof.
  unfold opp_score.
  replace (pos + 2 + 2 * k) with (pos + 2 * (k + 1)) by lia.
  reflexivity.
Qed.

Lemma exceeds_step deck pos fb n hero sc0 :
  0 <= n ->
  opp_score deck pos fb 0 = Val sc0 ->
  some_opponent_exceeds deck pos fb (n + 1) hero
  <-> hero < sc0 \/ some_opponent_exceeds deck (pos + 2) fb n hero.
Proof.
  intros Hn H0. split.
  - intros (k & sc & Hk & Hsc & Hlt).
    destruct (decide (k = 0)) as [->|Hne].
    + left. congruence.
    + right. exists (k - 1), sc. rewrite opp_score_shift.
      replace (k - 1 + 1) with k by lia. repeat split; [lia | lia | exact Hsc | exact Hlt].
  - intros [Hlt | (k & sc & Hk & Hsc & Hlt)].
    + exists 0, sc0. repeat split; [lia | lia | exact H0 | exact Hlt].
    + exists (k + 1), sc. rewrite <- opp_score_shift.
      repeat split; [lia | lia | exact Hsc | exact Hlt].
Qed.

Lemma equals_step deck pos fb n hero sc0 :
  0 <= n ->
  opp_score deck pos fb 0 = Val sc0 ->
  some_opponent_equals deck pos fb (n + 1) hero
  <-> sc0 = hero \/ some_opponent_equals deck (pos + 2) fb n hero.
Proof.
  intros Hn H0. split.
  - intros (k & Hk & Hsc).
    destruct (decide (k = 0)) as [->|Hne].
    + left. congruence.
    + right. exists (k - 1). rewrite opp_score_shift.
      replace (k - 1 + 1) with k by lia. split; [lia | exact Hsc].
  - intros [-> | (k & Hk & Hsc)].
    + exists 0. split; [lia | exact H0].
    + exists (k + 1). rewrite <- opp_score_shift. split; [lia | exact Hsc].
Qed.

(** What the loop over opponents computes, [tied0] being the flag on entry. *)
Lemma opponents_loop_spec n : forall deck pos fb hero tied0 won tied,
  opponents_loop n deck pos fb hero tied0 = Val (won, tied) ->
  (won = false <-> some_opponent_exceeds deck pos fb (Z.of_nat n) hero) /\
  (won = true ->
   (tied = true <-> tied0 = true \/ some_opponent_equals deck pos fb (Z.of_nat n) hero)).
Proof.
  induction n as [|n IH]; intros deck pos fb hero tied0 won tied H.
  - cbn in H. injection H as <- <-. split.
    + split; [discriminate|]. intros (k & sc & Hk & _). lia.
    + intros _. split; [tauto|]. intros [Ht | (k & Hk & _)]; [exact Ht | lia].
  - cbn [opponents_loop] in H.
    inv_bind H as o0 Ho0. inv_bind H as o1 Ho1. inv_bind H as sc Hsc.
    assert (H0 : opp_score deck pos fb 0 = Val sc).
    { unfold opp_score. replace (pos + 2 * 0) with pos by lia.
      rewrite Ho0. cbn. rewrite Ho1. cbn. exact Hsc. }
    replace (Z.of_nat (S n)) with (Z.of_nat n + 1) by lia.
    rewrite (exceeds_step deck pos fb (Z.of_nat n) hero sc) by (lia || exact H0).
    rewrite (equals_step deck pos fb (Z.of_nat n) hero sc) by (lia || exact H0).
    destruct (Z.ltb_spec hero sc) as [Hlt|Hge].
    + injection H as <- <-. split; [tauto | discriminate].
    + destruct (Z.eqb_spec sc hero) as [Heq|Hne];
        apply IH in H; destruct H as [Hex Hti]; split.
      * rewrite Hex. split; [tauto | intros [?|?]; [lia | assumption]].
      * intros Hw. rewrite (Hti Hw). tauto.
      * rewrite Hex. split; [tauto | intros [?|?]; [lia | assumption]].
      * intros Hw. rewrite (Hti Hw). split; [tauto|].
        intros [?|[?|?]]; [tauto | contradiction | tauto].
Qed.

(** A showdown is a loss iff some opponent exceeds the hero, a tie iff none
    does and one equals the hero, and a win otherwise. *)
Lemma showdown_spec hero_card1 hero_card2 board board_count opponents deck won tied :
  showdown hero_card1 hero_card2 board board_count opponents deck = Val (won, tied) ->
  exists full_board deck_pos hero_score,
    complete_board board board_count deck = Val (full_board, deck_pos) /\
    evaluate_7cards_perfect (hero_card1 :: hero_card2 :: full_board) = Val hero_score /\
    (won = false
     <-> some_opponent_exceeds deck deck_pos full_board opponents hero_score) /\
    (won = true /\ tied = true
     <-> ~ some_opponent_exceeds deck deck_pos full_board opponents hero_score
         /\ some_opponent_equals deck deck_pos full_board opponents hero_score).
Proof.
  intros H. unfold showdown in H.
  inv_bind H as bd Hbd. destruct bd as [full_board deck_pos].
  inv_bind H as hero_score Hhero.
  apply opponents_loop_spec in H. destruct H as [Hex Hti].
  exists full_board, deck_pos, hero_score.
  assert (Hn : forall P : Z -> Prop,
             (exists k, 0 <= k < Z.of_nat (Z.to_nat opponents) /\ P k)
             <-> (exists k, 0 <= k < opponents /\ P k)).
  { intros P. split; intros (k & Hk & HP); exists k; split; (lia || exact HP). }
  assert (Hex' : some_opponent_exceeds deck deck_pos full_board
                   (Z.of_nat (Z.to_nat opponents)) hero_score
                 <-> some_opponent_exceeds deck deck_pos full_board opponents hero_score).
  { unfold some_opponent_exceeds.
    split; intros (k & sc & Hk & HP); exists k, sc; (split; [lia | exact HP]). }
  assert (Heq' : some_opponent_equals deck deck_pos full_board
                   (Z.of_nat (Z.to_nat opponents)) hero_score
                 <-> some_opponent_equals deck deck_pos full_board opponents hero_score).
  { unfold some_opponent_equals. apply Hn. }
  rewrite Hex' in Hex. rewrite Heq' in Hti.
  repeat split; try assumption.
  - apply Hex.
  - apply Hex.
  - intros Hx. apply Hex in Hx. destruct H as [Hw _]. congruence.
  - destruct H as [Hw Ht]. apply (Hti Hw) in Ht. destruct Ht; [discriminate | assumption].
  - destruct won; [reflexivity|]. exfalso. apply H. apply Hex. reflexivity.
  - destruct H as [Hnx Heq]. assert (Hw : won = true).
    { destruct won; [reflexivity|]. exfalso. apply Hnx, Hex. reflexivity. }
    apply (Hti Hw). right. exact Heq.
Qed.

(** Exactly one counter goes up, by one, and which one is decided by
    [(won, tied)]. *)
Lemma count_outcome_spec won tied r :
  let r' := count_outcome won tied r in
  iterations r' = iterations r /\
  wins r' = wins r + (if won && negb tied then 1 else 0) /\
  ties r' = ties r + (if won && tied then 1 else 0) /\
  losses r' = losses r + (if negb won then 1 else 0) /\
  decided r' = decided r + 1.
Proof. unfold decided. destruct won, tied; cbn; repeat split; lia. Qed.

Lemma iteration_spec hero_card1 hero_card2 board board_count opponents st st' :
  iteration hero_card1 hero_card2 board board_count opponents st = Val st' ->
  exists deck won tied,
    shuffle (sim_deck st) (sim_rng st) = Val (deck, sim_rng st') /\
    sim_deck st' = deck /\
    showdown hero_card1 hero_card2 board board_count opponents deck = Val (won, tied) /\
    sim_result st' = count_outcome won tied (sim_result st).
Proof.
  intros H. unfold iteration in H.
  inv_bind H as sh Hsh. destruct sh as [deck rng].
  inv_bind H as wt Hwt. destruct wt as [won tied].
  injection H as <-. exists deck, won, tied. cbn. auto.
Qed.

Lemma iterate_counts n : forall hero_card1 hero_card2 board board_count opponents st st',
  iterate n hero_card1 hero_card2 board board_count opponents st = Val st' ->
  iterations (sim_result st') = iterations (sim_result st) /\
  decided (sim_result st') = decided (sim_result st) + Z.of_nat n.
Proof.
  induction n as [|n IH]; intros h1 h2 board bc opp st st' H.
  - injection H as <-. split; lia.
  - cbn [iterate] in H. inv_bind H as st1 Hst1.
    apply iteration_spec in Hst1 as (deck & won & tied & _ & _ & _ & Hres).
    apply IH in H as [Hit Hdec]. rewrite Hit, Hdec, Hres.
    pose proof (count_outcome_spec won tied (sim_result st)) as (Hi & _ & _ & _ & Hd).
    rewrite Hi, Hd. split; lia.
Qed.

(** A worker reports the count it was given and decides that many hands,
    none when the count is negative. *)
Lemma run_simulation_counts hero_card1 hero_card2 board board_count opponents iters seed r :
  run_simulation hero_card1 hero_card2 board board_count opponents iters seed = Val r ->
  iterations r = iters /\ decided r = Z.max 0 iters.
Proof.
  intros H. unfold run_simulation in H.
  inv_bind H as m1 Hm1. inv_bind H as m2 Hm2. inv_bind H as dead Hdead.
  inv_bind H as deck Hdeck. inv_bind H as st Hst. injection H as <-.
  apply iterate_counts in Hst as [Hit Hdec]. cbn in Hit, Hdec.
  rewrite Hit, Hdec. unfold decided. cbn. split; lia.
Qed.

Lemma workers_spec n : forall t hero_card1 hero_card2 board board_count opponents ipt seed rs,
  workers n t hero_card1 hero_card2 board board_count opponents ipt seed = Val rs ->
  length rs = n /\
  forall j, (j < n)%nat ->
    exists r, rs !! j = Some r /\
      run_simulation hero_card1 hero_card2 board board_count opponents ipt
        (u64 (seed + (t + Z.of_nat j))) = Val r.
Proof.
  induction n as [|n IH]; intros t h1 h2 board bc opp ipt seed rs H.
  - injection H as <-. split; [reflexivity | intros j Hj; lia].
  - cbn [workers] in H. inv_bind H as r Hr. inv_bind H as rest Hrest.
    injection H as <-. apply IH in Hrest as [Hlen Hall]. split.
    + cbn. lia.
    + intros [|j] Hj.
      * exists r. replace (t + Z.of_nat 0) with t by lia. split; [reflexivity | exact Hr].
      * destruct (Hall j) as (r' & Hl & Hrun); [lia|].
        exists r'. replace (t + Z.of_nat (S j)) with (t + 1 + Z.of_nat j) by lia.
        split; [exact Hl | exact Hrun].
Qed.

Lemma accumulate_totals rs : forall acc c d,
  Forall (fun r => iterations r = c /\ decided r = d) rs ->
  iterations (fold_left accumulate rs acc) = iterations acc + Z.of_nat (length rs) * c /\
  decided (fold_left accumulate rs acc) = decided acc + Z.of_nat (length rs) * d.
Proof.
  induction rs as [|r rs IH]; intros acc c d Hall.
  - cbn. split; lia.
  - apply Forall_cons in Hall as [[Hc Hd] Hall]. cbn [fold_left length].
    destruct (IH (accumulate acc r) c d Hall) as [Hi Hdec].
    rewrite Hi, Hdec. unfold decided, accumulate in *. cbn. split; lia.
Qed.

(** The aggregate of a completed call. *)
Lemma calculate_equity_spec hc rd hero_card1 hero_card2 board board_count opponents iters seed r :
  calculate_equity hc rd hero_card1 hero_card2 board board_count opponents iters seed = Val r ->
  hc <> 0 /\
  exists rs,
    workers (Z.to_nat hc) 0 hero_card1 hero_card2 board board_count opponents
      (worker_iterations hc iters) (if seed =? 0 then rd else seed) = Val rs /\
    iterations r = Z.of_nat (Z.to_nat hc) * worker_iterations hc iters /\
    decided r = Z.of_nat (Z.to_nat hc) * Z.max 0 (worker_iterations hc iters) /\
    wins r = wins (fold_left accumulate rs
               {| equity := S754_zero false; wins := 0; ties := 0; losses := 0;
                  iterations := 0 |}) /\
    equity r = f32_div (f32_add (f32_of_int (wins r))
                                (f32_mul (f32_of_int (ties r)) f32_half))
                       (f32_of_int (iterations r)).
Proof.
  intros H. unfold calculate_equity in H.
  destruct (Z.eqb_spec hc 0) as [|Hne]; [discriminate|].
  split; [exact Hne|].
  inv_bind H as rs Hrs. injection H as <-. exists rs.
  split; [exact Hrs|].
  pose proof (workers_spec _ _ _ _ _ _ _ _ _ _ Hrs) as [Hlen Hall].
  assert (HF : Forall (fun r => iterations r = worker_iterations hc iters /\
                                decided r = Z.max 0 (worker_iterations hc iters)) rs).
  { apply Forall_lookup. intros j x Hj.
    destruct (Hall j) as (x' & Hx' & Hrun).
    - rewrite <- Hlen. apply lookup_lt_Some in Hj. exact Hj.
    - rewrite Hj in Hx'. injection Hx' as <-.
      apply run_simulation_counts in Hrun. exact Hrun. }
  pose proof (accumulate_totals rs
                {| equity := S754_zero false; wins := 0; ties := 0; losses := 0;
                   iterations := 0 |} _ _ HF) as [Hi Hd].
  rewrite Hlen in Hi, Hd. unfold decided in *. cbn in *.
  repeat split; try lia; reflexivity.
Qed.

End SimulatorFacts.







(** ** The tree search *)

Section SearchFacts.
Import MCTSEngine.
Context {P : Platform}.

Lemma deref_val (h : list MCTSNode) (p : nat) (n : MCTSNode) :
  deref h p = Val n -> h !! p = Some n.
Proof. unfold deref. destruct (h !! p); [intros [= ->]; reflexivity | discriminate]. Qed.

(** Backpropagation keeps the shape of the heap, lowers no counter and
    raises the counter of the node it starts from. *)
Lemma backpropagate_spec fuel : forall (h : list MCTSNode) node v h',
  backpropagate fuel h node v = Val h' ->
  length h' = length h /\
  (forall i n, h !! i = Some n ->
     exists n', h' !! i = Some n' /\ visits n <= visits n'
                /\ children n' = children n) /\
  (forall p, node = Some p ->
     exists n n', h !! p = Some n /\ h' !! p = Some n'
                  /\ visits n + 1 <= visits n').
Proof.
  induction fuel as [|fuel IH]; intros h node v h' H.
  - destruct node as [p|]; [discriminate H|]. injection H as <-.
    split; [reflexivity|]. split; [|discriminate].
    intros i n Hi. exists n. split; [exact Hi | split; [lia | reflexivity]].
  - destruct node as [p|]; cbn [backpropagate] in H.
    2:{ injection H as <-. split; [reflexivity|]. split; [|discriminate].
        intros i n Hi. exists n. split; [exact Hi | split; [lia | reflexivity]]. }
    inv_bind H as n Hn. apply deref_val in Hn.
    apply IH in H as (Hlen & Hall & _).
    rewrite length_insert in Hlen.
    assert (Hp : exists n', h' !! p = Some n' /\ visits n + 1 <= visits n'
                            /\ children n' = children n).
    { edestruct (Hall p) as (n' & Hn' & Hv & Hc).
      - apply list_lookup_insert_eq. eapply lookup_lt_Some, Hn.
      - exists n'. cbn in Hv, Hc. auto. }
    split; [exact Hlen|]. split.
    + intros i m Hi. destruct (decide (i = p)) as [->|Hne].
      * rewrite Hn in Hi. injection Hi as <-.
        destruct Hp as (n' & Hn' & Hv & Hc). exists n'.
        split; [exact Hn' | split; [lia | exact Hc]].
      * apply Hall. rewrite list_lookup_insert_ne by congruence. exact Hi.
    + intros q [= <-]. destruct Hp as (n' & Hn' & Hv & _). exists n, n'. auto.
Qed.

(** Expansion allocates one unvisited node at the end of the heap and
    appends it to the children of the expanded node; nothing else moves. *)
Lemma expand_spec (h : list MCTSNode) g node h1 g' c :
  expand h g node = Val (h1, g', c) ->
  c = length h /\ length h1 = S (length h) /\
  (exists child, h1 !! c = Some child /\ visits child = 0) /\
  (forall i m, h !! i = Some m ->
     exists m', h1 !! i = Some m' /\ visits m' = visits m /\
       (children m' = children m \/ i = node /\ children m' = children m ++ [c])) /\
  (exists n n', h !! node = Some n /\ h1 !! node = Some n'
                /\ children n' = children n ++ [c]).
Proof.
  intros H. unfold expand in H.
  inv_bind H as n Hn. apply deref_val in Hn.
  destruct (uniform_int 0 _ g) as [idx g2].
  inv_bind H as a Ha. injection H as <- <- <-.
  pose proof (lookup_lt_Some _ _ _ Hn) as Hlt.
  split; [reflexivity|]. split; [rewrite length_app, length_insert; cbn; lia|].
  split; [|split].
  - eexists. split.
    + rewrite lookup_app_r by (rewrite length_insert; lia).
      rewrite length_insert, Nat.sub_diag. reflexivity.
    + reflexivity.
  - intros i m Hi. pose proof (lookup_lt_Some _ _ _ Hi) as Hilt.
    rewrite lookup_app_l by (rewrite length_insert; exact Hilt).
    destruct (decide (i = node)) as [->|Hne].
    + rewrite list_lookup_insert_eq by exact Hlt.
      rewrite Hn in Hi. injection Hi as <-.
      eexists. split; [reflexivity|]. cbn. auto.
    + rewrite list_lookup_insert_ne by congruence.
      exists m. auto.
  - exists n. eexists. split; [exact Hn|].
    rewrite lookup_app_l by (rewrite length_insert; exact Hlt).
    rewrite list_lookup_insert_eq by exact Hlt. split; reflexivity.
Qed.

(** Soundness survives any change that allocates at the end, lowers no
    counter and at most appends the new address to a list of children. *)
Lemma sound_grow b (h h' : list MCTSNode) :
  sound b h ->
  (length h <= length h')%nat ->
  (forall i m, h !! i = Some m ->
     exists m', h' !! i = Some m' /\ visits m <= visits m' /\
       (children m' = children m
        \/ children m' = children m ++ [length h] /\ (length h < length h')%nat)) ->
  Forall (fun n => 0 <= visits n) h' ->
  sound b h'.
Proof.
  intros (r & Hr & Hch & _ & Hex) Hlen Hall Hvis.
  destruct (Hall _ _ Hr) as (r' & Hr' & _ & Hc).
  exists r'. split; [exact Hr'|]. split; [|split; [exact Hvis|]].
  - destruct Hc as [-> | [-> Hlt]].
    + eapply Forall_impl; [exact Hch|]. cbn. intros; lia.
    + apply Forall_app. split.
      * eapply Forall_impl; [exact Hch|]. cbn. intros; lia.
      * apply Forall_singleton. exact Hlt.
  - intros Hb. specialize (Hex Hb).
    assert (Hex' : Exists (visited h') (children r)).
    { eapply Exists_impl; [exact Hex|]. intros c (nc & Hnc & Hv).
      destruct (Hall _ _ Hnc) as (nc' & Hnc' & Hv' & _).
      exists nc'. split; [exact Hnc' | lia]. }
    destruct Hc as [-> | [-> _]]; [exact Hex'|].
    apply Exists_app. left. exact Hex'.
Qed.

Lemma backpropagate_sound b fuel (h : list MCTSNode) node v h' :
  sound b h -> backpropagate fuel h node v = Val h' -> sound b h'.
Proof.
  intros Hs H. apply backpropagate_spec in H as (Hlen & Hall & _).
  apply (sound_grow b h); [exact Hs | lia | |].
  - intros i m Hi. destruct (Hall i m Hi) as (m' & Hm' & Hv & Hc).
    exists m'. auto.
  - destruct Hs as (_ & _ & _ & Hvis & _).
    apply Forall_lookup. intros i x Hx.
    assert (His : is_Some (h !! i)).
    { apply lookup_lt_is_Some. rewrite <- Hlen. eapply lookup_lt_Some, Hx. }
    destruct His as [m Hm]. destruct (Hall i m Hm) as (m' & Hm' & Hv & _).
    rewrite Hx in Hm'. injection Hm' as <-.
    pose proof (Forall_lookup_1 _ _ _ _ Hvis Hm) as H0. cbn in H0. lia.
Qed.

Lemma expand_sound b (h : list MCTSNode) g node h1 g' c :
  sound b h -> expand h g node = Val (h1, g', c) -> sound b h1.
Proof.
  intros Hs H. apply expand_spec in H as (-> & Hlen & (child & Hchild & Hv0) & Hall & _).
  apply (sound_grow b h); [exact Hs | lia | |].
  - intros i m Hi. destruct (Hall i m Hi) as (m' & Hm' & Hv & Hc).
    exists m'. split; [exact Hm' | split; [lia|]].
    destruct Hc as [Hc | [_ Hc]]; [left; exact Hc | right; split; [exact Hc | lia]].
  - destruct Hs as (_ & _ & _ & Hvis & _).
    apply Forall_lookup. intros i x Hx.
    destruct (decide (i < length h)%nat) as [Hlt|Hge].
    + destruct (lookup_lt_is_Some_2 h i Hlt) as [m Hm].
      destruct (Hall i m Hm) as (m' & Hm' & Hv & _).
      rewrite Hx in Hm'. injection Hm' as <-.
      pose proof (Forall_lookup_1 _ _ _ _ Hvis Hm) as H0. cbn in H0. lia.
    + assert (i = length h) by (apply lookup_lt_Some in Hx; lia). subst i.
      rewrite Hx in Hchild. injection Hchild as <-. lia.
Qed.

(** What one pass of [search] does to the heap: an optional expansion,
    then a backpropagation from the node the playout started at. *)
Lemma search_step_heaps (s s' : MCTSSearch) :
  search_step s = Val s' ->
  exists node0 n0 h1 g1 node1 v fuel,
    selection (length (nodes s)) (nodes s) root = Val node0 /\
    nodes s !! node0 = Some n0 /\
    (match untried_actions n0 with
     | _ :: _ => if is_terminal n0 then Val (nodes s, rng s, node0)
                 else expand (nodes s) (rng s) node0
     | [] => Val (nodes s, rng s, node0)
     end) = Val (h1, g1, node1) /\
    backpropagate fuel h1 (Some node1) v = Val (nodes s').
Proof.
  intros H. unfold search_step in H.
  inv_bind H as node0 Hsel. inv_bind H as n0 Hn0. apply deref_val in Hn0.
  inv_bind H as x Hx. destruct x as [[h1 g1] node1].
  inv_bind H as y Hy. destruct y as [v g2].
  inv_bind H as h2 Hh2. injection H as <-.
  exists node0, n0, h1, g1, node1, v, (length h1). cbn. auto.
Qed.

Lemma search_step_sound b (s s' : MCTSSearch) :
  sound b (nodes s) -> search_step s = Val s' -> sound b (nodes s').
Proof.
  intros Hs H.
  apply search_step_heaps in H
    as (node0 & n0 & h1 & g1 & node1 & v & fuel & _ & _ & Hexp & Hback).
  apply (backpropagate_sound b fuel h1 (Some node1) v); [|exact Hback].
  destruct (untried_actions n0) as [|a l].
  - injection Hexp as <- _ _. exact Hs.
  - destruct (is_terminal n0).
    + injection Hexp as <- _ _. exact Hs.
    + eapply expand_sound; [exact Hs | exact Hexp].
Qed.

Lemma search_loop_sound b n : forall s s' : MCTSSearch,
  sound b (nodes s) -> search_loop n s = Val s' -> sound b (nodes s').
Proof.
  induction n as [|n IH]; intros s s' Hs H.
  - injection H as <-. exact Hs.
  - cbn [search_loop] in H. inv_bind H as s1 Hs1.
    eapply IH; [|exact H]. eapply search_step_sound; [exact Hs | exact Hs1].
Qed.

Lemma new_search_sound rd legal_actions seed :
  sound false (nodes (new_search rd legal_actions seed)).
Proof.
  eexists. split; [reflexivity|]. cbn.
  split; [constructor|]. split; [|discriminate].
  apply Forall_singleton. cbn. lia.
Qed.

(** The first pass expands the root and visits the child it has made. *)
Lemma first_step_sound rd legal_actions seed (s' : MCTSSearch) :
  legal_actions <> [] ->
  search_step (new_search rd legal_actions seed) = Val s' ->
  sound true (nodes s').
Proof.
  intros Hne H.
  pose proof (search_step_sound false _ _ (new_search_sound rd legal_actions seed) H)
    as (r & Hr & Hch & Hvis & _).
  exists r. split; [exact Hr|]. split; [exact Hch|]. split; [exact Hvis|]. intros _.
  apply search_step_heaps in H
    as (node0 & n0 & h1 & g1 & node1 & v & fuel & Hsel & Hn0 & Hexp & Hback).
  destruct legal_actions as [|a l]; [contradiction|].
  cbn in Hsel. injection Hsel as <-.
  cbn in Hn0. injection Hn0 as <-. cbn [untried_actions is_terminal] in Hexp.
  apply expand_spec in Hexp
    as (-> & _ & (child & Hchild & Hv0) & _ & (n & n' & Hn & Hn' & Hc)).
  cbn in Hn. injection Hn as <-. cbn in Hc.
  apply backpropagate_spec in Hback as (_ & Hall & Htop).
  destruct (Hall _ _ Hn') as (r' & Hr' & _ & Hc').
  rewrite Hr in Hr'. injection Hr' as <-.
  rewrite Hc', Hc. apply Exists_cons_hd.
  destruct (Htop _ eq_refl) as (m & m' & Hm & Hm' & Hv).
  cbn in Hm, Hchild. rewrite Hchild in Hm. injection Hm as <-.
  exists m'. split; [exact Hm' | lia].
Qed.

Lemma search_sound rd legal_actions seed n (s : MCTSSearch) :
  legal_actions <> [] -> 1 <= n ->
  search n (new_search rd legal_actions seed) = Val s ->
  sound true (nodes s).
Proof.
  intros Hne Hn H. unfold search in H.
  destruct (Z.to_nat n) as [|k] eqn:Ek; [lia|].
  cbn [search_loop] in H. inv_bind H as s1 Hs1.
  eapply search_loop_sound; [|exact H].
  eapply first_step_sound; [exact Hne | exact Hs1].
Qed.

Lemma visits_of_spec (h : list MCTSNode) cs :
  Forall (fun c => (c < length h)%nat) cs ->
  Forall (fun n => 0 <= visits n) h ->
  exists vs, visits_of h cs = Val vs /\ length vs = length cs /\
    Forall (fun v => 0 <= v) vs /\
    (Exists (visited h) cs -> Exists (fun v => 1 <= v) vs).
Proof.
  intros Hcs Hvis. induction cs as [|c cs IH].
  - exists []. split; [reflexivity|]. split; [reflexivity|].
    split; [constructor|]. intros Hex. inversion Hex.
  - apply Forall_cons in Hcs as [Hc Hcs].
    destruct (IH Hcs) as (vs & Hvs & Hlen & Hpos & Hex).
    destruct (lookup_lt_is_Some_2 h c Hc) as [n Hn].
    exists (visits n :: vs). cbn [visits_of]. unfold deref. rewrite Hn. cbn.
    rewrite Hvs. cbn. split; [reflexivity|]. split; [lia|]. split.
    + constructor; [|exact Hpos]. exact (Forall_lookup_1 _ _ _ _ Hvis Hn).
    + intros Hx. apply Exists_cons in Hx as [(m & Hm & Hv) | Hx].
      * rewrite Hn in Hm. injection Hm as <-. apply Exists_cons_hd. exact Hv.
      * apply Exists_cons_tl, Hex, Hx.
Qed.

Lemma fold_add_shift vs : forall a, fold_left Z.add vs a = a + fold_left Z.add vs 0.
Proof.
  induction vs as [|v vs IH]; intros a; cbn; [lia|].
  rewrite (IH (a + v)), (IH (0 + v)). lia.
Qed.

Lemma sum_visits_cons v vs : sum_visits (v :: vs) = v + sum_visits vs.
Proof. unfold sum_visits. cbn. apply fold_add_shift. Qed.

Lemma sum_visits_nonneg vs : Forall (fun v => 0 <= v) vs -> 0 <= sum_visits vs.
Proof.
  induction 1 as [|v vs Hv _ IH]; [reflexivity|]. rewrite sum_visits_cons. lia.
Qed.

Lemma sum_visits_pos vs :
  Forall (fun v => 0 <= v) vs -> Exists (fun v => 1 <= v) vs -> 0 < sum_visits vs.
Proof.
  intros Hall Hex. induction Hall as [|v vs Hv Hall IH].
  - inversion Hex.
  - rewrite sum_visits_cons. pose proof (sum_visits_nonneg vs Hall).
    apply Exists_cons in Hex as [H1 | Hex]; [lia|]. specialize (IH Hex). lia.
Qed.

(** The exact shares of a positive total add up to the sum over the total. *)
Lemma Qsum_shares t vs :
  (Qsum (map (exact_share t) vs) == sum_visits vs # Z.to_pos t)%Q.
Proof.
  induction vs as [|v vs IH].
  - reflexivity.
  - cbn [map Qsum fold_right]. fold (Qsum (map (exact_share t) vs)).
    rewrite IH, sum_visits_cons. unfold exact_share, Qeq, Qplus. cbn. 
    rewrite Pos2Z.inj_mul. ring.
Qed.

Lemma backpropagate_leaf fuel (r : MCTSNode) cs k c v :
  parent r = None -> cs !! k = Some c -> parent c = Some root ->
  backpropagate (S (S fuel)) (r :: cs) (Some (S k)) v
  = Val (bump r (- v) :: <[k := bump c v]> cs).
Proof.
  intros Hr Hk Hc. unfold bump.
  cbn [backpropagate]. unfold deref.
  change ((r :: cs) !! S k) with (cs !! k). rewrite Hk. cbn [mbind res_bind].
  rewrite Hc. unfold root. cbn [backpropagate]. unfold deref.
  cbn [list_insert insert lookup list_lookup mbind res_bind].
  rewrite Hr. destruct fuel; reflexivity.
Qed.

Lemma selection_leaf fuel (heap : list MCTSNode) c n :
  heap !! c = Some n -> children n = [] -> selection fuel heap c = Val c.
Proof.
  intros Hn Hc. destruct fuel; cbn [selection]; unfold deref; rewrite Hn; cbn;
    rewrite Hc; destruct (untried_actions n); reflexivity.
Qed.

Lemma simulate_leaf (heap : list MCTSNode) g c n :
  heap !! c = Some n -> is_terminal n = false ->
  simulate heap g c = Val (0%float, g).
Proof.
  intros Hn Ht. unfold simulate, deref. rewrite Hn. cbn. rewrite Ht. reflexivity.
Qed.

Lemma leaf_score (r : MCTSNode) cs count n :
  leaf_ok count n ->
  get_ucb1_score (r :: cs) n
  = Val (total_value n / double_of_int (visits n)
         + EXPLORATION_CONSTANT
           * sqrt (log (double_of_int (visits r)) / double_of_int (visits n)))%float.
Proof.
  intros (Hp & _ & _ & _ & _ & Hv). unfold get_ucb1_score.
  destruct (Z.eqb_spec (visits n) 0) as [H0|_]; [lia|].
  rewrite Hp. reflexivity.
Qed.

Lemma select_loop_some (r : MCTSNode) cs count : forall ks c0 sc0,
  Forall (fun k => exists n, (r :: cs) !! k = Some n /\ leaf_ok count n) ks ->
  exists c', select_loop (r :: cs) ks (Some c0) sc0 = Val (Some c')
             /\ (c' = c0 \/ c' ∈ ks).
Proof.
  induction ks as [|k ks IH]; intros c0 sc0 Hall.
  - exists c0. split; [reflexivity | left; reflexivity].
  - apply Forall_cons in Hall as [(n & Hn & Hleaf) Hall].
    cbn [select_loop]. unfold deref. rewrite Hn. cbn [mbind res_bind].
    rewrite (leaf_score r cs count n Hleaf). cbn [mbind res_bind].
    match goal with |- context [if ?b then _ else _] => destruct b end.
    + edestruct (IH k) as (c' & Hc' & Hin); [exact Hall|].
      exists c'. split; [exact Hc'|].
      right. destruct Hin as [->|Hin]; [left | right; exact Hin].
    + destruct (IH c0 sc0 Hall) as (c' & Hc' & Hin). exists c'. split; [exact Hc'|].
      destruct Hin as [->|Hin]; [left; reflexivity | right; right; exact Hin].
Qed.

Lemma children_are_leaves (r : MCTSNode) cs count :
  Forall (leaf_ok count) cs ->
  Forall (fun k => exists n, (r :: cs) !! k = Some n /\ leaf_ok count n)
         (seq 1 (length cs)).
Proof.
  intros Hcs. apply Forall_forall. intros k Hk.
  apply elem_of_seq in Hk. destruct k as [|j]; [lia|].
  destruct (lookup_lt_is_Some_2 cs j ltac:(lia)) as [n Hn].
  exists n. split; [exact Hn|]. exact (Forall_lookup_1 _ _ _ _ Hcs Hn).
Qed.

(** With a sound library the first child always scores above minus
    infinity, so [select_best_child] never answers [nullptr]. *)
Lemma select_best_child_flat (r : MCTSNode) cs count :
  platform_ok ->
  children r = seq 1 (length cs) -> Forall (leaf_ok count) cs -> cs <> [] ->
  1 <= visits r -> count < 2 ^ 53 ->
  exists j n, select_best_child (r :: cs) r = Val (Some (S j))
              /\ cs !! j = Some n.
Proof.
  intros [_ Hlog] Hch Hcs Hne Hvr Hcount.
  pose proof (children_are_leaves r cs count Hcs) as Hall.
  assert (Hfin : forall c', c' ∈ seq 1 (length cs) ->
            exists j n, c' = S j /\ cs !! j = Some n).
  { intros c' Hin. apply elem_of_seq in Hin. destruct c' as [|j]; [lia|].
    destruct (lookup_lt_is_Some_2 cs j ltac:(lia)) as [n Hn]. eauto. }
  unfold select_best_child. rewrite Hch.
  destruct cs as [|c1 cs']; [contradiction|].
  cbn [length seq] in *. apply Forall_cons in Hall as [(n & Hn & Hleaf) Hall].
  cbn [select_loop]. unfold deref. rewrite Hn. cbn [mbind res_bind].
  rewrite (leaf_score r (c1 :: cs') count n Hleaf). cbn [mbind res_bind].
  destruct Hleaf as (_ & _ & _ & _ & Htv & Hv). rewrite Htv.
  rewrite ucb1_expression_above_neg_infinity by (lia || apply Hlog; lia).
  edestruct (select_loop_some r (c1 :: cs') count) as (c' & Hc' & Hin); [exact Hall|].
  rewrite Hc'.
  destruct (Hfin c') as (j & m & -> & Hm).
  { destruct Hin as [->|Hin]; [left | right; exact Hin]. }
  exists j, m. split; [reflexivity | exact Hm].
Qed.

Lemma leaf_ok_mono count count' n :
  count <= count' -> leaf_ok count n -> leaf_ok count' n.
Proof. unfold leaf_ok. intros Hle H. repeat split; try apply H. lia. Qed.

(** One pass on a flat heap with a sound library: it returns, and the heap
    is flat again. *)
Lemma search_step_flat (s : MCTSSearch) :
  platform_ok -> flat s -> simulation_count s + 1 < 2 ^ 53 ->
  exists s', search_step s = Val s' /\ flat s'
             /\ simulation_count s' = simulation_count s + 1.
Proof.
  intros Hok (r & cs & Hnodes & Hpr & Htr & Htv & Hch & Hcs & Hvr & Hvr1 & Hsome) Hcount.
  destruct s as [heap g count]. cbn [nodes rng simulation_count] in *. subst heap.
  unfold search_step. cbn [nodes rng simulation_count].
  destruct (untried_actions r) as [|a l] eqn:Hu.
  - destruct Hsome as [?|Hne]; [contradiction|].
    destruct (select_best_child_flat r cs count Hok Hch Hcs Hne (Hvr1 Hne) ltac:(lia))
      as (j & n & Hsel & Hn).
    pose proof (Forall_lookup_1 _ _ _ _ Hcs Hn) as Hleaf.
    assert (Hheap : (r :: cs) !! S j = Some n) by exact Hn.
    destruct Hleaf as (Hp & Hc & Hun & Ht & Htot & Hv).
    assert (Hselection : selection (length (r :: cs)) (r :: cs) root = Val (S j)).
    { cbn [length selection]. unfold deref, root.
      change ((r :: cs) !! 0%nat) with (Some r). cbn [mbind res_bind].
      rewrite Hu, Hch. destruct cs as [|c1 cs']; [contradiction|].
      cbn [length seq]. rewrite Hsel. cbn [mbind res_bind].
      apply (selection_leaf _ _ _ n Hheap Hc). }
    rewrite Hselection. cbn [mbind res_bind].
    unfold deref at 1. rewrite Hheap. cbn [mbind res_bind]. rewrite Hun.
    cbn [mbind res_bind].
    rewrite (simulate_leaf _ _ _ n Hheap Ht). cbn [mbind res_bind].
    destruct cs as [|c1 cs']; [contradiction|]. cbn [length].
    rewrite (backpropagate_leaf _ r (c1 :: cs') j n 0%float Hpr Hn Hp).
    cbn [mbind res_bind]. eexists. split; [reflexivity|]. split; [|reflexivity].
    exists (bump r (- 0)%float), (<[j := bump n 0%float]> (c1 :: cs')).
    cbn [nodes simulation_count bump parent is_terminal total_value children visits
         untried_actions].
    split; [reflexivity|]. split; [exact Hpr|]. split; [exact Htr|].
    split; [rewrite Htv; reflexivity|].
    split; [rewrite length_insert; exact Hch|].
    split; [|split; [lia | split; [intros _; lia | right]]].
    + apply Forall_insert.
      * eapply Forall_impl; [exact Hcs|]. intros x. apply leaf_ok_mono. lia.
      * unfold leaf_ok. cbn. rewrite Htot. repeat split; try assumption; lia.
    + intros Hnil. apply (f_equal length) in Hnil.
      rewrite length_insert in Hnil. discriminate Hnil.
  - assert (Hselection : selection (length (r :: cs)) (r :: cs) root = Val root).
    { cbn [length selection]. unfold deref, root.
      change ((r :: cs) !! 0%nat) with (Some r). cbn [mbind res_bind].
      rewrite Hu. reflexivity. }
    rewrite Hselection. cbn [mbind res_bind].
    unfold deref at 1, root. change ((r :: cs) !! 0%nat) with (Some r).
    cbn [mbind res_bind]. rewrite Hu, Htr.
    unfold expand, deref. change ((r :: cs) !! 0%nat) with (Some r).
    cbn [mbind res_bind]. rewrite Hu.
    destruct Hok as [Hdraw _].
    pose proof (Hdraw 0 (Z.of_nat (length (a :: l)) - 1) g ltac:(cbn [length]; lia)) as Hidx.
    destruct (uniform_int 0 (Z.of_nat (length (a :: l)) - 1) g) as [idx g'].
    cbn [fst] in Hidx.
    destruct (lookup_lt_is_Some_2 (a :: l) (Z.to_nat idx) ltac:(lia)) as [b Hb].
    unfold read. destruct (Z.ltb_spec idx 0) as [?|_]; [lia|]. rewrite Hb.
    cbn [mbind res_bind].
    set (child := {| visits := 0; total_value := 0%float; action := b;
                     parent := Some 0%nat; children := [];
                     untried_actions := get_legal_actions_after b;
                     is_terminal := is_terminal_state_after b |}).
    set (r' := {| visits := visits r; total_value := total_value r;
                  action := action r; parent := parent r;
                  children := children r ++ [length (r :: cs)];
                  untried_actions := delete (Z.to_nat idx) (a :: l);
                  is_terminal := is_terminal r |}).
    change (<[0%nat := r']> (r :: cs) ++ [child]) with (r' :: (cs ++ [child])).
    assert (Hchild : (cs ++ [child]) !! length cs = Some child).
    { rewrite lookup_app_r by lia. rewrite Nat.sub_diag. reflexivity. }
    rewrite (simulate_leaf _ _ _ child); [|exact Hchild|reflexivity].
    cbn [mbind res_bind]. cbn [length].
    rewrite length_app. cbn [length]. rewrite Nat.add_1_r.
    rewrite (backpropagate_leaf _ r' (cs ++ [child]) (length cs) child 0%float Hpr Hchild eq_refl).
    cbn [mbind res_bind]. eexists. split; [reflexivity|]. split; [|reflexivity].
    assert (Hins : <[length cs := bump child 0%float]> (cs ++ [child])
                   = cs ++ [bump child 0%float]).
    { rewrite insert_app_r_alt by lia. rewrite Nat.sub_diag. reflexivity. }
    rewrite Hins.
    exists (bump r' (- 0)%float), (cs ++ [bump child 0%float]).
    cbn [nodes simulation_count].
    split; [reflexivity|]. split; [exact Hpr|]. split; [exact Htr|].
    split; [cbn; rewrite Htv; reflexivity|].
    split.
    { cbn [bump children r']. rewrite length_app, Hch. cbn [length].
      rewrite Nat.add_1_r, seq_S. reflexivity. }
    split; [|split; [cbn; lia | split; [intros _; cbn; lia | right]]].
    + apply Forall_app. split.
      * eapply Forall_impl; [exact Hcs|]. intros x. apply leaf_ok_mono. lia.
      * apply Forall_singleton. unfold leaf_ok. cbn. repeat split; lia.
    + intros Hnil. apply (f_equal length) in Hnil.
      rewrite length_app in Hnil. cbn in Hnil. lia.
Qed.


Lemma search_loop_flat k : forall s : MCTSSearch,
  platform_ok -> flat s -> simulation_count s + Z.of_nat k < 2 ^ 53 ->
  exists s', search_loop k s = Val s' /\ flat s'
             /\ simulation_count s' = simulation_count s + Z.of_nat k.
Proof.
  induction k as [|k IH]; intros s Hok Hflat Hcount.
  - exists s. split; [reflexivity|]. split; [exact Hflat | lia].
  - destruct (search_step_flat s Hok Hflat ltac:(lia)) as (s1 & Hs1 & Hflat1 & Hc1).
    destruct (IH s1 Hok Hflat1 ltac:(lia)) as (s' & Hs' & Hflat' & Hc').
    exists s'. cbn [search_loop]. rewrite Hs1. cbn [mbind res_bind].
    split; [exact Hs'|]. split; [exact Hflat' | lia].
Qed.

Lemma search_flat n (s : MCTSSearch) :
  platform_ok -> flat s -> simulation_count s + Z.max 0 n < 2 ^ 53 ->
  exists s', search n s = Val s' /\ flat s'
             /\ simulation_count s' = simulation_count s + Z.max 0 n.
Proof.
  intros Hok Hflat Hcount. unfold search.
  destruct (search_loop_flat (Z.to_nat n) s Hok Hflat ltac:(lia)) as (s' & Hs' & Hf & Hc).
  exists s'. split; [exact Hs'|]. split; [exact Hf | lia].
Qed.

Lemma total_passes_cons n counts :
  total_passes (n :: counts) = Z.max 0 n + total_passes counts.
Proof. reflexivity. Qed.

Lemma total_passes_nonneg counts : 0 <= total_passes counts.
Proof.
  induction counts as [|m counts IH]; [reflexivity|].
  rewrite total_passes_cons. lia.
Qed.

Lemma searches_flat counts : forall s : MCTSSearch,
  platform_ok -> flat s -> simulation_count s + total_passes counts < 2 ^ 53 ->
  exists s', searches counts s = Val s' /\ flat s'
             /\ simulation_count s' = simulation_count s + total_passes counts.
Proof.
  induction counts as [|n counts IH]; intros s Hok Hflat Hcount.
  - exists s. split; [reflexivity|]. split; [exact Hflat|].
    change (total_passes []) with 0. lia.
  - rewrite total_passes_cons in Hcount.
    pose proof (total_passes_nonneg counts) as Hpos.
    destruct (search_flat n s Hok Hflat ltac:(lia)) as (s1 & Hs1 & Hf1 & Hc1).
    destruct (IH s1 Hok Hf1 ltac:(lia)) as (s' & Hs' & Hf' & Hc').
    exists s'. cbn [searches]. rewrite Hs1. cbn [mbind res_bind].
    split; [exact Hs'|]. split; [exact Hf'|].
    rewrite total_passes_cons. lia.
Qed.

Lemma new_search_flat rd legal_actions seed :
  legal_actions <> [] -> flat (new_search rd legal_actions seed).
Proof.
  intros Hne. eexists _, []. cbn.
  repeat split; try reflexivity; try lia; [constructor | intros H; contradiction | left; exact Hne].
Qed.

Lemma total_passes_app counts n :
  total_passes (counts ++ [n]) = total_passes counts + Z.max 0 n.
Proof.
  induction counts as [|m counts IH].
  - change (total_passes ([] ++ [n])) with (Z.max 0 n + 0).
    change (total_passes []) with 0. lia.
  - change ((m :: counts) ++ [n]) with (m :: (counts ++ [n])).
    rewrite !total_passes_cons, IH. lia.
Qed.

(** Calls that ask for no pass leave the search as it was; from the first
    call that asks for one on, the heap stays sound. *)
Lemma searches_fresh_or_sound rd legal_actions seed counts : forall s0 s1 : MCTSSearch,
  legal_actions <> [] ->
  s0 = new_search rd legal_actions seed \/ sound true (nodes s0) ->
  searches counts s0 = Val s1 ->
  s1 = new_search rd legal_actions seed \/ sound true (nodes s1).
Proof.
  induction counts as [|n counts IH]; intros s0 s1 Hne H0 H.
  - injection H as <-. exact H0.
  - cbn [searches] in H. inv_bind H as s Hs.
    apply (IH s s1 Hne); [|exact H].
    destruct (Z.lt_ge_cases n 1) as [Hlt|Hge].
    + unfold search in Hs. replace (Z.to_nat n) with 0%nat in Hs by lia.
      injection Hs as <-. exact H0.
    + right. destruct H0 as [-> | Hsound].
      * eapply search_sound; [exact Hne | exact Hge | exact Hs].
      * eapply search_loop_sound; [exact Hsound | exact Hs].
Qed.

End SearchFacts.


(** The stand-in library meets what the engine expects of a library. *)
Lemma stand_in_ok : @MCTSEngine.platform_ok Searches.stand_in.
Proof.
  split.
  - intros lo hi g Hle. cbn.
    pose proof (Z.mod_pos_bound (g / 65536) (hi - lo + 1) ltac:(lia)). lia.
  - intros v _. apply std_max_nonneg.
Qed.



(** ** The card system *)

Section CardFacts.
Import PokerCore.

Lemma make_card_decode rank suit :
  0 <= rank < 13 -> 0 <= suit < 4 ->
  0 <= make_card rank suit < 52 /\
  get_rank (make_card rank suit) = rank /\ get_suit (make_card rank suit) = suit.
Proof.
  intros Hr Hs. unfold make_card, get_rank, get_suit, RANK_COUNT.
  rewrite (Z.mod_small (suit * 13 + rank) 256) by lia.
  repeat split; try lia.
  - rewrite Z.add_comm, Z.mod_add by lia. apply Z.mod_small. lia.
  - rewrite Z.add_comm, Z.div_add by lia. rewrite Z.div_small by lia. lia.
Qed.

Lemma card_to_mask_val c : 0 <= c < 64 -> card_to_mask c = Val (2 ^ c).
Proof.
  intros H. unfold card_to_mask.
  destruct (Z.ltb_spec c 0); [lia|]. destruct (Z.leb_spec 64 c); [lia|].
  rewrite Z.shiftl_1_l. reflexivity.
Qed.

Lemma land_pow2 mask c :
  0 <= c -> Z.land mask (2 ^ c) = if Z.testbit mask c then 2 ^ c else 0.
Proof.
  intros Hc. apply Z.bits_inj'. intros n Hn.
  rewrite Z.land_spec, Z.pow2_bits_eqb by lia.
  destruct (Z.eqb_spec c n) as [->|Hne].
  - destruct (Z.testbit mask n); [rewrite Z.pow2_bits_true by lia | rewrite Z.bits_0]; reflexivity.
  - rewrite andb_false_r.
    destruct (Z.testbit mask c); [rewrite Z.pow2_bits_false by lia | rewrite Z.bits_0]; reflexivity.
Qed.

Lemma has_card_testbit mask c :
  0 <= c < 64 -> has_card mask c = Val (Z.testbit mask c).
Proof.
  intros H. unfold has_card. rewrite card_to_mask_val by exact H. cbn.
  rewrite land_pow2 by lia.
  destruct (Z.testbit mask c); [|reflexivity].
  destruct (Z.eqb_spec (2 ^ c) 0) as [E|_]; [|reflexivity].
  pose proof (Z.pow_pos_nonneg 2 c). lia.
Qed.

Lemma testbit_range mask n :
  0 <= n -> (0 <= mask < 2 ^ n <-> 0 <= mask /\ forall i, n <= i -> Z.testbit mask i = false).
Proof.
  intros Hn. split.
  - intros [H0 Hlt]. split; [exact H0|]. intros i Hi.
    destruct (Z.eq_dec mask 0) as [->|Hne]; [apply Z.bits_0|].
    apply Z.bits_above_log2; [lia|].
    assert (Z.log2 mask < n) by (apply Z.log2_lt_pow2; lia). lia.
  - intros [H0 Hbits]. split; [exact H0|].
    destruct (Z.eq_dec mask 0) as [->|Hne]; [apply Z.pow_pos_nonneg; lia|].
    apply Z.log2_lt_pow2; [lia|].
    destruct (Z.lt_ge_cases (Z.log2 mask) n) as [?|Hge]; [assumption|].
    pose proof (Z.bit_log2 mask ltac:(lia)) as Hb.
    rewrite (Hbits _ Hge) in Hb. discriminate.
Qed.

Lemma held_testbit mask :
  held mask = List.filter (fun c => Z.testbit mask c) (seqZ 0 64).
Proof.
  unfold held. apply List.filter_ext_in. intros c Hc.
  apply list_elem_of_In, elem_of_seqZ in Hc. rewrite has_card_testbit by lia. reflexivity.
Qed.

(** The bits of the low [n] positions, counted from the lowest. *)
Lemma count_low_bits n : forall m,
  length (List.filter (fun c => Z.testbit m c) (seqZ 0 (Z.of_nat (S n))))
  = (Nat.b2n (Z.odd m)
     + length (List.filter (fun c => Z.testbit (Z.div2 m) c) (seqZ 0 (Z.of_nat n))))%nat.
Proof.
  intros m.
  replace (seqZ 0 (Z.of_nat (S n))) with (0 :: ((fun c => c + 1) <$> seqZ 0 (Z.of_nat n))).
  2:{ rewrite (seqZ_cons 0 (Z.of_nat (S n))) by lia. f_equal.
      replace (Z.pred (Z.of_nat (S n))) with (Z.of_nat n) by lia.
      change (Z.succ 0) with (1 + 0).
      rewrite <- fmap_add_seqZ. apply list_fmap_ext. intros; lia. }
  cbn [List.filter]. rewrite Z.bit0_odd.
  assert (E : List.filter (fun c => Z.testbit m c) ((fun c => c + 1) <$> seqZ 0 (Z.of_nat n))
              = (fun c => c + 1) <$> List.filter (fun c => Z.testbit (Z.div2 m) c) (seqZ 0 (Z.of_nat n))).
  { assert (Hall : Forall (fun c => 0 <= c) (seqZ 0 (Z.of_nat n)))
      by (apply Forall_forall; intros c Hc; apply elem_of_seqZ in Hc; lia).
    induction Hall as [|c l Hc _ IH]; [reflexivity|].
    cbn. rewrite Z.div2_spec, Z.shiftr_spec by lia. 
    destruct (Z.testbit m (c + 1)); cbn; rewrite IH; reflexivity. }
  rewrite E. destruct (Z.odd m); cbn; rewrite ?length_fmap; reflexivity.
Qed.

Lemma popcount_div2 m :
  0 <= m -> popcount m = Z.b2z (Z.odd m) + popcount (Z.div2 m).
Proof.
  intros H. destruct m as [|p|p]; [reflexivity| |lia].
  destruct p; cbn; try reflexivity.
Qed.

Lemma popcount_count n : forall m,
  0 <= m < 2 ^ Z.of_nat n ->
  popcount m = Z.of_nat (length (List.filter (fun c => Z.testbit m c) (seqZ 0 (Z.of_nat n)))).
Proof.
  induction n as [|n IH]; intros m Hm.
  - assert (m = 0) by (cbn in Hm; lia). subst. reflexivity.
  - rewrite count_low_bits, popcount_div2 by lia.
    rewrite IH.
    + destruct (Z.odd m); cbn [Z.b2z Nat.b2n]; lia.
    + rewrite Z.div2_div. rewrite Nat2Z.inj_succ, Z.pow_succ_r in Hm by lia.
      split; [apply Z.div_pos; lia | apply Z.div_lt_upper_bound; lia].
Qed.

Lemma filter_flip_one (f g : Z -> bool) l c :
  NoDup l -> c ∈ l -> f c = false -> g c = true ->
  (forall x, x <> c -> g x = f x) ->
  length (List.filter g l) = S (length (List.filter f l)).
Proof.
  intros Hnd Hin Hf Hg Hother. induction Hnd as [|x l Hx Hnd IH].
  - inversion Hin.
  - cbn. destruct (Z.eq_dec x c) as [->|Hne].
    + rewrite Hf, Hg. cbn. f_equal. f_equal.
      apply List.filter_ext_in. intros y Hy. apply Hother.
      intros ->. apply Hx, list_elem_of_In, Hy.
    + rewrite (Hother x Hne). apply elem_of_cons in Hin as [->|Hin]; [contradiction|].
      destruct (f x); cbn; rewrite (IH Hin); reflexivity.
Qed.

Lemma add_card_val mask c :
  0 <= c < 64 -> add_card mask c = Val (Z.lor mask (2 ^ c)).
Proof. intros H. unfold add_card. rewrite card_to_mask_val by exact H. reflexivity. Qed.

Lemma remove_card_val mask c :
  0 <= c < 64 -> remove_card mask c = Val (Z.land mask (Z.lxor (2 ^ c) (Z.ones 64))).
Proof. intros H. unfold remove_card. rewrite card_to_mask_val by exact H. reflexivity. Qed.

Lemma added_bits mask c i :
  0 <= c -> 0 <= i ->
  Z.testbit (Z.lor mask (2 ^ c)) i = Z.testbit mask i || (c =? i).
Proof. intros Hc Hi. rewrite Z.lor_spec, Z.pow2_bits_eqb by lia. reflexivity. Qed.

Lemma removed_bits mask c i :
  0 <= mask < 2 ^ 64 -> 0 <= c -> 0 <= i ->
  Z.testbit (Z.land mask (Z.lxor (2 ^ c) (Z.ones 64))) i
  = Z.testbit mask i && negb (c =? i).
Proof.
  intros Hm Hc Hi. rewrite Z.land_spec, Z.lxor_spec, Z.pow2_bits_eqb by lia.
  destruct (Z.lt_ge_cases i 64) as [Hlt|Hge].
  - rewrite Z.ones_spec_low by lia. rewrite xorb_true_r. reflexivity.
  - apply (testbit_range mask 64 ltac:(lia)) in Hm as [_ Hhigh].
    rewrite (Hhigh i Hge). reflexivity.
Qed.

Lemma added_range mask c :
  0 <= mask < 2 ^ 64 -> 0 <= c < 64 -> 0 <= Z.lor mask (2 ^ c) < 2 ^ 64.
Proof.
  intros Hm Hc. apply (testbit_range _ 64 ltac:(lia)). split.
  - apply Z.lor_nonneg. split; [lia | apply Z.pow_nonneg; lia].
  - intros i Hi. rewrite added_bits by lia.
    apply (testbit_range mask 64 ltac:(lia)) in Hm as [_ Hhigh].
    rewrite (Hhigh i Hi). destruct (Z.eqb_spec c i); [lia | reflexivity].
Qed.

Lemma removed_range mask c :
  0 <= mask < 2 ^ 64 -> 0 <= c < 64 ->
  0 <= Z.land mask (Z.lxor (2 ^ c) (Z.ones 64)) < 2 ^ 64.
Proof.
  intros Hm Hc. apply (testbit_range _ 64 ltac:(lia)). split.
  - apply Z.land_nonneg. left. lia.
  - intros i Hi. rewrite removed_bits by lia.
    apply (testbit_range mask 64 ltac:(lia)) in Hm as [_ Hhigh].
    rewrite (Hhigh i Hi). reflexivity.
Qed.

Lemma count_cards_held mask :
  0 <= mask < 2 ^ 64 -> count_cards mask = Z.of_nat (length (held mask)).
Proof.
  intros Hm. unfold count_cards. rewrite held_testbit.
  exact (popcount_count 64 mask Hm).
Qed.

End CardFacts.

(** X1.  Encoding a rank and a suit with [make_card] and reading them back
    with [get_rank] and [get_suit] is the identity on the 13 ranks and 4
    suits, the card lies in [0 .. 51], and every card of that range is the
    encoding of its own rank and suit; the C entry points agree. *)
Theorem make_card_round_trip (rank suit : Z) :
  0 <= rank < 13 -> 0 <= suit < 4 ->
  let card := PokerCore.make_card rank suit in
  0 <= card < PokerCore.DECK_SIZE /\
  PokerCore.get_rank card = rank /\ PokerCore.get_suit card = suit /\
  PokerCore.create_card_c rank suit = card /\
  PokerCore.get_rank_c card = rank /\ PokerCore.get_suit_c card = suit /\
  (forall c, 0 <= c < PokerCore.DECK_SIZE ->
     0 <= PokerCore.get_rank c < 13 /\ 0 <= PokerCore.get_suit c < 4 /\
     PokerCore.make_card (PokerCore.get_rank c) (PokerCore.get_suit c) = c).
Proof.
  intros Hr Hs card.
  destruct (make_card_decode rank suit Hr Hs) as [Hc [Hrank Hsuit]].
  repeat split; try assumption; try (change PokerCore.DECK_SIZE with 52; lia).
  - unfold PokerCore.create_card_c. rewrite !Z.mod_small by lia. reflexivity.
  - apply Z.mod_pos_bound. reflexivity.
  - apply Z.mod_pos_bound. reflexivity.
  - apply Z.div_pos; [lia | reflexivity].
  - unfold PokerCore.get_suit, PokerCore.RANK_COUNT.
    apply Z.div_lt_upper_bound; [lia|]. change PokerCore.DECK_SIZE with 52 in *. lia.
  - unfold PokerCore.make_card, PokerCore.get_rank, PokerCore.get_suit, PokerCore.RANK_COUNT.
    change PokerCore.DECK_SIZE with 52 in *.
    rewrite Z.mul_comm, <- Z.div_mod by lia. apply Z.mod_small. lia.
Qed.

Lemma make_card_round_trip_witness :
  let card := PokerCore.make_card 12 3 in
  0 <= card < PokerCore.DECK_SIZE /\
  PokerCore.get_rank card = 12 /\ PokerCore.get_suit card = 3 /\
  PokerCore.create_card_c 12 3 = card /\
  PokerCore.get_rank_c card = 12 /\ PokerCore.get_suit_c card = 3 /\
  (forall c, 0 <= c < PokerCore.DECK_SIZE ->
     0 <= PokerCore.get_rank c < 13 /\ 0 <= PokerCore.get_suit c < 4 /\
     PokerCore.make_card (PokerCore.get_rank c) (PokerCore.get_suit c) = c).
Proof. apply (make_card_round_trip 12 3); lia. Defined.

(** X2.  On a 64-bit mask and a card below 64, [add_card] and
    [remove_card] return a 64-bit mask in which [has_card] finds,
    respectively misses, that card and answers as before for every other
    card; removing a card just added to a mask that lacked it, or adding
    back a card just removed, restores the mask. *)
Theorem add_remove_has_card (mask c : Z) :
  0 <= mask < 2 ^ 64 -> 0 <= c < 64 ->
  exists added removed,
    PokerCore.add_card mask c = Val added /\
    PokerCore.remove_card mask c = Val removed /\
    0 <= added < 2 ^ 64 /\ 0 <= removed < 2 ^ 64 /\
    PokerCore.has_card added c = Val true /\
    PokerCore.has_card removed c = Val false /\
    (forall c', 0 <= c' < 64 -> c' <> c ->
       PokerCore.has_card added c' = PokerCore.has_card mask c' /\
       PokerCore.has_card removed c' = PokerCore.has_card mask c') /\
    (PokerCore.has_card mask c = Val false -> PokerCore.remove_card added c = Val mask) /\
    (PokerCore.has_card mask c = Val true -> PokerCore.add_card removed c = Val mask).
Proof.
  intros Hm Hc.
  exists (Z.lor mask (2 ^ c)), (Z.land mask (Z.lxor (2 ^ c) (Z.ones 64))).
  split; [apply add_card_val, Hc|]. split; [apply remove_card_val, Hc|].
  split; [apply added_range; assumption|]. split; [apply removed_range; assumption|].
  rewrite !has_card_testbit by exact Hc.
  rewrite added_bits, removed_bits by lia. rewrite Z.eqb_refl, orb_true_r, andb_false_r.
  split; [reflexivity|]. split; [reflexivity|]. split; [|split].
  - intros c' Hc' Hne. rewrite !has_card_testbit by exact Hc'.
    rewrite added_bits, removed_bits by lia.
    destruct (Z.eqb_spec c c'); [congruence|].
    rewrite orb_false_r, andb_true_r. split; reflexivity.
  - intros [= Habsent]. rewrite remove_card_val by exact Hc. f_equal.
    apply Z.bits_inj'. intros i Hi.
    rewrite removed_bits by (try apply added_range; lia). rewrite added_bits by lia.
    destruct (Z.eqb_spec c i) as [->|_]; [rewrite Habsent; reflexivity|].
    rewrite orb_false_r, andb_true_r. reflexivity.
  - intros [= Hpresent]. rewrite add_card_val by exact Hc. f_equal.
    apply Z.bits_inj'. intros i Hi.
    rewrite added_bits by lia. rewrite removed_bits by lia.
    destruct (Z.eqb_spec c i) as [->|_]; [rewrite Hpresent; reflexivity|].
    rewrite orb_false_r, andb_true_r. reflexivity.
Qed.

Lemma add_remove_has_card_witness :
  exists added removed,
    PokerCore.add_card 5 12 = Val added /\
    PokerCore.remove_card 5 12 = Val removed /\
    0 <= added < 2 ^ 64 /\ 0 <= removed < 2 ^ 64 /\
    PokerCore.has_card added 12 = Val true /\
    PokerCore.has_card removed 12 = Val false /\
    (forall c', 0 <= c' < 64 -> c' <> 12 ->
       PokerCore.has_card added c' = PokerCore.has_card 5 c' /\
       PokerCore.has_card removed c' = PokerCore.has_card 5 c') /\
    (PokerCore.has_card 5 12 = Val false -> PokerCore.remove_card added 12 = Val 5) /\
    (PokerCore.has_card 5 12 = Val true -> PokerCore.add_card removed 12 = Val 5).
Proof. apply (add_remove_has_card 5 12); lia. Defined.

(** X3.  [count_cards] is the number of cards [has_card] finds in the
    mask; adding a card the mask lacks raises it by one and removing a card
    the mask holds lowers it by one. *)
Theorem count_cards_counts_held (mask c : Z) :
  0 <= mask < 2 ^ 64 -> 0 <= c < 64 ->
  PokerCore.count_cards mask = Z.of_nat (length (PokerCore.held mask)) /\
  (forall added, PokerCore.has_card mask c = Val false ->
     PokerCore.add_card mask c = Val added ->
     PokerCore.count_cards added = PokerCore.count_cards mask + 1) /\
  (forall removed, PokerCore.has_card mask c = Val true ->
     PokerCore.remove_card mask c = Val removed ->
     PokerCore.count_cards removed = PokerCore.count_cards mask - 1).
Proof.
  intros Hm Hc. split; [apply count_cards_held, Hm|].
  assert (Hin : c ∈ seqZ 0 64) by (apply elem_of_seqZ; lia).
  rewrite has_card_testbit by exact Hc. split.
  - intros added [= Habsent]. rewrite add_card_val by exact Hc. intros [= <-].
    rewrite !count_cards_held by (try apply added_range; assumption).
    rewrite !held_testbit.
    rewrite (filter_flip_one (fun i => Z.testbit mask i)
               (fun i => Z.testbit (Z.lor mask (2 ^ c)) i) (seqZ 0 64) c).
    + lia.
    + apply NoDup_seqZ.
    + exact Hin.
    + exact Habsent.
    + rewrite added_bits, Z.eqb_refl by lia. apply orb_true_r.
    + intros x Hx. destruct (Z.lt_ge_cases x 0) as [Hneg|Hpos].
      * rewrite !Z.testbit_neg_r by lia. reflexivity.
      * rewrite added_bits by lia. destruct (Z.eqb_spec c x); [congruence|].
        apply orb_false_r.
  - intros removed [= Hpresent]. rewrite remove_card_val by exact Hc. intros [= <-].
    rewrite !count_cards_held by (try apply removed_range; assumption).
    rewrite !held_testbit.
    rewrite (filter_flip_one
               (fun i => Z.testbit (Z.land mask (Z.lxor (2 ^ c) (Z.ones 64))) i)
               (fun i => Z.testbit mask i) (seqZ 0 64) c).
    + lia.
    + apply NoDup_seqZ.
    + exact Hin.
    + rewrite removed_bits, Z.eqb_refl by lia. apply andb_false_r.
    + exact Hpresent.
    + intros x Hx. destruct (Z.lt_ge_cases x 0) as [Hneg|Hpos].
      * rewrite !Z.testbit_neg_r by lia. reflexivity.
      * rewrite removed_bits by lia. destruct (Z.eqb_spec c x); [congruence|].
        symmetry. apply andb_true_r.
Qed.

Lemma count_cards_counts_held_witness :
  PokerCore.count_cards 5 = Z.of_nat (length (PokerCore.held 5)) /\
  (forall added, PokerCore.has_card 5 12 = Val false ->
     PokerCore.add_card 5 12 = Val added ->
     PokerCore.count_cards added = PokerCore.count_cards 5 + 1) /\
  (forall removed, PokerCore.has_card 5 12 = Val true ->
     PokerCore.remove_card 5 12 = Val removed ->
     PokerCore.count_cards removed = PokerCore.count_cards 5 - 1).
Proof. apply (count_cards_counts_held 5 12); lia. Defined.

(** ** The deck *)

Section DeckFacts.
Import PokerCore.

Lemma read_lookup {A : Type} (a : list A) (i : Z) (x : A) :
  0 <= i -> a !! Z.to_nat i = Some x -> read a i = Val x.
Proof.
  intros Hi Hx. unfold read. destruct (Z.ltb_spec i 0); [lia|]. rewrite Hx. reflexivity.
Qed.

Lemma write_insert {A : Type} (a : list A) (i : Z) (x : A) :
  0 <= i < Z.of_nat (length a) -> write a i x = Val (<[Z.to_nat i := x]> a).
Proof.
  intros Hi. unfold write.
  destruct (Z.leb_spec 0 i), (Z.ltb_spec i (Z.of_nat (length a))); try lia. reflexivity.
Qed.

(** Exchanging two cells of an array permutes it. *)
Lemma swap_permutation {A : Type} (a : list A) (i j : nat) (x y : A) :
  a !! i = Some x -> a !! j = Some y ->
  <[j := x]> (<[i := y]> a) ≡ₚ a.
Proof.
  intros Hx Hy. destruct (decide (i = j)) as [->|Hne].
  - rewrite list_insert_insert_eq. assert (x = y) by congruence. subst.
    rewrite list_insert_id by exact Hx. reflexivity.
  - symmetry. apply Permutation_inj. split.
    + rewrite !length_insert. reflexivity.
    + exists (fun k => if decide (k = i) then j else if decide (k = j) then i else k).
      split.
      * intros k1 k2. repeat case_decide; congruence.
      * intros k. repeat case_decide; subst.
        -- rewrite list_lookup_insert_eq by (rewrite length_insert; eapply lookup_lt_Some, Hy). 
           exact Hx.
        -- rewrite list_lookup_insert_ne by congruence.
           rewrite list_lookup_insert_eq by (eapply lookup_lt_Some, Hx). exact Hy.
        -- rewrite !list_lookup_insert_ne by congruence. reflexivity.
Qed.

Lemma swap_cells (cs : list Z) (i j : Z) :
  0 <= i < Z.of_nat (length cs) -> 0 <= j < Z.of_nat (length cs) ->
  exists ci cj c1 c2,
    read cs i = Val ci /\ read cs j = Val cj /\
    write cs i cj = Val c1 /\ write c1 j ci = Val c2 /\
    c2 ≡ₚ cs /\ length c2 = length cs.
Proof.
  intros Hi Hj.
  destruct (lookup_lt_is_Some_2 cs (Z.to_nat i) ltac:(lia)) as [ci Hci].
  destruct (lookup_lt_is_Some_2 cs (Z.to_nat j) ltac:(lia)) as [cj Hcj].
  exists ci, cj, (<[Z.to_nat i := cj]> cs), (<[Z.to_nat j := ci]> (<[Z.to_nat i := cj]> cs)).
  split; [apply read_lookup; [lia | exact Hci]|].
  split; [apply read_lookup; [lia | exact Hcj]|].
  split; [apply write_insert; lia|].
  split; [apply write_insert; rewrite length_insert; lia|].
  split; [apply swap_permutation; assumption | rewrite !length_insert; reflexivity].
Qed.

Lemma deck_shuffle_loop n : forall cs seed,
  (n < length cs)%nat ->
  exists cs', Deck.shuffle_loop n cs seed = Val cs' /\ cs' ≡ₚ cs.
Proof.
  induction n as [|n IH]; intros cs seed Hn; [exists cs; split; reflexivity|].
  cbn [Deck.shuffle_loop].
  set (i := Z.of_nat (S n)). set (j := Deck.xorshift seed mod (i + 1)).
  assert (Hj : 0 <= j < i + 1) by (apply Z.mod_pos_bound; lia).
  destruct (swap_cells cs i j ltac:(lia) ltac:(lia))
    as (ci & cj & c1 & c2 & -> & -> & Hw1 & Hw2 & Hperm & Hlen).
  cbn. rewrite Hw1. cbn. rewrite Hw2. cbn.
  destruct (IH c2 (Deck.xorshift seed) ltac:(lia)) as (cs' & -> & Hperm').
  exists cs'. split; [reflexivity | etrans; eassumption].
Qed.

Lemma deal_n_cards n : forall d,
  0 <= Deck.position d ->
  Deck.position d + Z.of_nat n <= DECK_SIZE ->
  length (Deck.cards d) = Z.to_nat DECK_SIZE ->
  Deck.deal_n n d
  = Val (Some (take n (drop (Z.to_nat (Deck.position d)) (Deck.cards d)),
               {| Deck.cards := Deck.cards d;
                  Deck.position := Deck.position d + Z.of_nat n |})).
Proof.
  induction n as [|n IH]; intros [cs pos] Hpos Hn Hlen; cbn [Deck.cards Deck.position] in *.
  - cbn. rewrite Z.add_0_r. reflexivity.
  - cbn [Deck.deal_n]. unfold Deck.deal. cbn [Deck.cards Deck.position].
    destruct (Z.ltb_spec pos DECK_SIZE); [|lia].
    destruct (lookup_lt_is_Some_2 cs (Z.to_nat pos) ltac:(lia)) as [c Hc].
    rewrite (read_lookup cs pos c Hpos Hc). cbn.
    rewrite IH by (cbn; lia). cbn.
    rewrite Z2Nat.inj_add by lia. change (Z.to_nat 1) with 1%nat.
    rewrite (drop_S cs c (Z.to_nat pos) Hc). cbn.
    rewrite Nat.add_1_r. do 4 f_equal. lia.
Qed.

Lemma deal_n_assertion n : forall d,
  0 <= Deck.position d <= DECK_SIZE ->
  length (Deck.cards d) = Z.to_nat DECK_SIZE ->
  DECK_SIZE < Deck.position d + Z.of_nat n ->
  Deck.deal_n n d = Val None.
Proof.
  induction n as [|n IH]; intros [cs pos] Hpos Hlen Hn; cbn [Deck.cards Deck.position] in *.
  - lia.
  - cbn [Deck.deal_n]. unfold Deck.deal. cbn [Deck.cards Deck.position].
    destruct (Z.ltb_spec pos DECK_SIZE); [|reflexivity].
    destruct (lookup_lt_is_Some_2 cs (Z.to_nat pos) ltac:(lia)) as [c Hc].
    rewrite (read_lookup cs pos c ltac:(lia) Hc). cbn.
    rewrite IH by (cbn; lia). reflexivity.
Qed.

(** The first loop of [exclude_cards] from cell [i] on: the cards kept so
    far stay, the kept ones of the rest follow them. *)
Lemma exclude_loop_spec excluded n : forall i cs write_pos,
  0 <= write_pos <= i ->
  i + Z.of_nat n = Z.of_nat (length cs) ->
  Forall (fun c => 0 <= c < 64) (drop (Z.to_nat i) cs) ->
  exists cs',
    Deck.exclude_loop n i excluded cs write_pos
    = Val (cs', write_pos
                + Z.of_nat (length (List.filter (fun c => negb (Z.testbit excluded c))
                                                (drop (Z.to_nat i) cs)))) /\
    length cs' = length cs /\
    take (Z.to_nat write_pos
          + length (List.filter (fun c => negb (Z.testbit excluded c))
                                (drop (Z.to_nat i) cs))) cs'
    = take (Z.to_nat write_pos) cs
      ++ List.filter (fun c => negb (Z.testbit excluded c)) (drop (Z.to_nat i) cs).
Proof.
  induction n as [|n IH]; intros i cs wp Hwp Hlen Hvalid.
  - rewrite drop_ge by lia. cbn. exists cs. rewrite Z.add_0_r, Nat.add_0_r, app_nil_r.
    repeat split.
  - cbn [Deck.exclude_loop].
    destruct (lookup_lt_is_Some_2 cs (Z.to_nat i) ltac:(lia)) as [c Hc].
    rewrite (read_lookup cs i c ltac:(lia) Hc). cbn.
    rewrite (drop_S cs c (Z.to_nat i) Hc) in Hvalid |- *.
    apply Forall_cons in Hvalid as [Hcv Hvalid].
    rewrite has_card_testbit by exact Hcv. cbn [mbind res_bind List.filter].
    replace (S (Z.to_nat i)) with (Z.to_nat (i + 1)) in * by lia.
    destruct (Z.testbit excluded c); cbn [negb].
    + apply IH; [lia | lia | exact Hvalid].
    + rewrite write_insert by lia. cbn [mbind res_bind].
      destruct (IH (i + 1) (<[Z.to_nat wp := c]> cs) (wp + 1)) as (cs' & Heq & Hlen' & Htake).
      * lia.
      * rewrite length_insert. lia.
      * rewrite drop_insert_lt by lia. exact Hvalid.
      * rewrite drop_insert_lt in Heq, Htake by lia.
        exists cs'. cbn [length]. split; [|split].
        -- rewrite Heq. do 2 f_equal. lia.
        -- rewrite Hlen', length_insert. reflexivity.
        -- replace (Z.to_nat wp + S _)%nat with
             (Z.to_nat (wp + 1)
              + length (List.filter (fun c => negb (Z.testbit excluded c))
                                    (drop (Z.to_nat (i + 1)) cs)))%nat by lia.
           rewrite Htake. 
           replace (Z.to_nat (wp + 1)) with (S (Z.to_nat wp)) by lia.
           rewrite (take_S_r _ _ c) by (apply list_lookup_insert_eq; lia).
           rewrite take_insert_ge by lia. rewrite <- app_assoc. reflexivity.
Qed.

Lemma invalidate_loop_spec n : forall i cs,
  0 <= i -> i + Z.of_nat n = Z.of_nat (length cs) ->
  Deck.invalidate_loop n i cs = Val (take (Z.to_nat i) cs ++ replicate n 255).
Proof.
  induction n as [|n IH]; intros i cs Hi Hlen.
  - cbn. rewrite take_ge by lia. rewrite app_nil_r. reflexivity.
  - cbn [Deck.invalidate_loop]. rewrite write_insert by lia. cbn [mbind res_bind].
    rewrite IH by (rewrite ?length_insert; lia).
    replace (Z.to_nat (i + 1)) with (S (Z.to_nat i)) by lia.
    rewrite (take_S_r _ _ 255) by (apply list_lookup_insert_eq; lia).
    rewrite take_insert_ge by lia. rewrite <- app_assoc. reflexivity.
Qed.

Lemma drop_cons_inv {A : Type} (l : list A) (n : nat) (x : A) (t : list A) :
  drop n l = x :: t -> l !! n = Some x /\ drop (S n) l = t.
Proof.
  intros H. split.
  - rewrite <- (Nat.add_0_r n), <- lookup_drop, H. reflexivity.
  - replace (S n) with (n + 1)%nat by lia. rewrite <- drop_drop, H. reflexivity.
Qed.

Lemma filter_length_lt {A : Type} (f : A -> bool) (l : list A) (x : A) :
  x ∈ l -> f x = false -> (length (List.filter f l) < length l)%nat.
Proof.
  intros Hin Hf. induction Hin as [x l|x y l Hin IH]; cbn.
  - rewrite Hf. pose proof (List.filter_length_le f l). lia.
  - specialize (IH Hf). destruct (f y); cbn; lia.
Qed.

(** The first loop of [exclude_cards] stops at the first invalid marker. *)
Lemma exclude_loop_marker excluded good : forall n i cs write_pos rest,
  0 <= write_pos <= i ->
  drop (Z.to_nat i) cs = good ++ 255 :: rest ->
  (length good < n)%nat ->
  Forall (fun c => 0 <= c < 64) good ->
  Deck.exclude_loop n i excluded cs write_pos = Undef (ShiftTooWide 255).
Proof.
  induction good as [|c good IH]; intros n i cs wp rest Hwp Hdrop Hn Hvalid;
    (destruct n as [|n]; [cbn in Hn; lia|]); cbn [Deck.exclude_loop];
    apply drop_cons_inv in Hdrop as [Hc Hdrop];
    rewrite (read_lookup cs i _ ltac:(lia) Hc); cbn [mbind res_bind].
  - reflexivity.
  - apply Forall_cons in Hvalid as [Hcv Hvalid].
    rewrite has_card_testbit by exact Hcv. cbn [mbind res_bind].
    replace (S (Z.to_nat i)) with (Z.to_nat (i + 1)) in Hdrop by lia.
    cbn [length] in Hn.
    destruct (Z.testbit excluded c).
    + apply (IH n (i + 1) cs wp rest); [lia | exact Hdrop | lia | exact Hvalid].
    + pose proof (lookup_lt_Some _ _ _ Hc) as Hlt.
      rewrite write_insert by lia. cbn [mbind res_bind].
      apply (IH n (i + 1) _ (wp + 1) rest); [lia | | lia | exact Hvalid].
      rewrite drop_insert_lt by lia. exact Hdrop.
Qed.

Lemma exclude_cards_val excluded d :
  length (Deck.cards d) = 52%nat ->
  Forall (fun c => 0 <= c < 64) (Deck.cards d) ->
  let kept := List.filter (fun c => negb (Z.testbit excluded c)) (Deck.cards d) in
  Deck.exclude_cards excluded d
  = Val {| Deck.cards := kept ++ replicate (52 - length kept) 255;
           Deck.position := Deck.position d |}.
Proof.
  intros Hlen Hvalid kept. unfold Deck.exclude_cards.
  change (Z.to_nat DECK_SIZE) with 52%nat. change DECK_SIZE with 52.
  destruct (exclude_loop_spec excluded 52 0 (Deck.cards d) 0)
    as (cs' & Heq & Hlen' & Htake); [lia | lia | exact Hvalid |].
  change (Z.to_nat 0) with 0%nat in Heq, Htake.
  rewrite drop_0 in Heq, Htake. rewrite take_0, Nat.add_0_l, app_nil_l in Htake.
  rewrite Z.add_0_l in Heq. fold kept in Heq, Htake.
  rewrite Heq. cbn [mbind res_bind].
  assert (Hk : (length kept <= length (Deck.cards d))%nat) by apply List.filter_length_le.
  rewrite invalidate_loop_spec by lia. cbn [mbind res_bind].
  rewrite Nat2Z.id, Htake.
  replace (Z.to_nat (52 - Z.of_nat (length kept))) with (52 - length kept)%nat by lia.
  reflexivity.
Qed.

End DeckFacts.

(** X4.  On a deck at a position within [0 .. 52], [n] calls of [deal]
    return the next [n] cells of the array in order and advance the
    position by [n] as long as [position + n] does not exceed 52; a call
    at position 52 fails the assertion.  After [reset] the deals start
    again from the first cell. *)
Theorem deal_in_order (d : PokerCore.Deck.Deck) (n : nat) :
  length (PokerCore.Deck.cards d) = 52%nat ->
  0 <= PokerCore.Deck.position d <= 52 ->
  (PokerCore.Deck.position d + Z.of_nat n <= 52 ->
   PokerCore.Deck.deal_n n d
   = Val (Some (take n (drop (Z.to_nat (PokerCore.Deck.position d))
                             (PokerCore.Deck.cards d)),
                {| PokerCore.Deck.cards := PokerCore.Deck.cards d;
                   PokerCore.Deck.position := PokerCore.Deck.position d + Z.of_nat n |}))) /\
  (52 < PokerCore.Deck.position d + Z.of_nat n ->
   PokerCore.Deck.deal_n n d = Val None) /\
  ((n <= 52)%nat ->
   PokerCore.Deck.deal_n n (PokerCore.Deck.reset d)
   = Val (Some (take n (PokerCore.Deck.cards d),
                {| PokerCore.Deck.cards := PokerCore.Deck.cards d;
                   PokerCore.Deck.position := Z.of_nat n |}))).
Proof.
  intros Hlen Hpos. split; [|split].
  - intros Hn. apply deal_n_cards; [lia | exact Hn | exact Hlen].
  - intros Hn. apply deal_n_assertion; [exact Hpos | exact Hlen | exact Hn].
  - intros Hn. rewrite deal_n_cards.
    + reflexivity.
    + cbn. lia.
    + change PokerCore.DECK_SIZE with 52. cbn. lia.
    + exact Hlen.
Qed.

Lemma deal_in_order_witness :
  PokerCore.Deck.deal_n 3 PokerCore.Deck.new_deck
  = Val (Some ([0; 1; 2],
               {| PokerCore.Deck.cards := PokerCore.Deck.cards PokerCore.Deck.new_deck;
                  PokerCore.Deck.position := 3 |})) /\
  PokerCore.Deck.deal_n 53 PokerCore.Deck.new_deck = Val None.
Proof.
  destruct (deal_in_order PokerCore.Deck.new_deck 3) as [H _];
    [reflexivity | cbn; lia |].
  destruct (deal_in_order PokerCore.Deck.new_deck 53) as [_ [H' _]];
    [reflexivity | cbn; lia |].
  split; [apply H; cbn; lia | apply H'; cbn; lia].
Defined.

(** X5.  [shuffle] returns for every seed, whatever 52 cards the deck
    holds: it leaves a permutation of them in the array and sets the
    position back to 0, so the 52 deals that follow return every card of
    the deck exactly as often as the deck held it. *)
Theorem shuffle_permutes (d : PokerCore.Deck.Deck) (seed : Z) :
  length (PokerCore.Deck.cards d) = 52%nat ->
  exists cs,
    PokerCore.Deck.shuffle seed d
    = Val {| PokerCore.Deck.cards := cs; PokerCore.Deck.position := 0 |} /\
    cs ≡ₚ PokerCore.Deck.cards d /\
    PokerCore.Deck.deal_n 52
      {| PokerCore.Deck.cards := cs; PokerCore.Deck.position := 0 |}
    = Val (Some (cs, {| PokerCore.Deck.cards := cs; PokerCore.Deck.position := 52 |})).
Proof.
  intros Hlen. unfold PokerCore.Deck.shuffle.
  change (Z.to_nat (PokerCore.DECK_SIZE - 1)) with 51%nat.
  destruct (deck_shuffle_loop 51 (PokerCore.Deck.cards d) seed) as (cs & -> & Hperm);
    [lia|].
  exists cs. split; [reflexivity|]. split; [exact Hperm|].
  assert (Hlen' : length cs = 52%nat) by (rewrite (Permutation_length Hperm); exact Hlen).
  rewrite deal_n_cards.
  - cbn [PokerCore.Deck.cards PokerCore.Deck.position].
    change (Z.to_nat 0) with 0%nat. rewrite drop_0, take_ge by lia. reflexivity.
  - cbn. lia.
  - change PokerCore.DECK_SIZE with 52. cbn. lia.
  - exact Hlen'.
Qed.

Lemma shuffle_permutes_witness :
  exists cs,
    PokerCore.Deck.shuffle 42 PokerCore.Deck.new_deck
    = Val {| PokerCore.Deck.cards := cs; PokerCore.Deck.position := 0 |} /\
    cs ≡ₚ PokerCore.Deck.cards PokerCore.Deck.new_deck /\
    PokerCore.Deck.deal_n 52
      {| PokerCore.Deck.cards := cs; PokerCore.Deck.position := 0 |}
    = Val (Some (cs, {| PokerCore.Deck.cards := cs; PokerCore.Deck.position := 52 |})).
Proof. apply (shuffle_permutes PokerCore.Deck.new_deck 42). reflexivity. Defined.

(** X6.  On a deck of 52 cards below 64, [exclude_cards] moves the cards
    outside the mask to the front in their order, fills the rest of the
    array with the marker 255 and leaves the position where it was. *)
Theorem exclude_cards_filters (excluded : Z) (d : PokerCore.Deck.Deck) :
  length (PokerCore.Deck.cards d) = 52%nat ->
  Forall (fun c => 0 <= c < 64) (PokerCore.Deck.cards d) ->
  let kept := List.filter (fun c => negb (Z.testbit excluded c)) (PokerCore.Deck.cards d) in
  PokerCore.Deck.exclude_cards excluded d
  = Val {| PokerCore.Deck.cards := kept ++ replicate (52 - length kept) 255;
           PokerCore.Deck.position := PokerCore.Deck.position d |}.
Proof. intros Hlen Hvalid. apply exclude_cards_val; assumption. Qed.

Lemma exclude_cards_filters_witness :
  PokerCore.Deck.exclude_cards 5 PokerCore.Deck.new_deck
  = Val {| PokerCore.Deck.cards := [1] ++ seqZ 3 49 ++ [255; 255];
           PokerCore.Deck.position := 0 |}.
Proof.
  rewrite (exclude_cards_filters 5 PokerCore.Deck.new_deck).
  - reflexivity.
  - reflexivity.
  - apply Forall_forall. intros c Hc. apply elem_of_seqZ in Hc.
    change PokerCore.DECK_SIZE with 52 in Hc. lia.
Defined.

(** X7.  [exclude_cards] cannot be applied twice: once a call has removed
    at least one card, the array holds the marker 255, and the next call,
    whatever its mask, evaluates [1ULL << 255] in [has_card], a shift by
    more than the width of the type. *)
Theorem exclude_cards_twice_undefined (excluded excluded' : Z)
    (d d' : PokerCore.Deck.Deck) (c : Z) :
  length (PokerCore.Deck.cards d) = 52%nat ->
  Forall (fun c => 0 <= c < 64) (PokerCore.Deck.cards d) ->
  c ∈ PokerCore.Deck.cards d -> Z.testbit excluded c = true ->
  PokerCore.Deck.exclude_cards excluded d = Val d' ->
  PokerCore.Deck.exclude_cards excluded' d' = Undef (ShiftTooWide 255).
Proof.
  intros Hlen Hvalid Hc Hex. rewrite exclude_cards_val by assumption. intros [= <-].
  set (kept := List.filter (fun c => negb (Z.testbit excluded c)) (PokerCore.Deck.cards d)).
  assert (Hk : (length kept < 52)%nat).
  { rewrite <- Hlen. apply (filter_length_lt _ _ c Hc). rewrite Hex. reflexivity. }
  unfold PokerCore.Deck.exclude_cards. cbn [PokerCore.Deck.cards].
  set (k := (52 - length kept - 1)%nat).
  replace (52 - length kept)%nat with (S k) by lia.
  rewrite (exclude_loop_marker excluded' kept _ 0 _ 0 (replicate k 255)).
  - reflexivity.
  - lia.
  - reflexivity.
  - change (Z.to_nat PokerCore.DECK_SIZE) with 52%nat. exact Hk.
  - apply Forall_forall. intros x Hx. apply list_elem_of_In, List.filter_In in Hx as [Hx _].
    rewrite Forall_forall in Hvalid. apply Hvalid, list_elem_of_In, Hx.
Qed.

Lemma exclude_cards_twice_undefined_witness :
  PokerCore.Deck.exclude_cards 3
    {| PokerCore.Deck.cards := [1] ++ seqZ 3 49 ++ [255; 255];
       PokerCore.Deck.position := 0 |}
  = Undef (ShiftTooWide 255).
Proof.
  apply (exclude_cards_twice_undefined 5 3 PokerCore.Deck.new_deck _ 0).
  - reflexivity.
  - apply Forall_forall. intros c Hc. apply elem_of_seqZ in Hc.
    change PokerCore.DECK_SIZE with 52 in Hc. lia.
  - apply elem_of_seqZ. change PokerCore.DECK_SIZE with 52. lia.
  - reflexivity.
  - reflexivity.
Defined.

(** ** Straights *)

Section StraightFacts.
Import PokerCore PokerEval RankMask.

Lemma land_all_bits m k :
  0 <= k ->
  (Z.land m k = k <-> forall j, 0 <= j -> Z.testbit k j = true -> Z.testbit m j = true).
Proof.
  intros Hk. split.
  - intros H j Hj Hb. rewrite <- H, Z.land_spec in Hb. apply andb_prop in Hb. tauto.
  - intros H. apply Z.bits_inj'. intros n Hn. rewrite Z.land_spec.
    destruct (Z.testbit k n) eqn:E; [rewrite (H n Hn E); reflexivity | apply andb_false_r].
Qed.

Lemma window_run m i :
  0 <= i -> (Z.land (Z.shiftr m i) 31 =? 31) = true <-> run_at m i.
Proof.
  intros Hi. rewrite Z.eqb_eq, land_all_bits by lia. unfold run_at. split.
  - intros H j Hj. rewrite Z.add_comm, <- Z.shiftr_spec by lia. apply H; [lia|].
    change 31 with (Z.ones 5). apply Z.ones_spec_low. lia.
  - intros H j Hj Hb. rewrite Z.shiftr_spec, Z.add_comm by lia. apply H.
    destruct (Z.lt_ge_cases j 5); [lia|].
    change 31 with (Z.ones 5) in Hb. rewrite Z.ones_spec_high in Hb by lia. discriminate.
Qed.

Lemma wheel_bits j :
  0 <= j -> Z.testbit 4111 j = (j =? 12) || (j <? 4).
Proof.
  intros Hj. destruct (Z.lt_ge_cases j 13) as [Hlt|Hge].
  - assert (Hcase : j = 0 \/ j = 1 \/ j = 2 \/ j = 3 \/ j = 4 \/ j = 5 \/ j = 6 \/ j = 7
                    \/ j = 8 \/ j = 9 \/ j = 10 \/ j = 11 \/ j = 12) by lia.
    repeat (destruct Hcase as [->|Hcase]; [reflexivity|]). subst. reflexivity.
  - rewrite Z.bits_above_log2 by (change (Z.log2 4111) with 12; lia).
    destruct (Z.eqb_spec j 12), (Z.ltb_spec j 4); try lia; reflexivity.
Qed.

Lemma wheel_test m : (Z.land m 4111 =? 4111) = true <-> wheel m.
Proof.
  rewrite Z.eqb_eq, land_all_bits by lia. unfold wheel. split.
  - intros H. split; [apply H; [lia | reflexivity]|].
    intros j Hj. apply H; [lia|]. rewrite wheel_bits by lia.
    destruct (Z.ltb_spec j 4); [apply orb_true_r | lia].
  - intros [H12 Hlow] j Hj Hb. rewrite wheel_bits in Hb by lia.
    apply orb_prop in Hb as [Hb|Hb].
    + apply Z.eqb_eq in Hb. subst. exact H12.
    + apply Z.ltb_lt in Hb. apply Hlow. lia.
Qed.

Lemma is_straight_loop_iff m n :
  is_straight_loop n m = true
  <-> (exists lo, 0 <= lo < Z.of_nat n /\ run_at m lo) \/ wheel m.
Proof.
  induction n as [|n IH].
  - cbn [is_straight_loop]. rewrite wheel_test. split; [tauto|].
    intros [[lo [Hlo _]]|H]; [cbn in Hlo; lia | exact H].
  - cbn [is_straight_loop].
    destruct (Z.land (Z.shiftr m (Z.of_nat n)) 31 =? 31) eqn:E.
    + apply window_run in E; [|lia]. split; [|reflexivity].
      intros _. left. exists (Z.of_nat n). split; [lia | exact E].
    + rewrite IH. split.
      * intros [[lo [Hlo Hrun]]|H]; [left; exists lo; split; [lia | exact Hrun] | tauto].
      * intros [[lo [Hlo Hrun]]|H]; [|tauto].
        destruct (Z.eq_dec lo (Z.of_nat n)) as [->|Hne].
        -- apply window_run in Hrun; [|lia]. congruence.
        -- left. exists lo. split; [lia | exact Hrun].
Qed.

(** [get_straight_high] from [i = n + 3] down: the highest run found, or 3. *)
Lemma get_straight_high_loop_spec m n :
  exists h, get_straight_high_loop n m = Val h /\
    3 <= h <= Z.of_nat n + 3 /\
    (forall i, h < i <= Z.of_nat n + 3 -> ~ run_at m (i - 4)) /\
    (4 <= h -> run_at m (h - 4)).
Proof.
  induction n as [|n IH].
  - exists 3. cbn. repeat split; try lia.
  - cbn [get_straight_high_loop]. unfold window, shr_int.
    replace (Z.of_nat n + 4 - 4) with (Z.of_nat n) by lia.
    destruct (Z.ltb_spec (Z.of_nat n) 0); [lia|]. cbn [mbind res_bind].
    destruct (Z.land (Z.shiftr m (Z.of_nat n)) 31 =? 31) eqn:E.
    + apply window_run in E; [|lia]. exists (Z.of_nat n + 4).
      split; [reflexivity|]. split; [lia|]. split; [intros i Hi; lia|].
      intros _. replace (Z.of_nat n + 4 - 4) with (Z.of_nat n) by lia. exact E.
    + destruct IH as (h & Hh & Hrange & Habove & Hrun). exists h.
      split; [exact Hh|]. split; [lia|]. split; [|exact Hrun].
      intros i Hi Hr. destruct (Z.eq_dec i (Z.of_nat n + 4)) as [->|Hne].
      * replace (Z.of_nat n + 4 - 4) with (Z.of_nat n) in Hr by lia.
        apply window_run in Hr; [|lia]. congruence.
      * apply (Habove i); [lia | exact Hr].
Qed.

Lemma run_gives_high m lo h :
  0 <= lo <= 8 -> run_at m lo ->
  get_straight_high m = Val h ->
  (forall i, h < i <= 12 -> ~ run_at m (i - 4)) ->
  4 <= h.
Proof.
  intros Hlo Hrun Hh Habove.
  destruct (Z.lt_ge_cases h 4) as [Hlt|Hge]; [|exact Hge].
  exfalso. apply (Habove (lo + 4)); [lia|].
  replace (lo + 4 - 4) with lo by lia. exact Hrun.
Qed.

Lemma straight_score_u16 category h :
  0 <= category < 16 -> 0 <= h < 16 ->
  to_u16 (Z.lor (Z.shiftl category 12) (Z.shiftl h 8))
  = Z.lor (Z.shiftl category 12) (Z.shiftl h 8).
Proof.
  intros Hc Hh. unfold to_u16. change 65535 with (Z.ones 16).
  rewrite Z.land_ones by lia. apply Z.mod_small.
  rewrite !Z.shiftl_mul_pow2 by lia.
  assert (Hdisj : Z.land (category * 2 ^ 12) (h * 2 ^ 8) = 0).
  { apply Z.bits_inj'. intros n Hn. rewrite Z.land_spec, Z.bits_0.
    destruct (Z.lt_ge_cases n 12).
    - rewrite Z.mul_pow2_bits_low by lia. reflexivity.
    - rewrite (Z.mul_pow2_bits h 8 n) by lia.
      rewrite (Z.bits_above_log2 h (n - 8)); [apply andb_false_r | lia |].
      destruct (Z.eq_dec h 0) as [->|]; [cbn; lia|].
      assert (Z.log2 h < 4) by (apply Z.log2_lt_pow2; lia). lia. }
  rewrite <- Z.add_nocarry_lor by exact Hdisj. lia.
Qed.

End StraightFacts.

(** X8.  [is_straight] and [is_straight_from_mask] answer true exactly on
    the masks that hold five ranks in a row, starting anywhere from the
    two to the ten, or the wheel's ace, two, three, four and five. *)
Theorem is_straight_detects_runs (mask : Z) :
  (PokerEval.is_straight mask = true
   <-> (exists lo, 0 <= lo <= 8 /\ RankMask.run_at mask lo) \/ RankMask.wheel mask) /\
  PokerEval.is_straight_from_mask mask = PokerEval.is_straight mask.
Proof.
  split; [|reflexivity]. unfold PokerEval.is_straight.
  rewrite is_straight_loop_iff. split.
  - intros [[lo [Hlo Hrun]]|H]; [left; exists lo; split; [lia | exact Hrun] | tauto].
  - intros [[lo [Hlo Hrun]]|H]; [left; exists lo; split; [lia | exact Hrun] | tauto].
Qed.

(** X9.  [get_straight_high] returns on every mask, with a rank between 3
    and 12: the top rank of the highest run of five the mask holds, and 3
    when it holds none, which on a mask accepted by
    [is_straight_from_mask] means the wheel. *)
Theorem get_straight_high_is_top_of_highest_run (mask : Z) :
  exists h, PokerEval.get_straight_high mask = Val h /\
    3 <= h <= 12 /\
    (forall i, h < i <= 12 -> ~ RankMask.run_at mask (i - 4)) /\
    (4 <= h -> RankMask.run_at mask (h - 4)) /\
    (PokerEval.is_straight_from_mask mask = true -> h = 3 -> RankMask.wheel mask).
Proof.
  destruct (get_straight_high_loop_spec mask 9) as (h & Hh & Hrange & Habove & Hrun).
  exists h. split; [exact Hh|]. split; [lia|]. split; [exact Habove|]. split; [exact Hrun|].
  intros Hs ->. apply is_straight_loop_iff in Hs as [[lo [Hlo Hr]]|Hw]; [|exact Hw].
  exfalso. apply (Habove (lo + 4)); [lia|].
  replace (lo + 4 - 4) with lo by lia. exact Hr.
Qed.

(** X10.  The tables score every straight apart from the wheel by its top
    card.  On a 13-bit mask that holds a run of five, the table builder's
    [get_highest_straight] shifts by non-negative counts only and finds
    the top rank [h] of the highest run; the flush table holds
    [8 << 12 | h << 8] there, and the five-card table [4 << 12 | h << 8]
    when the mask has exactly five bits. *)
Theorem tables_score_straights_by_top_card (mask lo : Z) :
  0 <= mask < 8192 -> 0 <= lo <= 8 -> RankMask.run_at mask lo ->
  exists h,
    lo + 4 <= h <= 12 /\ RankMask.run_at mask (h - 4) /\
    (forall i, h < i <= 12 -> ~ RankMask.run_at mask (i - 4)) /\
    PokerEval.get_highest_straight mask = Val h /\
    Forall (fun k => 0 <= k) (PokerEval.get_highest_straight_shifts mask) /\
    PokerEval.flush_lookup mask
    = Val (Z.lor (Z.shiftl PokerEval.RANK_STRAIGHT_FLUSH 12) (Z.shiftl h 8)) /\
    (popcount mask = 5 ->
     PokerEval.unique5_lookup mask
     = Val (Z.lor (Z.shiftl PokerEval.RANK_STRAIGHT 12) (Z.shiftl h 8))).
Proof.
  intros Hm Hlo Hrun.
  destruct (get_straight_high_loop_spec mask 9) as (h & Hh & Hrange & Habove & Hrunh).
  change (PokerEval.get_straight_high_loop 9 mask) with (PokerEval.get_straight_high mask) in Hh.
  assert (H4 : 4 <= h) by (apply (run_gives_high mask lo h); assumption).
  assert (Hlo4 : lo + 4 <= h).
  { destruct (Z.lt_ge_cases h (lo + 4)) as [Hlt|Hge]; [|exact Hge].
    exfalso. apply (Habove (lo + 4)); [lia|].
    replace (lo + 4 - 4) with lo by lia. exact Hrun. }
  destruct (get_highest_straight_window mask Hm) as [Hsame Hshifts].
  { rewrite Hh. intros [= E]. lia. }
  assert (Hs : PokerEval.is_straight mask = true).
  { apply is_straight_loop_iff. left. exists lo. split; [lia | exact Hrun]. }
  exists h. split; [lia|]. split; [apply Hrunh, H4|]. split; [exact Habove|].
  split; [rewrite Hsame; exact Hh|]. split; [exact Hshifts|].
  unfold PokerEval.flush_lookup, PokerEval.unique5_lookup.
  destruct (Z.leb_spec 0 mask), (Z.ltb_spec mask 8192); try lia. cbn [andb].
  unfold PokerEval.evaluate_flush_hand, PokerEval.evaluate_unique5.
  rewrite Hs, Hsame, Hh. cbn [mbind res_bind].
  split.
  - rewrite straight_score_u16 by (unfold PokerEval.RANK_STRAIGHT_FLUSH; lia). reflexivity.
  - intros ->. cbn [Z.eqb Pos.eqb].
    rewrite straight_score_u16 by (unfold PokerEval.RANK_STRAIGHT; lia). reflexivity.
Qed.

Lemma tables_score_straights_by_top_card_witness :
  exists h,
    0 + 4 <= h <= 12 /\ RankMask.run_at 31 (h - 4) /\
    (forall i, h < i <= 12 -> ~ RankMask.run_at 31 (i - 4)) /\
    PokerEval.get_highest_straight 31 = Val h /\
    Forall (fun k => 0 <= k) (PokerEval.get_highest_straight_shifts 31) /\
    PokerEval.flush_lookup 31
    = Val (Z.lor (Z.shiftl PokerEval.RANK_STRAIGHT_FLUSH 12) (Z.shiftl h 8)) /\
    (popcount 31 = 5 ->
     PokerEval.unique5_lookup 31
     = Val (Z.lor (Z.shiftl PokerEval.RANK_STRAIGHT 12) (Z.shiftl h 8))).
Proof.
  apply (tables_score_straights_by_top_card 31 0); [lia | lia |].
  intros j Hj.
  assert (Hcase : j = 0 \/ j = 1 \/ j = 2 \/ j = 3 \/ j = 4) by lia.
  destruct Hcase as [->|[->|[->|[->| ->]]]]; reflexivity.
Defined.

(** ** The tally of the seven cards *)

Section TallyFacts.
Import PokerCore PokerEval Hand.

Lemma valid_rank_suit c :
  valid c -> 0 <= get_rank c < 13 /\ 0 <= get_suit c < 4.
Proof.
  unfold valid, get_rank, get_suit, RANK_COUNT, DECK_SIZE. intros H. split.
  - apply Z.mod_pos_bound. lia.
  - split; [apply Z.div_pos; lia | apply Z.div_lt_upper_bound; lia].
Qed.

Lemma tally_card_val t c :
  valid c -> length (suit_masks t) = 4%nat -> length (rank_counts t) = 13%nat ->
  tally_card t c
  = Val {| suit_masks :=
             <[Z.to_nat (get_suit c) :=
                 Z.lor (default 0 (suit_masks t !! Z.to_nat (get_suit c)))
                       (Z.shiftl 1 (get_rank c))]> (suit_masks t);
           rank_counts :=
             <[Z.to_nat (get_rank c) := (cnt (rank_counts t) (get_rank c) + 1) mod 256]>
               (rank_counts t);
           rank_mask := Z.lor (rank_mask t) (Z.shiftl 1 (get_rank c)) |}.
Proof.
  intros Hc Hs Hr. destruct (valid_rank_suit c Hc) as [Hrank Hsuit].
  unfold tally_card.
  destruct (lookup_lt_is_Some_2 (suit_masks t) (Z.to_nat (get_suit c)) ltac:(lia)) as [sm Hsm].
  destruct (lookup_lt_is_Some_2 (rank_counts t) (Z.to_nat (get_rank c)) ltac:(lia)) as [rc Hrc].
  rewrite (read_lookup (suit_masks t) (get_suit c) sm ltac:(lia) Hsm). cbn [mbind res_bind].
  rewrite write_insert by lia. cbn [mbind res_bind].
  rewrite (read_lookup (rank_counts t) (get_rank c) rc ltac:(lia) Hrc). cbn [mbind res_bind].
  rewrite write_insert by lia. cbn [mbind res_bind].
  unfold cnt. rewrite Hsm, Hrc. reflexivity.
Qed.

Lemma cnt_insert counts r0 r v :
  0 <= r0 < Z.of_nat (length counts) -> 0 <= r ->
  cnt (<[Z.to_nat r0 := v]> counts) r = if r =? r0 then v else cnt counts r.
Proof.
  intros Hr0 Hr. unfold cnt. destruct (Z.eqb_spec r r0) as [->|Hne].
  - rewrite list_lookup_insert_eq by lia. reflexivity.
  - rewrite list_lookup_insert_ne by lia. reflexivity.
Qed.

Lemma bit_of_rank r j : 0 <= r -> 0 <= j -> Z.testbit (Z.shiftl 1 r) j = (r =? j).
Proof. intros Hr Hj. rewrite Z.shiftl_1_l. apply Z.pow2_bits_eqb. lia. Qed.

(** The first loop of [evaluate_7cards] over the cells [i .. i + n). *)
Lemma tally_loop_spec n : forall i cards t,
  0 <= i -> (Z.to_nat i + n <= length cards)%nat ->
  Forall valid (take n (drop (Z.to_nat i) cards)) ->
  length (suit_masks t) = 4%nat -> length (rank_counts t) = 13%nat ->
  (forall r, 0 <= r < 13 -> 0 <= cnt (rank_counts t) r
                            /\ cnt (rank_counts t) r + Z.of_nat n < 256) ->
  exists t',
    tally_loop n i cards t = Val t' /\
    length (suit_masks t') = 4%nat /\ length (rank_counts t') = 13%nat /\
    (forall r, 0 <= r < 13 ->
       cnt (rank_counts t') r
       = cnt (rank_counts t) r + of_rank r (take n (drop (Z.to_nat i) cards))) /\
    (forall s r, 0 <= s < 4 -> 0 <= r ->
       Z.testbit (default 0 (suit_masks t' !! Z.to_nat s)) r
       = Z.testbit (default 0 (suit_masks t !! Z.to_nat s)) r
         || has_suited s r (take n (drop (Z.to_nat i) cards))) /\
    (forall r, 0 <= r ->
       Z.testbit (rank_mask t') r
       = Z.testbit (rank_mask t) r || has_rank r (take n (drop (Z.to_nat i) cards))).
Proof.
  induction n as [|n IH]; intros i cards t Hi Hlen Hvalid Hsm Hrc Hcnt.
  - exists t. cbn [tally_loop]. split; [reflexivity|].
    split; [exact Hsm|]. split; [exact Hrc|].
    rewrite take_0. unfold of_rank, held_times, has_suited, has_rank. cbn.
    split; [intros; lia|]. split; intros; rewrite orb_false_r; reflexivity.
  - destruct (lookup_lt_is_Some_2 cards (Z.to_nat i) ltac:(lia)) as [c Hc].
    cbn [tally_loop]. rewrite (read_lookup _ _ c Hi Hc). cbn [mbind res_bind].
    rewrite (drop_S _ _ _ Hc) in Hvalid |- *. rewrite firstn_cons in Hvalid |- *.
    apply Forall_cons in Hvalid as [Hcv Hvalid].
    destruct (valid_rank_suit c Hcv) as [Hrank Hsuit].
    rewrite tally_card_val by assumption. cbn [mbind res_bind].
    replace (S (Z.to_nat i)) with (Z.to_nat (i + 1)) in * by lia.
    match goal with |- context [tally_loop n (i + 1) cards ?t1] => set (t1' := t1) end.
    assert (Hcnt1 : forall r, 0 <= r < 13 ->
              0 <= cnt (rank_counts t1') r
              /\ cnt (rank_counts t1') r + Z.of_nat n < 256).
    { intros r Hr. subst t1'. cbn [rank_counts]. rewrite cnt_insert by lia.
      destruct (Hcnt r Hr) as [H0 H1]. destruct (Hcnt (get_rank c) Hrank) as [H2 H3].
      destruct (Z.eqb_spec r (get_rank c)); [|lia].
      rewrite Z.mod_small by lia. lia. }
    destruct (IH (i + 1) cards t1') as (t' & Heq & Hsm' & Hrc' & Hcnt' & Hbits' & Hmask').
    { lia. }
    { lia. }
    { exact Hvalid. }
    { subst t1'. cbn [suit_masks]. rewrite length_insert. exact Hsm. }
    { subst t1'. cbn [rank_counts]. rewrite length_insert. exact Hrc. }
    { exact Hcnt1. }
    exists t'. split; [exact Heq|]. split; [exact Hsm'|]. split; [exact Hrc'|].
    subst t1'. cbn [suit_masks rank_counts rank_mask] in Hcnt', Hbits', Hmask'.
    split; [|split].
    + intros r Hr. rewrite (Hcnt' r Hr), cnt_insert by lia.
      unfold of_rank, held_times. cbn [List.filter]. rewrite (Z.eqb_sym (get_rank c) r).
      destruct (Hcnt (get_rank c) Hrank) as [H2 H3].
      destruct (Z.eqb_spec r (get_rank c)) as [->|Hne]; cbn [length].
      * rewrite Z.mod_small by lia. lia.
      * lia.
    + intros s r Hs Hr. rewrite (Hbits' s r Hs Hr).
      unfold has_suited. cbn [existsb]. rewrite orb_assoc. f_equal.
      destruct (Z.eqb_spec (get_suit c) s) as [<-|Hne]; cbn [andb].
      * rewrite list_lookup_insert_eq by lia. cbn [from_option id].
        rewrite Z.lor_spec, bit_of_rank by lia. reflexivity.
      * rewrite list_lookup_insert_ne by lia. rewrite orb_false_r. reflexivity.
    + intros r Hr. rewrite (Hmask' r Hr).
      unfold has_rank. cbn [existsb]. rewrite orb_assoc. f_equal.
      rewrite Z.lor_spec, bit_of_rank by lia. reflexivity.
Qed.

Lemma tally_of_hand cards :
  length cards = 7%nat -> Forall valid cards ->
  exists t,
    tally_loop 7 0 cards tally_init = Val t /\
    length (suit_masks t) = 4%nat /\ length (rank_counts t) = 13%nat /\
    (forall r, 0 <= r < 13 -> cnt (rank_counts t) r = of_rank r cards) /\
    (forall s r, 0 <= s < 4 -> 0 <= r ->
       Z.testbit (default 0 (suit_masks t !! Z.to_nat s)) r = has_suited s r cards) /\
    (forall r, 0 <= r -> Z.testbit (rank_mask t) r = has_rank r cards).
Proof.
  intros Hlen Hvalid.
  assert (Htake : take 7 (drop (Z.to_nat 0) cards) = cards).
  { change (Z.to_nat 0) with 0%nat. rewrite drop_0. apply take_ge. lia. }
  assert (Hinit : forall r, 0 <= r < 13 -> cnt (rank_counts tally_init) r = 0).
  { intros r Hr. unfold cnt, tally_init. cbn [rank_counts].
    rewrite lookup_replicate_2 by lia. reflexivity. }
  destruct (tally_loop_spec 7 0 cards tally_init) as (t & Heq & Hsm & Hrc & Hcnt & Hbits & Hmask).
  - lia.
  - cbn. lia.
  - rewrite Htake. exact Hvalid.
  - reflexivity.
  - reflexivity.
  - intros r Hr. rewrite (Hinit r Hr). lia.
  - rewrite Htake in Hcnt, Hbits, Hmask. exists t.
    split; [exact Heq|]. split; [exact Hsm|]. split; [exact Hrc|]. split; [|split].
    + intros r Hr. rewrite (Hcnt r Hr), (Hinit r Hr). lia.
    + intros s r Hs Hr. rewrite (Hbits s r Hs Hr).
      assert (E : default 0 (suit_masks tally_init !! Z.to_nat s) = 0).
      { unfold tally_init. cbn [suit_masks].
        assert (Hcase : s = 0 \/ s = 1 \/ s = 2 \/ s = 3) by lia.
        destruct Hcase as [->|[->|[->| ->]]]; reflexivity. }
      rewrite E, Z.bits_0. reflexivity.
    + intros r Hr. rewrite (Hmask r Hr). cbn [tally_init rank_mask].
      rewrite Z.bits_0. reflexivity.
Qed.

Lemma of_rank_perm r l l' : l ≡ₚ l' -> of_rank r l = of_rank r l'.
Proof.
  intros H. unfold of_rank, held_times. f_equal.
  induction H as [|x l l' _ IH|x y l|l l' l'' _ IH1 _ IH2]; cbn.
  - reflexivity.
  - destruct (get_rank x =? r); cbn; rewrite IH; reflexivity.
  - destruct (get_rank x =? r), (get_rank y =? r); reflexivity.
  - congruence.
Qed.

Lemma existsb_perm {A : Type} (f : A -> bool) l l' : l ≡ₚ l' -> existsb f l = existsb f l'.
Proof.
  intros H. induction H as [|x l l' _ IH|x y l|l l' l'' _ IH1 _ IH2]; cbn.
  - reflexivity.
  - rewrite IH. reflexivity.
  - destruct (f x), (f y); reflexivity.
  - congruence.
Qed.

Lemma tally_perm cards cards' t t' :
  length cards = 7%nat -> Forall valid cards -> cards ≡ₚ cards' ->
  tally_loop 7 0 cards tally_init = Val t ->
  tally_loop 7 0 cards' tally_init = Val t' ->
  t' = t.
Proof.
  intros Hlen Hvalid Hperm Ht Ht'.
  destruct (tally_of_hand cards Hlen Hvalid) as (t0 & Heq & Hsm & Hrc & Hcnt & Hbits & Hmask).
  rewrite Heq in Ht. injection Ht as <-.
  destruct (tally_of_hand cards') as (t1 & Heq' & Hsm' & Hrc' & Hcnt' & Hbits' & Hmask').
  { rewrite <- (Permutation_length Hperm). exact Hlen. }
  { rewrite <- Hperm. exact Hvalid. }
  rewrite Heq' in Ht'. injection Ht' as <-.
  destruct t0 as [sm rc rm], t1 as [sm' rc' rm']. cbn [suit_masks rank_counts rank_mask] in *.
  f_equal.
  - apply list_eq. intros k. destruct (Nat.lt_ge_cases k 4) as [Hk|Hk].
    + destruct (lookup_lt_is_Some_2 sm k ltac:(lia)) as [m Hm].
      destruct (lookup_lt_is_Some_2 sm' k ltac:(lia)) as [m' Hm'].
      rewrite Hm, Hm'. f_equal. apply Z.bits_inj'. intros r Hr.
      pose proof (Hbits (Z.of_nat k) r ltac:(lia) Hr) as H1.
      pose proof (Hbits' (Z.of_nat k) r ltac:(lia) Hr) as H2.
      rewrite Nat2Z.id in H1, H2. rewrite Hm in H1. rewrite Hm' in H2.
      cbn [from_option id] in H1, H2. rewrite H1, H2.
      symmetry. apply existsb_perm, Hperm.
    + rewrite !lookup_ge_None_2 by lia. reflexivity.
  - apply list_eq. intros k. destruct (Nat.lt_ge_cases k 13) as [Hk|Hk].
    + destruct (lookup_lt_is_Some_2 rc k ltac:(lia)) as [m Hm].
      destruct (lookup_lt_is_Some_2 rc' k ltac:(lia)) as [m' Hm'].
      rewrite Hm, Hm'. f_equal.
      pose proof (Hcnt (Z.of_nat k) ltac:(lia)) as H1.
      pose proof (Hcnt' (Z.of_nat k) ltac:(lia)) as H2.
      unfold cnt in H1, H2. rewrite Nat2Z.id in H1, H2. rewrite Hm in H1. rewrite Hm' in H2.
      cbn [from_option id] in H1, H2. rewrite H1, H2.
      symmetry. apply of_rank_perm, Hperm.
    + rewrite !lookup_ge_None_2 by lia. reflexivity.
  - apply Z.bits_inj'. intros r Hr. rewrite (Hmask r Hr), (Hmask' r Hr).
    symmetry. apply existsb_perm, Hperm.
Qed.

End TallyFacts.

(** X11.  The first loop of [evaluate_7cards], on seven cards of the
    deck, leaves in [rank_counts[r]] the number of cards of rank [r], in
    bit [r] of [suit_masks[s]] whether the hand holds the card of rank [r]
    and suit [s], and in bit [r] of [rank_mask] whether it holds a card of
    rank [r]; no index leaves its array. *)
Theorem tally_counts_the_hand (cards : list Z) :
  length cards = 7%nat -> Forall Hand.valid cards ->
  exists t,
    PokerEval.tally_loop 7 0 cards PokerEval.tally_init = Val t /\
    (forall r, 0 <= r < 13 ->
       PokerEval.cnt (PokerEval.rank_counts t) r = Hand.of_rank r cards) /\
    (forall s r, 0 <= s < 4 -> 0 <= r ->
       Z.testbit (default 0 (PokerEval.suit_masks t !! Z.to_nat s)) r
       = Hand.has_suited s r cards) /\
    (forall r, 0 <= r -> Z.testbit (PokerEval.rank_mask t) r = Hand.has_rank r cards).
Proof.
  intros Hlen Hvalid.
  destruct (tally_of_hand cards Hlen Hvalid) as (t & Heq & _ & _ & Hcnt & Hbits & Hmask).
  exists t. auto.
Qed.

Lemma tally_counts_the_hand_witness :
  exists t,
    PokerEval.tally_loop 7 0 Hands.quad_sevens PokerEval.tally_init = Val t /\
    (forall r, 0 <= r < 13 ->
       PokerEval.cnt (PokerEval.rank_counts t) r = Hand.of_rank r Hands.quad_sevens) /\
    (forall s r, 0 <= s < 4 -> 0 <= r ->
       Z.testbit (default 0 (PokerEval.suit_masks t !! Z.to_nat s)) r
       = Hand.has_suited s r Hands.quad_sevens) /\
    (forall r, 0 <= r ->
       Z.testbit (PokerEval.rank_mask t) r = Hand.has_rank r Hands.quad_sevens).
Proof.
  apply (tally_counts_the_hand Hands.quad_sevens); [reflexivity|].
  unfold Hands.quad_sevens, Hand.valid, PokerCore.DECK_SIZE.
  repeat (apply Forall_cons; split; [lia|]). apply Forall_nil. exact I.
Defined.

(** X12.  The score of seven cards of the deck does not depend on the
    order in which they are passed to [evaluate_7cards]. *)
Theorem evaluate_7cards_ignores_order (cards cards' : list Z) :
  length cards = 7%nat -> Forall Hand.valid cards -> cards ≡ₚ cards' ->
  PokerEval.evaluate_7cards cards' = PokerEval.evaluate_7cards cards.
Proof.
  intros Hlen Hvalid Hperm. unfold PokerEval.evaluate_7cards.
  destruct (tally_of_hand cards Hlen Hvalid) as (t & Heq & _).
  destruct (tally_of_hand cards') as (t' & Heq' & _).
  { rewrite <- (Permutation_length Hperm). exact Hlen. }
  { rewrite <- Hperm. exact Hvalid. }
  rewrite (tally_perm cards cards' t t' Hlen Hvalid Hperm Heq Heq') in Heq'.
  rewrite Heq, Heq'. reflexivity.
Qed.

Lemma evaluate_7cards_ignores_order_witness :
  PokerEval.evaluate_7cards (rev Hands.kings_full_of_aces)
  = PokerEval.evaluate_7cards Hands.kings_full_of_aces.
Proof.
  apply (evaluate_7cards_ignores_order Hands.kings_full_of_aces).
  - reflexivity.
  - unfold Hands.kings_full_of_aces, Hand.valid, PokerCore.DECK_SIZE.
    repeat (apply Forall_cons; split; [lia|]). apply Forall_nil. exact I.
  - apply Permutation_rev.
Defined.

(** ** Counting ranks and suits *)

Section CountingFacts.
Import PokerCore PokerEval Hand.

Lemma sum_list_with_add {A : Type} (f g : A -> nat) l :
  sum_list_with (fun x => f x + g x)%nat l = (sum_list_with f l + sum_list_with g l)%nat.
Proof. induction l as [|x l IH]; cbn; [reflexivity | rewrite IH; lia]. Qed.

Lemma sum_indicator (x : Z) l :
  NoDup l -> x ∈ l ->
  sum_list_with (fun r => if x =? r then 1%nat else 0%nat) l = 1%nat.
Proof.
  intros Hnd Hin. induction Hnd as [|y l Hy Hnd IH]; [inversion Hin|].
  cbn. destruct (Z.eqb_spec x y) as [->|Hne].
  - assert (E : sum_list_with (fun r => if y =? r then 1%nat else 0%nat) l = 0%nat).
    { clear IH Hin Hnd. induction l as [|z l IHl]; [reflexivity|]. cbn.
      destruct (Z.eqb_spec y z) as [->|_]; [exfalso; apply Hy; left|].
      apply IHl. intros H. apply Hy. right. exact H. }
    rewrite E. reflexivity.
  - apply elem_of_cons in Hin as [->|Hin]; [contradiction|]. apply IH, Hin.
Qed.

Lemma sum_list_with_pointwise {A : Type} (f g : A -> nat) l :
  (forall x, f x = g x) -> sum_list_with f l = sum_list_with g l.
Proof. intros H. induction l as [|x l IH]; cbn; [reflexivity | rewrite H, IH; reflexivity]. Qed.

Lemma held_times_cons r c cards :
  held_times r (c :: cards)
  = Nat.add (if get_rank c =? r then 1%nat else 0%nat) (held_times r cards).
Proof. unfold held_times. cbn. destruct (get_rank c =? r); reflexivity. Qed.

(** Every card is counted under exactly one rank. *)
Lemma held_times_total cards :
  sum_list_with (fun r => held_times r cards) (seqZ 0 13) = length cards.
Proof.
  induction cards as [|c cards IH].
  - rewrite (sum_list_with_pointwise _ (fun _ => 0%nat)) by reflexivity.
    generalize (seqZ 0 13). intros l. induction l; cbn; auto.
  - rewrite (sum_list_with_pointwise _ _ _ (fun r => held_times_cons r c cards)).
    rewrite sum_list_with_add, IH, sum_indicator; [reflexivity | apply NoDup_seqZ |].
    apply elem_of_seqZ. pose proof (Z.mod_pos_bound c 13 ltac:(lia)).
    unfold get_rank, RANK_COUNT. lia.
Qed.

Lemma has_rank_held_times r cards :
  has_rank r cards = negb (Nat.eqb (held_times r cards) 0).
Proof.
  unfold has_rank. induction cards as [|c cards IH]; [reflexivity|].
  rewrite held_times_cons. cbn [existsb]. destruct (get_rank c =? r); [reflexivity | exact IH].
Qed.

Lemma filter_length_sum {A : Type} (f : A -> bool) l :
  length (List.filter f l) = sum_list_with (fun x => if f x then 1%nat else 0%nat) l.
Proof. induction l as [|x l IH]; [reflexivity|]. cbn. destruct (f x); cbn; rewrite IH; reflexivity. Qed.

Lemma filter_length_mono {A : Type} (f g : A -> bool) l :
  (forall x, f x = true -> g x = true) ->
  (length (List.filter f l) <= length (List.filter g l))%nat.
Proof.
  intros H. induction l as [|x l IH]; [reflexivity|]. cbn.
  destruct (f x) eqn:E; [rewrite (H x E); cbn; lia|].
  destruct (g x); cbn; lia.
Qed.

Lemma sum_list_with_sub {A : Type} (f : A -> nat) (xs l : list A) :
  xs ⊆+ l -> (sum_list_with f xs <= sum_list_with f l)%nat.
Proof.
  intros H. apply submseteq_Permutation in H as [k Hk].
  rewrite Hk, sum_list_with_app. lia.
Qed.

(** The distinct ranks of a hand number the cards less the repeats. *)
Lemma distinct_ranks cards :
  (length (List.filter (fun r => has_rank r cards) (seqZ 0 13))
   + sum_list_with (fun r => (held_times r cards - 1)%nat) (seqZ 0 13)
   = length cards)%nat.
Proof.
  rewrite filter_length_sum, <- sum_list_with_add, <- held_times_total.
  apply sum_list_with_pointwise. intros r. rewrite has_rank_held_times.
  destruct (held_times r cards); cbn; lia.
Qed.

Lemma mask_of_bits m :
  (forall r, 13 <= r -> Z.testbit m r = false) -> 0 <= m < 2 ^ 13.
Proof.
  intros H. apply (testbit_range m 13 ltac:(lia)). split; [|exact H].
  apply Z.bits_iff_nonneg_ex. exists 13. intros r Hr. apply H. lia.
Qed.

Lemma has_suited_rank s r cards : has_suited s r cards = true -> has_rank r cards = true.
Proof.
  unfold has_suited, has_rank. rewrite !existsb_exists.
  intros [c [Hc H]]. apply andb_prop in H as [_ H]. exists c. split; assumption.
Qed.

Lemma has_rank_range r cards : has_rank r cards = true -> 0 <= r < 13.
Proof.
  unfold has_rank. rewrite existsb_exists. intros [c [_ H]].
  apply Z.eqb_eq in H. subst. apply Z.mod_pos_bound. reflexivity.
Qed.

Lemma flush_loop_none masks :
  Forall (fun m => popcount m < 5) masks -> flush_loop masks = None.
Proof.
  induction 1 as [|m masks Hm _ IH]; [reflexivity|]. cbn.
  destruct (Z.leb_spec 5 (popcount m)); [lia | exact IH].
Qed.

(** A hand whose repeats of ranks number three or more holds at most four
    ranks, so no suit can hold five of them: there is no flush. *)
Lemma no_flush_with_repeats cards t :
  length cards = 7%nat ->
  tally_loop 7 0 cards tally_init = Val t ->
  length (suit_masks t) = 4%nat ->
  (forall s r, 0 <= s < 4 -> 0 <= r ->
     Z.testbit (default 0 (suit_masks t !! Z.to_nat s)) r = has_suited s r cards) ->
  (3 <= sum_list_with (fun r => (held_times r cards - 1)%nat) (seqZ 0 13))%nat ->
  flush_loop (suit_masks t) = None.
Proof.
  intros Hlen _ Hsm Hbits Hrep. apply flush_loop_none, Forall_lookup.
  intros k m Hm. pose proof (lookup_lt_Some _ _ _ Hm) as Hk.
  assert (Hb : forall r, 0 <= r -> Z.testbit m r = has_suited (Z.of_nat k) r cards).
  { intros r Hr. rewrite <- (Hbits (Z.of_nat k) r ltac:(lia) Hr), Nat2Z.id, Hm. reflexivity. }
  assert (Hrange : 0 <= m < 2 ^ 13).
  { apply mask_of_bits. intros r Hr. rewrite Hb by lia.
    destruct (has_suited (Z.of_nat k) r cards) eqn:E; [|reflexivity].
    apply has_suited_rank, has_rank_range in E. lia. }
  rewrite (popcount_count 13 m Hrange).
  pose proof (distinct_ranks cards) as Hd. rewrite Hlen in Hd.
  assert (Hle : (length (List.filter (fun c => Z.testbit m c) (seqZ 0 (Z.of_nat 13)))
                 <= length (List.filter (fun r => has_rank r cards) (seqZ 0 13)))%nat).
  { change (Z.of_nat 13) with 13.
    rewrite (List.filter_ext_in (fun c => Z.testbit m c)
               (fun r => has_suited (Z.of_nat k) r cards)).
    - apply filter_length_mono. intros r. apply has_suited_rank.
    - intros r Hr. apply list_elem_of_In, elem_of_seqZ in Hr. apply Hb. lia. }
  lia.
Qed.

Lemma held_times_pos r cards :
  (0 < held_times r cards)%nat <-> exists c, c ∈ cards /\ get_rank c = r.
Proof.
  unfold held_times. split.
  - intros H. destruct (List.filter _ cards) as [|c l] eqn:E; [cbn in H; lia|].
    assert (Hin : In c (List.filter (fun c => get_rank c =? r) cards))
      by (rewrite E; left; reflexivity).
    apply List.filter_In in Hin as [Hin Hr]. exists c.
    split; [apply list_elem_of_In, Hin | apply Z.eqb_eq, Hr].
  - intros [c [Hin Hr]].
    assert (H : In c (List.filter (fun c => get_rank c =? r) cards)).
    { apply List.filter_In. split; [apply list_elem_of_In, Hin | apply Z.eqb_eq, Hr]. }
    destruct (List.filter _ cards); [destruct H | cbn; lia].
Qed.

Lemma held_times_range r cards : (0 < held_times r cards)%nat -> 0 <= r < 13.
Proof.
  intros H. apply held_times_pos in H as [c [_ <-]]. apply Z.mod_pos_bound. reflexivity.
Qed.

(** Two ranks share the cards of a hand. *)
Lemma held_times_two r1 r2 cards :
  r1 <> r2 -> 0 <= r1 < 13 -> 0 <= r2 < 13 ->
  (held_times r1 cards + held_times r2 cards <= length cards)%nat.
Proof.
  intros Hne H1 H2. rewrite <- (held_times_total cards).
  pose proof (sum_list_with_sub (fun r => held_times r cards) [r1; r2] (seqZ 0 13)) as H.
  cbn in H. rewrite Nat.add_0_r in H. apply H.
  apply NoDup_submseteq.
  - apply NoDup_cons. split; [rewrite list_elem_of_singleton; exact Hne|].
    apply NoDup_singleton.
  - intros x Hx. apply elem_of_seqZ.
    apply elem_of_cons in Hx as [->|Hx]; [lia|].
    apply list_elem_of_singleton in Hx. subst. lia.
Qed.

(** And so do three. *)
Lemma held_times_three r1 r2 r3 cards :
  r1 <> r2 -> r1 <> r3 -> r2 <> r3 ->
  0 <= r1 < 13 -> 0 <= r2 < 13 -> 0 <= r3 < 13 ->
  (held_times r1 cards + held_times r2 cards + held_times r3 cards <= length cards)%nat.
Proof.
  intros H12 H13 H23 H1 H2 H3. rewrite <- (held_times_total cards).
  pose proof (sum_list_with_sub (fun r => held_times r cards) [r1; r2; r3] (seqZ 0 13)) as H.
  cbn in H. rewrite Nat.add_0_r, Nat.add_assoc in H. apply H.
  apply NoDup_submseteq.
  - apply NoDup_cons. split.
    + intros Hx. apply elem_of_cons in Hx as [->|Hx]; [contradiction|].
      apply list_elem_of_singleton in Hx. contradiction.
    + apply NoDup_cons. split; [rewrite list_elem_of_singleton; exact H23|].
      apply NoDup_singleton.
  - intros x Hx. apply elem_of_seqZ.
    apply elem_of_cons in Hx as [->|Hx]; [lia|].
    apply elem_of_cons in Hx as [->|Hx]; [lia|].
    apply list_elem_of_singleton in Hx. subst. lia.
Qed.

(** The repeats of two ranks are among the repeats of the hand. *)
Lemma repeats_two r1 r2 cards :
  r1 <> r2 -> 0 <= r1 < 13 -> 0 <= r2 < 13 ->
  (held_times r1 cards - 1 + (held_times r2 cards - 1)
   <= sum_list_with (fun r => held_times r cards - 1) (seqZ 0 13))%nat.
Proof.
  intros Hne H1 H2.
  pose proof (sum_list_with_sub (fun r => (held_times r cards - 1)%nat) [r1; r2] (seqZ 0 13)) as H.
  cbn in H. rewrite Nat.add_0_r in H. apply H.
  apply NoDup_submseteq.
  - apply NoDup_cons. split; [rewrite list_elem_of_singleton; exact Hne|].
    apply NoDup_singleton.
  - intros x Hx. apply elem_of_seqZ.
    apply elem_of_cons in Hx as [->|Hx]; [lia|].
    apply list_elem_of_singleton in Hx. subst. lia.
Qed.

Lemma scan_loop_finds_quads counts q n : forall st,
  0 <= q < Z.of_nat n -> cnt counts q = 4 ->
  (forall r, 0 <= r < Z.of_nat n -> r <> q -> cnt counts r <> 4) ->
  quads (scan_loop n counts st) = q.
Proof.
  induction n as [|n IH]; intros st Hq Hc Hother; [lia|].
  cbn [scan_loop]. destruct (Z.eq_dec q (Z.of_nat n)) as [->|Hne].
  - rewrite scan_loop_quads by (intros r Hr; apply Hother; lia).
    unfold scan_step. rewrite Hc. reflexivity.
  - rewrite IH; [reflexivity | lia | exact Hc | intros r Hr; apply Hother; lia].
Qed.

(** [get_highest_kicker] from rank [n - 1] down: the highest rank held
    other than the excluded one, when there is one. *)
Lemma get_highest_kicker_loop_spec counts exclude n :
  (exists r, 0 <= r < Z.of_nat n /\ r <> exclude /\ 0 < cnt counts r) ->
  let k := get_highest_kicker_loop n counts exclude in
  0 <= k < Z.of_nat n /\ k <> exclude /\ 0 < cnt counts k /\
  (forall r, k < r < Z.of_nat n -> r <> exclude -> cnt counts r <= 0).
Proof.
  induction n as [|n IH]; intros [r (Hr & Hne & Hpos)]; [lia|].
  cbn [get_highest_kicker_loop].
  destruct (Z.eqb_spec (Z.of_nat n) exclude) as [He|He]; cbn [negb andb].
  - destruct IH as (H1 & H2 & H3 & H4); [exists r; repeat split; try lia; assumption|].
    repeat split; try lia; try assumption.
    intros r' Hr' Hne'. apply H4; [lia | exact Hne'].
  - destruct (Z.ltb_spec 0 (cnt counts (Z.of_nat n))) as [Hp|Hp].
    + repeat split; try lia. 
    + destruct IH as (H1 & H2 & H3 & H4).
      { exists r. repeat split; try lia; try assumption.
        destruct (Z.eq_dec r (Z.of_nat n)); [subst; lia | lia]. }
      repeat split; try lia; try assumption.
      intros r' Hr' Hne'. destruct (Z.eq_dec r' (Z.of_nat n)) as [->|]; [exact Hp|].
      apply H4; [lia | exact Hne'].
Qed.

End CountingFacts.

(** X13.  Seven cards of the deck that hold some rank [q] four times score
    [7 << 12 | q << 8 | kicker]: the hand cannot hold a flush, and the
    kicker is the highest rank among the three other cards. *)
Theorem four_of_a_kind_score (cards : list Z) (q : Z) :
  length cards = 7%nat -> Forall Hand.valid cards ->
  Hand.of_rank q cards = 4 ->
  exists kicker,
    PokerEval.evaluate_7cards cards
    = Val (Z.lor (Z.lor (Z.shiftl PokerEval.RANK_FOUR_OF_KIND 12) (Z.shiftl q 8)) kicker) /\
    kicker <> q /\
    (exists c, c ∈ cards /\ PokerCore.get_rank c = kicker) /\
    (forall c, c ∈ cards -> PokerCore.get_rank c <> q -> PokerCore.get_rank c <= kicker).
Proof.
  intros Hlen Hvalid Hq. unfold Hand.of_rank in Hq.
  assert (Hq' : Hand.held_times q cards = 4%nat) by lia.
  assert (Hqr : 0 <= q < 13) by (apply (held_times_range q cards); lia).
  destruct (tally_of_hand cards Hlen Hvalid) as (t & Heq & Hsm & Hrc & Hcnt & Hbits & _).
  unfold PokerEval.evaluate_7cards. rewrite Heq. cbn [mbind res_bind].
  rewrite (no_flush_with_repeats cards t Hlen Heq Hsm Hbits).
  2:{ pose proof (sum_list_with_in q (fun r => (Hand.held_times r cards - 1)%nat) (seqZ 0 13)) as H.
      cbn beta in H. rewrite Hq' in H. apply H. apply elem_of_seqZ. lia. }
  assert (Hother : forall r, 0 <= r < 13 -> r <> q ->
            PokerEval.cnt (PokerEval.rank_counts t) r <> 4).
  { intros r Hr Hne. rewrite (Hcnt r Hr). unfold Hand.of_rank.
    pose proof (held_times_two r q cards Hne Hr Hqr). lia. }
  assert (Hc4 : PokerEval.cnt (PokerEval.rank_counts t) q = 4).
  { rewrite (Hcnt q Hqr). unfold Hand.of_rank. lia. }
  unfold PokerEval.evaluate_non_flush.
  rewrite (scan_loop_finds_quads (PokerEval.rank_counts t) q 13) by (auto; lia).
  destruct (Z.eqb_spec q (-1)); [lia|]. cbn [negb].
  assert (Hrest : exists c, c ∈ cards /\ PokerCore.get_rank c <> q).
  { pose proof (List.filter_length (fun c => PokerCore.get_rank c =? q) cards) as Hf.
    unfold Hand.held_times in Hq'. rewrite Hq', Hlen in Hf.
    destruct (List.filter (fun x => negb (PokerCore.get_rank x =? q)) cards) as [|c l] eqn:E;
      [cbn in Hf; lia|].
    assert (Hin : In c (List.filter (fun x => negb (PokerCore.get_rank x =? q)) cards))
      by (rewrite E; left; reflexivity).
    apply List.filter_In in Hin as [Hin Hr]. exists c.
    split; [apply list_elem_of_In, Hin|]. intros Hr'. rewrite Hr', Z.eqb_refl in Hr.
    discriminate. }
  destruct (get_highest_kicker_loop_spec (PokerEval.rank_counts t) q 13)
    as (Hk & Hkq & Hkpos & Hkmax).
  { destruct Hrest as [c [Hin Hne]]. exists (PokerCore.get_rank c).
    assert (Hr : 0 <= PokerCore.get_rank c < 13) by (apply Z.mod_pos_bound; reflexivity).
    split; [lia|]. split; [exact Hne|]. rewrite (Hcnt _ Hr). unfold Hand.of_rank.
    assert (0 < Hand.held_times (PokerCore.get_rank c) cards)%nat
      by (apply held_times_pos; exists c; split; [exact Hin | reflexivity]).
    lia. }
  fold (PokerEval.get_highest_kicker (PokerEval.rank_counts t) q) in Hk, Hkq, Hkpos, Hkmax.
  set (k := PokerEval.get_highest_kicker (PokerEval.rank_counts t) q) in *.
  change (Z.of_nat 13) with 13 in *.
  exists k. split; [reflexivity|]. split; [exact Hkq|]. split.
  - apply held_times_pos. rewrite (Hcnt k Hk) in Hkpos. unfold Hand.of_rank in Hkpos. lia.
  - intros c Hin Hne.
    assert (Hr : 0 <= PokerCore.get_rank c < 13) by (apply Z.mod_pos_bound; reflexivity).
    destruct (Z.le_gt_cases (PokerCore.get_rank c) k) as [?|Hgt]; [assumption|].
    exfalso. pose proof (Hkmax (PokerCore.get_rank c) ltac:(lia) Hne) as Hz.
    rewrite (Hcnt _ Hr) in Hz. unfold Hand.of_rank in Hz.
    assert (0 < Hand.held_times (PokerCore.get_rank c) cards)%nat
      by (apply held_times_pos; exists c; split; [exact Hin | reflexivity]).
    lia.
Qed.

Lemma four_of_a_kind_score_witness :
  exists kicker,
    PokerEval.evaluate_7cards Hands.quad_sevens
    = Val (Z.lor (Z.lor (Z.shiftl PokerEval.RANK_FOUR_OF_KIND 12) (Z.shiftl 5 8)) kicker) /\
    kicker <> 5 /\
    (exists c, c ∈ Hands.quad_sevens /\ PokerCore.get_rank c = kicker) /\
    (forall c, c ∈ Hands.quad_sevens ->
       PokerCore.get_rank c <> 5 -> PokerCore.get_rank c <= kicker).
Proof.
  apply (four_of_a_kind_score Hands.quad_sevens 5); [reflexivity | | reflexivity].
  unfold Hands.quad_sevens, Hand.valid, PokerCore.DECK_SIZE.
  repeat (apply Forall_cons; split; [lia|]). apply Forall_nil. exact I.
Defined.

(** X14.  Seven cards of the deck that hold a rank [t] three times and a
    rank [p] twice, [p] being the highest rank held twice, score
    [6 << 12 | t << 8 | p]: such a hand holds neither a flush nor four of
    a kind nor a second set of three. *)
Theorem full_house_score (cards : list Z) (t p : Z) :
  length cards = 7%nat -> Forall Hand.valid cards ->
  Hand.of_rank t cards = 3 -> Hand.of_rank p cards = 2 ->
  (forall r, p < r -> Hand.of_rank r cards <> 2) ->
  PokerEval.evaluate_7cards cards
  = Val (Z.lor (Z.lor (Z.shiftl PokerEval.RANK_FULL_HOUSE 12) (Z.shiftl t 8)) p).
Proof.
  intros Hlen Hvalid Ht Hp Hhigh. unfold Hand.of_rank in Ht, Hp.
  assert (Ht' : Hand.held_times t cards = 3%nat) by lia.
  assert (Hp' : Hand.held_times p cards = 2%nat) by lia.
  assert (Htr : 0 <= t < 13) by (apply (held_times_range t cards); lia).
  assert (Hpr : 0 <= p < 13) by (apply (held_times_range p cards); lia).
  assert (Htp : t <> p) by (intros ->; lia).
  destruct (tally_of_hand cards Hlen Hvalid) as (tl & Heq & Hsm & Hrc & Hcnt & Hbits & _).
  unfold PokerEval.evaluate_7cards. rewrite Heq. cbn [mbind res_bind].
  rewrite (no_flush_with_repeats cards tl Hlen Heq Hsm Hbits).
  2:{ pose proof (repeats_two t p cards Htp Htr Hpr) as H. rewrite Ht', Hp' in H.
      cbn in H. lia. }
  apply trips_and_pair_full_house; try assumption.
  - rewrite (Hcnt t Htr). unfold Hand.of_rank. lia.
  - rewrite (Hcnt p Hpr). unfold Hand.of_rank. lia.
  - intros r Hr. rewrite (Hcnt r Hr). unfold Hand.of_rank. intros H4.
    assert (Hrt : r <> t) by (intros ->; lia). assert (Hrp : r <> p) by (intros ->; lia).
    pose proof (held_times_three r t p cards Hrt Hrp Htp Hr Htr Hpr). lia.
  - intros r Hr. rewrite (Hcnt r Hr). unfold Hand.of_rank. intros H3.
    destruct (Z.eq_dec r t) as [|Hrt]; [assumption|]. exfalso.
    assert (Hrp : r <> p) by (intros ->; lia).
    pose proof (held_times_three r t p cards Hrt Hrp Htp Hr Htr Hpr). lia.
  - intros r Hr. rewrite (Hcnt r ltac:(lia)). apply Hhigh. lia.
Qed.

Lemma full_house_score_witness :
  PokerEval.evaluate_7cards Hands.kings_full_of_aces
  = Val (Z.lor (Z.lor (Z.shiftl PokerEval.RANK_FULL_HOUSE 12) (Z.shiftl 11 8)) 12).
Proof.
  apply (full_house_score Hands.kings_full_of_aces 11 12);
    [reflexivity | | reflexivity | reflexivity |].
  - unfold Hands.kings_full_of_aces, Hand.valid, PokerCore.DECK_SIZE.
    repeat (apply Forall_cons; split; [lia|]). apply Forall_nil. exact I.
  - intros r Hr H.
    assert (Hpos : (0 < Hand.held_times r Hands.kings_full_of_aces)%nat)
      by (unfold Hand.of_rank in H; lia).
    apply held_times_range in Hpos. lia.
Defined.

(** ** The equity simulator *)

Section RngFacts.
Import PokerCore PokerEval MonteCarloEngine.

Lemma lxor_range a b n :
  0 <= n -> 0 <= a < 2 ^ n -> 0 <= b < 2 ^ n -> 0 <= Z.lxor a b < 2 ^ n.
Proof.
  intros Hn Ha Hb. apply (testbit_range _ n Hn). split.
  - apply Z.lxor_nonneg. lia.
  - intros i Hi. rewrite Z.lxor_spec.
    apply (testbit_range a n Hn) in Ha as [_ Ha]. apply (testbit_range b n Hn) in Hb as [_ Hb].
    rewrite (Ha i Hi), (Hb i Hi). reflexivity.
Qed.

Lemma shiftr_range a k n :
  0 <= k -> 0 <= a < 2 ^ n -> 0 <= Z.shiftr a k < 2 ^ n.
Proof.
  intros Hk Ha. rewrite Z.shiftr_div_pow2 by lia. split.
  - apply Z.div_pos; [lia | apply Z.pow_pos_nonneg; lia].
  - apply Z.le_lt_trans with a; [|lia].
    apply Z.div_le_upper_bound; [apply Z.pow_pos_nonneg; lia|].
    pose proof (Z.pow_pos_nonneg 2 k ltac:(lia) Hk). nia.
Qed.

Lemma u64_bits a i : 0 <= i -> Z.testbit (u64 a) i = (i <? 64) && Z.testbit a i.
Proof.
  intros Hi. unfold u64. destruct (Z.ltb_spec i 64).
  - rewrite Z.mod_pow2_bits_low by lia. reflexivity.
  - rewrite Z.mod_pow2_bits_high by lia. reflexivity.
Qed.

(** [x ^= x << k] on 64 bits sends only zero to zero. *)
Lemma xor_shl_zero x k :
  0 < k -> 0 <= x < 2 ^ 64 ->
  Z.lxor x (u64 (Z.shiftl x k)) = 0 -> x = 0.
Proof.
  intros Hk Hx H. apply Z.lxor_eq in H.
  assert (Hbits : forall n : nat, forall i, 0 <= i < Z.of_nat n -> Z.testbit x i = false).
  { induction n as [|n IH]; intros i Hi; [lia|].
    rewrite H, u64_bits by lia.
    destruct (Z.ltb_spec i 64); [|reflexivity]. cbn [andb].
    destruct (Z.lt_ge_cases i k).
    - apply Z.shiftl_spec_low. lia.
    - rewrite Z.shiftl_spec by lia. apply IH. lia. }
  apply Z.bits_inj'. intros i Hi. rewrite Z.bits_0.
  apply (Hbits (S (Z.to_nat i))). lia.
Qed.

(** [x ^= x >> k] on 64 bits sends only zero to zero. *)
Lemma xor_shr_zero x k :
  0 < k -> 0 <= x < 2 ^ 64 ->
  Z.lxor x (Z.shiftr x k) = 0 -> x = 0.
Proof.
  intros Hk Hx H. apply Z.lxor_eq in H.
  apply (testbit_range x 64 ltac:(lia)) in Hx as [_ Hhigh].
  assert (Hbits : forall n : nat, forall i, 0 <= i -> 64 - Z.of_nat n <= i ->
                    Z.testbit x i = false).
  { induction n as [|n IH]; intros i Hi Hn; [apply Hhigh; lia|].
    rewrite H, Z.shiftr_spec by lia. apply IH; lia. }
  apply Z.bits_inj'. intros i Hi. rewrite Z.bits_0.
  apply (Hbits 64%nat); lia.
Qed.

Lemma next_range state : 0 <= state < 2 ^ 64 -> 0 <= next state < 2 ^ 64.
Proof.
  intros Hs. unfold next.
  assert (Hu : forall a, 0 <= u64 a < 2 ^ 64) by (intros a; apply Z.mod_pos_bound; lia).
  apply lxor_range; [lia | | apply Hu].
  apply lxor_range; [lia | | apply shiftr_range; [lia|]];
    apply lxor_range; try lia; try apply Hu.
Qed.

Lemma next_nonzero state : 0 <= state < 2 ^ 64 -> next state = 0 -> state = 0.
Proof.
  intros Hs H. unfold next in H.
  assert (Hu : forall a, 0 <= u64 a < 2 ^ 64) by (intros a; apply Z.mod_pos_bound; lia).
  set (s1 := Z.lxor state (u64 (Z.shiftl state 13))) in *.
  set (s2 := Z.lxor s1 (Z.shiftr s1 7)) in *.
  assert (H1 : 0 <= s1 < 2 ^ 64) by (apply lxor_range; [lia | exact Hs | apply Hu]).
  assert (H2 : 0 <= s2 < 2 ^ 64)
    by (apply lxor_range; [lia | exact H1 | apply shiftr_range; [lia | exact H1]]).
  apply xor_shl_zero in H; [|lia | exact H2].
  subst s2. apply xor_shr_zero in H; [|lia | exact H1].
  subst s1. apply xor_shl_zero in H; [exact H | lia | exact Hs].
Qed.

End RngFacts.

(** X15.  [FastRNG]: [next] keeps the state within 64 bits; the state 0
    is a fixed point and no other state leads to it; [next_int(max)] for
    a positive [max] advances the state once and answers within
    [0 .. max - 1]; [next_int(0)] divides by zero. *)
Theorem fast_rng_state_and_range (state max : Z) :
  0 <= state < 2 ^ 64 -> 1 <= max < 2 ^ 31 ->
  0 <= MonteCarloEngine.next state < 2 ^ 64 /\
  (MonteCarloEngine.next state = 0 <-> state = 0) /\
  (exists v, MonteCarloEngine.next_int max state = Val (v, MonteCarloEngine.next state)
             /\ 0 <= v < max) /\
  MonteCarloEngine.next_int 0 state = Undef DivisionByZero.
Proof.
  intros Hs Hmax. split; [apply next_range, Hs|]. split; [|split].
  - split; [apply next_nonzero, Hs | intros ->; reflexivity].
  - unfold MonteCarloEngine.next_int, MonteCarloEngine.next32.
    assert (Hm : MonteCarloEngine.u32 max = max)
      by (unfold MonteCarloEngine.u32; apply Z.mod_small; lia).
    rewrite Hm. destruct (Z.eqb_spec max 0); [lia|].
    eexists. split; [reflexivity|]. apply Z.mod_pos_bound. lia.
  - reflexivity.
Qed.

Lemma fast_rng_state_and_range_witness :
  0 <= MonteCarloEngine.next 1 < 2 ^ 64 /\
  (MonteCarloEngine.next 1 = 0 <-> 1 = 0) /\
  (exists v, MonteCarloEngine.next_int 52 1 = Val (v, MonteCarloEngine.next 1)
             /\ 0 <= v < 52) /\
  MonteCarloEngine.next_int 0 1 = Undef DivisionByZero.
Proof. apply (fast_rng_state_and_range 1 52); lia. Defined.

Section DeckBuildFacts.
Import PokerCore PokerEval MonteCarloEngine.

(** The mask of dead cards after the loop over [board[i .. i + n)]. *)
Lemma dead_loop_spec n : forall i board dead,
  0 <= i -> (Z.to_nat i + n <= length board)%nat ->
  Forall (fun c => 0 <= c < 64) (take n (drop (Z.to_nat i) board)) ->
  exists dead',
    dead_loop n i board dead = Val dead' /\
    forall c, 0 <= c ->
      Z.testbit dead' c
      = Z.testbit dead c || existsb (Z.eqb c) (take n (drop (Z.to_nat i) board)).
Proof.
  induction n as [|n IH]; intros i board dead Hi Hlen Hvalid.
  - exists dead. split; [reflexivity|]. intros c Hc. rewrite take_0. cbn.
    rewrite orb_false_r. reflexivity.
  - destruct (lookup_lt_is_Some_2 board (Z.to_nat i) ltac:(lia)) as [b Hb].
    cbn [dead_loop]. rewrite (read_lookup board i b Hi Hb). cbn [mbind res_bind].
    rewrite (drop_S _ _ _ Hb) in Hvalid |- *. rewrite firstn_cons in Hvalid |- *.
    apply Forall_cons in Hvalid as [Hbv Hvalid].
    rewrite card_to_mask_val by exact Hbv. cbn [mbind res_bind].
    replace (S (Z.to_nat i)) with (Z.to_nat (i + 1)) in * by lia.
    destruct (IH (i + 1) board (Z.lor dead (2 ^ b))) as (dead' & Heq & Hbits);
      [lia | lia | exact Hvalid |].
    exists dead'. split; [exact Heq|]. intros c Hc.
    rewrite (Hbits c Hc), added_bits by lia. cbn [existsb].
    rewrite (Z.eqb_sym c b), orb_assoc. reflexivity.
Qed.

(** The second loop: the cards [c .. c + n) outside the mask are appended. *)
Lemma build_deck_spec dead n : forall c deck,
  0 <= c -> c + Z.of_nat n <= 64 ->
  build_deck n c dead deck
  = Val (deck ++ List.filter (fun x => negb (Z.testbit dead x)) (seqZ c (Z.of_nat n))).
Proof.
  induction n as [|n IH]; intros c deck Hc Hn.
  - cbn. rewrite app_nil_r. reflexivity.
  - cbn [build_deck]. rewrite has_card_testbit by lia. cbn [mbind res_bind].
    rewrite IH by lia.
    rewrite (seqZ_cons c (Z.of_nat (S n))) by lia.
    replace (Z.pred (Z.of_nat (S n))) with (Z.of_nat n) by lia.
    replace (Z.succ c) with (c + 1) by lia.
    cbn [List.filter]. destruct (Z.testbit dead c); cbn [negb].
    + reflexivity.
    + rewrite <- app_assoc. reflexivity.
Qed.

End DeckBuildFacts.

(** X16.  [run_simulation] builds its deck from exactly the cards of
    [0 .. 51] that are neither a hole card nor one of the [board_count]
    board cards, in increasing order. *)
Theorem simulation_deck_is_live_cards (hero_card1 hero_card2 : Z) (board : list Z)
    (board_count : Z) :
  0 <= hero_card1 < 64 -> 0 <= hero_card2 < 64 ->
  0 <= board_count <= Z.of_nat (length board) ->
  Forall (fun c => 0 <= c < 64) (take (Z.to_nat board_count) board) ->
  exists m1 m2 dead_cards,
    PokerCore.card_to_mask hero_card1 = Val m1 /\
    PokerCore.card_to_mask hero_card2 = Val m2 /\
    MonteCarloEngine.dead_loop (Z.to_nat board_count) 0 board (Z.lor m1 m2)
    = Val dead_cards /\
    MonteCarloEngine.build_deck (Z.to_nat PokerCore.DECK_SIZE) 0 dead_cards []
    = Val (List.filter
             (fun c => negb (existsb (Z.eqb c)
                               (hero_card1 :: hero_card2
                                :: take (Z.to_nat board_count) board)))
             (seqZ 0 52)).
Proof.
  intros H1 H2 Hbc Hvalid.
  exists (2 ^ hero_card1), (2 ^ hero_card2).
  destruct (dead_loop_spec (Z.to_nat board_count) 0 board
              (Z.lor (2 ^ hero_card1) (2 ^ hero_card2))) as (dead & Heq & Hbits).
  { lia. } { cbn. lia. } { exact Hvalid. }
  change (Z.to_nat 0) with 0%nat in Hbits. rewrite drop_0 in Hbits.
  exists dead. split; [apply card_to_mask_val, H1|]. split; [apply card_to_mask_val, H2|].
  split; [exact Heq|].
  change (Z.to_nat PokerCore.DECK_SIZE) with 52%nat.
  rewrite build_deck_spec by lia. cbn [app].
  change (Z.of_nat 52) with 52.
  f_equal. apply List.filter_ext_in. intros c Hc.
  apply list_elem_of_In, elem_of_seqZ in Hc. f_equal.
  rewrite (Hbits c ltac:(lia)). cbn [existsb].
  rewrite Z.lor_spec, !Z.pow2_bits_eqb by lia.
  rewrite (Z.eqb_sym hero_card1 c), (Z.eqb_sym hero_card2 c), orb_assoc. reflexivity.
Qed.

Lemma simulation_deck_is_live_cards_witness :
  exists m1 m2 dead_cards,
    PokerCore.card_to_mask 12 = Val m1 /\
    PokerCore.card_to_mask 25 = Val m2 /\
    MonteCarloEngine.dead_loop (Z.to_nat 3) 0 [0; 1; 2] (Z.lor m1 m2) = Val dead_cards /\
    MonteCarloEngine.build_deck (Z.to_nat PokerCore.DECK_SIZE) 0 dead_cards []
    = Val (List.filter
             (fun c => negb (existsb (Z.eqb c) (12 :: 25 :: take (Z.to_nat 3) [0; 1; 2])))
             (seqZ 0 52)).
Proof.
  apply (simulation_deck_is_live_cards 12 25 [0; 1; 2] 3); [lia | lia | cbn; lia |].
  cbn. repeat (apply Forall_cons; split; [lia|]). apply Forall_nil. exact I.
Defined.

Section ShuffleFacts.
Import PokerCore PokerEval MonteCarloEngine.

Lemma next_int_val max state :
  1 <= max < 2 ^ 32 ->
  next_int max state = Val (u32 (next state) mod max, next state).
Proof.
  intros H. unfold next_int, next32.
  assert (Hm : u32 max = max) by (unfold u32; apply Z.mod_small; lia).
  rewrite Hm. destruct (Z.eqb_spec max 0); [lia | reflexivity].
Qed.

Lemma shuffle_loop_total n : forall deck rng,
  (n < length deck)%nat -> (length deck <= 52)%nat ->
  exists deck' rng', shuffle_loop n deck rng = Val (deck', rng') /\ deck' ≡ₚ deck.
Proof.
  induction n as [|n IH]; intros deck rng Hn Hlen.
  - exists deck, rng. split; reflexivity.
  - cbn [shuffle_loop]. rewrite next_int_val by lia. cbn [mbind res_bind].
    set (i := Z.of_nat (S n)). set (j := u32 (next rng) mod (i + 1)).
    assert (Hj : 0 <= j < i + 1) by (apply Z.mod_pos_bound; lia).
    destruct (swap_cells deck i j ltac:(lia) ltac:(lia))
      as (ci & cj & c1 & c2 & -> & -> & Hw1 & Hw2 & Hperm & Hlen2).
    cbn [mbind res_bind]. rewrite Hw1. cbn [mbind res_bind]. rewrite Hw2. cbn [mbind res_bind].
    destruct (IH c2 (next rng) ltac:(lia) ltac:(lia)) as (deck' & rng' & -> & Hperm').
    exists deck', rng'. split; [reflexivity | etrans; eassumption].
Qed.

Lemma shuffle_loop_perm n : forall deck rng deck' rng',
  shuffle_loop n deck rng = Val (deck', rng') -> deck' ≡ₚ deck.
Proof.
  induction n as [|n IH]; intros deck rng deck' rng' H.
  - cbn in H. injection H as <- _. reflexivity.
  - cbn [shuffle_loop] in H.
    apply bind_val in H as [[j g] [_ H]].
    inv_bind H as di Hdi. inv_bind H as dj Hdj.
    inv_bind H as d1 Hd1. inv_bind H as d2 Hd2.
    apply read_val in Hdi as [_ Hdi]. apply read_val in Hdj as [_ Hdj].
    apply write_val in Hd1 as [_ ->]. apply write_val in Hd2 as [_ ->].
    rewrite (IH _ _ _ _ H). apply swap_permutation; assumption.
Qed.

Lemma shuffle_total deck rng :
  (length deck <= 52)%nat ->
  exists deck' rng', shuffle deck rng = Val (deck', rng') /\ deck' ≡ₚ deck.
Proof.
  intros Hlen. unfold shuffle. destruct deck as [|c deck].
  - exists [], rng. split; reflexivity.
  - apply shuffle_loop_total; [cbn [length] in *; lia | exact Hlen].
Qed.

Lemma iterate_deck n : forall h1 h2 board bc opp st st',
  iterate n h1 h2 board bc opp st = Val st' -> sim_deck st' ≡ₚ sim_deck st.
Proof.
  induction n as [|n IH]; intros h1 h2 board bc opp st st' H.
  - cbn in H. injection H as <-. reflexivity.
  - cbn [iterate] in H. inv_bind H as st1 Hst1.
    rewrite (IH _ _ _ _ _ _ _ H).
    apply iteration_spec in Hst1 as (deck & won & tied & Hsh & Hdeck & _).
    rewrite Hdeck. apply (shuffle_loop_perm _ _ _ _ _ Hsh).
Qed.

End ShuffleFacts.

(** X17.  The Fisher-Yates pass of [run_simulation] returns on every deck
    that fits the array and every generator state: each index drawn lies
    within the part still to be shuffled, and the deck that results is a
    permutation of the one given. *)
Theorem simulation_shuffle_permutes (deck : list Z) (rng : Z) :
  (length deck <= 52)%nat ->
  exists deck' rng',
    MonteCarloEngine.shuffle deck rng = Val (deck', rng') /\ deck' ≡ₚ deck.
Proof. intros Hlen. apply shuffle_total, Hlen. Qed.

Lemma simulation_shuffle_permutes_witness :
  exists deck' rng',
    MonteCarloEngine.shuffle [3; 1; 4; 15; 9; 2; 6] 88172645463325252
    = Val (deck', rng') /\ deck' ≡ₚ [3; 1; 4; 15; 9; 2; 6].
Proof. apply (simulation_shuffle_permutes [3; 1; 4; 15; 9; 2; 6]). cbn. lia. Defined.



Section BoundsFacts.
Import PokerCore PokerEval MonteCarloEngine.

(** Copying more than five board cards writes past [full_board]. *)
Lemma copy_board_overflow board n : forall i full_board,
  length full_board = 5%nat -> 0 <= i <= 5 ->
  i + Z.of_nat n <= Z.of_nat (length board) -> 5 < i + Z.of_nat n ->
  copy_board n i board full_board = Undef (OutOfBounds 5).
Proof.
  induction n as [|n IH]; intros i fb Hfb Hi Hlen Hn; [lia|].
  cbn [copy_board].
  destruct (lookup_lt_is_Some_2 board (Z.to_nat i) ltac:(lia)) as [c Hc].
  rewrite (read_lookup board i c ltac:(lia) Hc). cbn [mbind res_bind].
  destruct (Z.eq_dec i 5) as [->|Hne].
  - unfold write. rewrite Hfb. reflexivity.
  - rewrite write_insert by lia. cbn [mbind res_bind].
    apply IH; [rewrite length_insert; exact Hfb | lia | lia | lia].
Qed.

Lemma live_deck_length dead :
  (length (List.filter (fun x => negb (Z.testbit dead x)) (seqZ 0 52)) <= 52)%nat.
Proof. etrans; [apply List.filter_length_le | reflexivity]. Qed.

(** With two cards dead at most, the deck is not empty. *)
Lemma live_deck_nonempty h1 h2 :
  0 <= h1 -> 0 <= h2 ->
  List.filter (fun x => negb (Z.testbit (Z.lor (2 ^ h1) (2 ^ h2)) x)) (seqZ 0 52) <> [].
Proof.
  intros H1 H2.
  assert (Hc : exists c, 0 <= c < 3 /\ c <> h1 /\ c <> h2).
  { destruct (Z.eq_dec h1 0), (Z.eq_dec h2 0), (Z.eq_dec h1 1), (Z.eq_dec h2 1);
      first [exists 0; lia | exists 1; lia | exists 2; lia]. }
  destruct Hc as (c & Hc & Hn1 & Hn2). intros E.
  assert (Hin : In c (List.filter (fun x => negb (Z.testbit (Z.lor (2 ^ h1) (2 ^ h2)) x))
                                  (seqZ 0 52))).
  { apply List.filter_In. split; [apply list_elem_of_In, elem_of_seqZ; lia|].
    rewrite Z.lor_spec, !Z.pow2_bits_eqb by lia.
    destruct (Z.eqb_spec h1 c), (Z.eqb_spec h2 c); try lia; reflexivity. }
  rewrite E in Hin. destruct Hin.
Qed.

Lemma val_bind {A B : Type} (a : A) (k : A -> Res B) : Val a ≫= k = k a.
Proof. reflexivity. Qed.

Lemma deck_size_nat : Z.to_nat DECK_SIZE = 52%nat.
Proof. reflexivity. Qed.

Lemma run_simulation_steps h1 h2 board bc opp iters seed dead :
  0 <= h1 < 64 -> 0 <= h2 < 64 ->
  dead_loop (Z.to_nat bc) 0 board (Z.lor (2 ^ h1) (2 ^ h2)) = Val dead ->
  run_simulation h1 h2 board bc opp iters seed
  = (st ← iterate (Z.to_nat iters) h1 h2 board bc opp
            {| sim_rng := seed;
               sim_deck := List.filter (fun x => negb (Z.testbit dead x)) (seqZ 0 52);
               sim_result := {| equity := S754_zero false; wins := 0; ties := 0;
                                losses := 0; iterations := iters |} |};
     Val (sim_result st)).
Proof.
  intros H1 H2 Hdead. unfold run_simulation.
  rewrite !card_to_mask_val by assumption. rewrite !val_bind.
  rewrite Hdead, val_bind, deck_size_nat.
  rewrite (build_deck_spec dead 52 0 []) by lia.
  rewrite val_bind, app_nil_l. reflexivity.
Qed.

Lemma first_iteration_undefined h1 h2 board bc opp n st u :
  (length (sim_deck st) <= 52)%nat ->
  (forall deck, deck ≡ₚ sim_deck st -> complete_board board bc deck = Undef u) ->
  iterate (S n) h1 h2 board bc opp st = Undef u.
Proof.
  intros Hlen Hboard. cbn [iterate]. unfold iteration.
  destruct (shuffle_total (sim_deck st) (sim_rng st) Hlen) as (deck & rng & -> & Hperm).
  cbn [mbind res_bind]. unfold showdown. rewrite (Hboard deck Hperm). reflexivity.
Qed.

End BoundsFacts.

(** X19.  [board_count] outside [0 .. 5] makes the first iteration write
    outside [full_board]: below zero the fill loop starts at the negative
    index, above five the copy loop reaches index 5. *)
Theorem board_count_outside_the_board (hero_card1 hero_card2 : Z) (board : list Z)
    (board_count opponents iterations seed : Z) :
  0 <= hero_card1 < 64 -> 0 <= hero_card2 < 64 -> 1 <= iterations ->
  (board_count < 0 ->
   MonteCarloEngine.run_simulation hero_card1 hero_card2 board board_count
     opponents iterations seed = Undef (OutOfBounds board_count)) /\
  (5 < board_count -> board_count <= Z.of_nat (length board) ->
   Forall (fun c => 0 <= c < 64) (take (Z.to_nat board_count) board) ->
   MonteCarloEngine.run_simulation hero_card1 hero_card2 board board_count
     opponents iterations seed = Undef (OutOfBounds 5)).
Proof.
  intros H1 H2 Hit.
  destruct (Z.to_nat iterations) as [|n] eqn:En; [lia|]. split.
  - intros Hbc.
    rewrite (run_simulation_steps _ _ _ _ _ _ _ (Z.lor (2 ^ hero_card1) (2 ^ hero_card2)))
      by (try assumption; replace (Z.to_nat board_count) with 0%nat by lia; reflexivity).
    rewrite En, (first_iteration_undefined _ _ _ _ _ _ _ (OutOfBounds board_count)).
    + reflexivity.
    + apply live_deck_length.
    + cbn [MonteCarloEngine.sim_deck]. intros deck Hperm.
      unfold MonteCarloEngine.complete_board.
      replace (Z.to_nat board_count) with 0%nat by lia. cbn [MonteCarloEngine.copy_board mbind res_bind].
      destruct (Z.to_nat (5 - board_count)) as [|k] eqn:Ek; [lia|].
      cbn [MonteCarloEngine.deal_board].
      destruct deck as [|c deck].
      { apply Permutation_nil_l in Hperm. symmetry in Hperm.
        exfalso. revert Hperm. apply live_deck_nonempty; lia. }
      cbn [MonteCarloEngine.read_deck Z.ltb Z.compare Z.to_nat lookup list_lookup mbind res_bind].
      unfold write. destruct (Z.leb_spec 0 board_count); [lia | reflexivity].
  - intros Hbc Hlen Hvalid.
    destruct (dead_loop_spec (Z.to_nat board_count) 0 board
                (Z.lor (2 ^ hero_card1) (2 ^ hero_card2))) as (dead & Heq & _).
    { lia. } { cbn. lia. } { exact Hvalid. }
    rewrite (run_simulation_steps _ _ _ _ _ _ _ dead) by assumption.
    rewrite En, (first_iteration_undefined _ _ _ _ _ _ _ (OutOfBounds 5)).
    + reflexivity.
    + apply live_deck_length.
    + intros deck _. unfold MonteCarloEngine.complete_board.
      rewrite copy_board_overflow; [reflexivity | reflexivity | lia | lia | lia].
Qed.

Lemma board_count_outside_the_board_witness :
  MonteCarloEngine.run_simulation 12 25 [0; 1; 2; 3; 4; 5] (-1) 1 10 1
  = Undef (OutOfBounds (-1)) /\
  MonteCarloEngine.run_simulation 12 25 [0; 1; 2; 3; 4; 5] 6 1 10 1
  = Undef (OutOfBounds 5).
Proof.
  split.
  - apply (board_count_outside_the_board 12 25 [0; 1; 2; 3; 4; 5] (-1) 1 10 1); lia.
  - apply (board_count_outside_the_board 12 25 [0; 1; 2; 3; 4; 5] 6 1 10 1);
      try lia; [cbn; lia|].
    cbn. repeat (apply Forall_cons; split; [lia|]). apply Forall_nil. exact I.
Defined.

Section ZeroFacts.
Import PokerCore PokerEval MonteCarloEngine.

Lemma run_simulation_idle h1 h2 board bc opp iters seed :
  0 <= h1 < 64 -> 0 <= h2 < 64 ->
  0 <= bc <= Z.of_nat (length board) ->
  Forall (fun c => 0 <= c < 64) (take (Z.to_nat bc) board) ->
  iters <= 0 ->
  run_simulation h1 h2 board bc opp iters seed
  = Val {| equity := S754_zero false; wins := 0; ties := 0; losses := 0;
           iterations := iters |}.
Proof.
  intros H1 H2 Hbc Hvalid Hit.
  destruct (dead_loop_spec (Z.to_nat bc) 0 board (Z.lor (2 ^ h1) (2 ^ h2)))
    as (dead & Heq & _).
  { lia. } { cbn. lia. } { exact Hvalid. }
  rewrite (run_simulation_steps _ _ _ _ _ _ _ dead) by assumption.
  replace (Z.to_nat iters) with 0%nat by lia. reflexivity.
Qed.

Lemma workers_idle n : forall t h1 h2 board bc opp seed,
  0 <= h1 < 64 -> 0 <= h2 < 64 ->
  0 <= bc <= Z.of_nat (length board) ->
  Forall (fun c => 0 <= c < 64) (take (Z.to_nat bc) board) ->
  workers n t h1 h2 board bc opp 0 seed
  = Val (replicate n {| equity := S754_zero false; wins := 0; ties := 0; losses := 0;
                        iterations := 0 |}).
Proof.
  induction n as [|n IH]; intros t h1 h2 board bc opp seed H1 H2 Hbc Hvalid.
  - reflexivity.
  - cbn [workers]. rewrite run_simulation_idle by (try assumption; lia).
    rewrite val_bind, IH by assumption. reflexivity.
Qed.

Lemma accumulate_idle n :
  fold_left accumulate
    (replicate n {| equity := S754_zero false; wins := 0; ties := 0; losses := 0;
                    iterations := 0 |})
    {| equity := S754_zero false; wins := 0; ties := 0; losses := 0; iterations := 0 |}
  = {| equity := S754_zero false; wins := 0; ties := 0; losses := 0; iterations := 0 |}.
Proof. induction n as [|n IH]; [reflexivity | exact IH]. Qed.

Lemma equity_of_nothing :
  f32_div (f32_add (f32_of_int 0) (f32_mul (f32_of_int 0) f32_half)) (f32_of_int 0)
  = S754_nan.
Proof. vm_compute. reflexivity. Qed.

End ZeroFacts.

(** X20.  Asked for fewer iterations than the machine has hardware
    threads, [calculate_equity] gives every worker zero iterations and
    returns all counters at zero with the equity [0 / 0], a NaN, which is
    also what the C entry point returns; when the machine reports zero
    hardware threads the share per thread is a division by zero. *)
Theorem fewer_iterations_than_threads (hc rd hero_card1 hero_card2 : Z)
    (board : list Z) (board_count opponents iterations seed : Z) :
  1 <= hc -> 0 <= iterations < hc ->
  0 <= hero_card1 < 64 -> 0 <= hero_card2 < 64 ->
  0 <= board_count <= Z.of_nat (length board) ->
  Forall (fun c => 0 <= c < 64) (take (Z.to_nat board_count) board) ->
  MonteCarloEngine.calculate_equity hc rd hero_card1 hero_card2 board board_count
    opponents iterations seed
  = Val {| MonteCarloEngine.equity := S754_nan; MonteCarloEngine.wins := 0;
           MonteCarloEngine.ties := 0; MonteCarloEngine.losses := 0;
           MonteCarloEngine.iterations := 0 |} /\
  MonteCarloEngine.calculate_equity_optimized hc rd hero_card1 hero_card2 board
    board_count opponents iterations = Val S754_nan /\
  MonteCarloEngine.calculate_equity 0 rd hero_card1 hero_card2 board board_count
    opponents iterations seed = Undef DivisionByZero.
Proof.
  intros Hhc Hit H1 H2 Hbc Hvalid.
  assert (Hcalc : forall seed',
    MonteCarloEngine.calculate_equity hc rd hero_card1 hero_card2 board board_count
      opponents iterations seed'
    = Val {| MonteCarloEngine.equity := S754_nan; MonteCarloEngine.wins := 0;
             MonteCarloEngine.ties := 0; MonteCarloEngine.losses := 0;
             MonteCarloEngine.iterations := 0 |}).
  { intros seed'. unfold MonteCarloEngine.calculate_equity.
    destruct (Z.eqb_spec hc 0); [lia|].
    rewrite Z.quot_small by lia.
    rewrite workers_idle by assumption. rewrite val_bind, accumulate_idle.
    cbn [MonteCarloEngine.wins MonteCarloEngine.ties MonteCarloEngine.losses
         MonteCarloEngine.iterations].
    rewrite equity_of_nothing. reflexivity. }
  split; [apply Hcalc|]. split; [|reflexivity].
  unfold MonteCarloEngine.calculate_equity_optimized. rewrite Hcalc. reflexivity.
Qed.

Lemma fewer_iterations_than_threads_witness :
  MonteCarloEngine.calculate_equity 8 7 12 25 [] 0 1 5 1
  = Val {| MonteCarloEngine.equity := S754_nan; MonteCarloEngine.wins := 0;
           MonteCarloEngine.ties := 0; MonteCarloEngine.losses := 0;
           MonteCarloEngine.iterations := 0 |} /\
  MonteCarloEngine.calculate_equity_optimized 8 7 12 25 [] 0 1 5 = Val S754_nan /\
  MonteCarloEngine.calculate_equity 0 7 12 25 [] 0 1 5 1 = Undef DivisionByZero.
Proof.
  apply (fewer_iterations_than_threads 8 7 12 25 [] 0 1 5 1);
    try lia; try (cbn; lia).
  apply Forall_nil. exact I.
Defined.

(** ** Information sets *)

Section InfoSetFacts.
Import CFREngine.

Lemma at_key_touch m a b : at_key (touch m b) a = at_key m a.
Proof.
  unfold at_key, touch. destruct (m !! b) eqn:E; [reflexivity|].
  destruct (decide (a = b)) as [->|Hne].
  - rewrite lookup_insert_eq, E. reflexivity.
  - rewrite lookup_insert_ne by congruence. reflexivity.
Qed.

Lemma touch_lookup m a b :
  touch m b !! a = if decide (a = b) then Some (at_key m b) else m !! a.
Proof.
  unfold touch, at_key. destruct (decide (a = b)) as [->|Hne].
  - destruct (m !! b) eqn:E; [exact E | apply lookup_insert_eq].
  - destruct (m !! b); [reflexivity | apply lookup_insert_ne; congruence].
Qed.

(** [update_regrets], entry by entry. *)
Lemma update_regrets_lookup regrets weight rs a :
  map_fold (update_regret weight) rs regrets !! a
  = match regrets !! a with
    | Some r => Some (std_max 0 (at_key rs a + weight * r))%float
    | None => rs !! a
    end.
Proof.
  revert a. apply (map_fold_weak_ind
    (fun res (m : gmap Z float) => forall a,
       res !! a = match m !! a with
                  | Some r => Some (std_max 0 (at_key rs a + weight * r))%float
                  | None => rs !! a
                  end)).
  - intros a. rewrite lookup_empty. reflexivity.
  - intros k x m res Hk IH a. unfold update_regret.
    destruct (decide (a = k)) as [->|Hne].
    + rewrite !lookup_insert_eq. do 3 f_equal. unfold at_key. rewrite IH, Hk. reflexivity.
    + rewrite !lookup_insert_ne by congruence. apply IH.
Qed.

(** [accumulate_strategy], entry by entry. *)
Lemma accumulate_lookup strategy weight ss a :
  map_fold (fun action prob ss =>
              <[action := (at_key ss action + prob * weight)%float]> ss) ss strategy !! a
  = match strategy !! a with
    | Some p => Some (at_key ss a + p * weight)%float
    | None => ss !! a
    end.
Proof.
  revert a. apply (map_fold_weak_ind
    (fun res (m : gmap Z float) => forall a,
       res !! a = match m !! a with
                  | Some p => Some (at_key ss a + p * weight)%float
                  | None => ss !! a
                  end)).
  - intros a. rewrite lookup_empty. reflexivity.
  - intros k x m res Hk IH a.
    destruct (decide (a = k)) as [->|Hne].
    + rewrite !lookup_insert_eq. do 2 f_equal. unfold at_key. rewrite IH, Hk. reflexivity.
    + rewrite !lookup_insert_ne by congruence. apply IH.
Qed.

End InfoSetFacts.

(** X21.  [update_regrets] replaces the stored regret of every action of
    its argument by [max(0.0, stored + weight * regret)], the stored value
    of an action not yet in the map counting as 0.0; it leaves every other
    regret, the strategy sums and the visit count as they were. *)
Theorem update_regrets_entrywise (regrets : gmap Z float) (weight : float)
    (i : CFREngine.InfoSet) (a : Z) :
  CFREngine.regret_sum (CFREngine.update_regrets regrets weight i) !! a
  = match regrets !! a with
    | Some r => Some (std_max 0 (CFREngine.at_key (CFREngine.regret_sum i) a
                                 + weight * r))%float
    | None => CFREngine.regret_sum i !! a
    end /\
  CFREngine.strategy_sum (CFREngine.update_regrets regrets weight i)
  = CFREngine.strategy_sum i /\
  CFREngine.visit_count (CFREngine.update_regrets regrets weight i)
  = CFREngine.visit_count i.
Proof.
  split; [apply update_regrets_lookup | split; reflexivity].
Qed.


Section InfoSetFacts2.
Import CFREngine.

(** The sum the first loop of [InfoSet::get_strategy] builds. *)
Lemma clip_loop_spec legal_actions : forall rs strategy total,
  exists rs' strategy',
    fold_left clip_step legal_actions (rs, strategy, total)
    = (rs', strategy',
       fold_left (fun acc a => (acc + std_max 0 (at_key rs a))%float) legal_actions total) /\
    (forall a, rs' !! a = if decide (a ∈ legal_actions) then Some (at_key rs a) else rs !! a) /\
    (forall a, strategy' !! a
               = if decide (a ∈ legal_actions) then Some (std_max 0 (at_key rs a))
                 else strategy !! a).
Proof.
  induction legal_actions as [|b rest IH]; intros rs strategy total.
  - exists rs, strategy. split; [reflexivity|]. split; intros a;
      (destruct (decide (a ∈ [])) as [H|_]; [inversion H | reflexivity]).
  - cbn [fold_left]. unfold clip_step at 2. rewrite at_key_touch.
    destruct (IH (touch rs b) (<[b := std_max 0 (at_key rs b)]> strategy)
                 (total + std_max 0 (at_key rs b))%float)
      as (rs' & strategy' & Heq & Hrs & Hst).
    exists rs', strategy'. split; [|split].
    + rewrite Heq. f_equal.
      clear. generalize (total + std_max 0 (at_key rs b))%float as t.
      induction rest as [|c rest IHr]; intros t; [reflexivity|].
      cbn [fold_left]. rewrite at_key_touch. apply IHr.
    + intros a. rewrite Hrs, at_key_touch, touch_lookup.
      destruct (decide (a ∈ rest)) as [Hin|Hnin].
      * rewrite decide_True by (right; exact Hin). reflexivity.
      * destruct (decide (a = b)) as [->|Hne].
        -- rewrite decide_True by left. reflexivity.
        -- rewrite decide_False; [reflexivity|].
           intros H. apply elem_of_cons in H as [?|?]; contradiction.
    + intros a. rewrite Hst, at_key_touch.
      destruct (decide (a ∈ rest)) as [Hin|Hnin].
      * rewrite decide_True by (right; exact Hin). reflexivity.
      * destruct (decide (a = b)) as [->|Hne].
        -- rewrite decide_True by left. apply lookup_insert_eq.
        -- rewrite decide_False by (intros H; apply elem_of_cons in H as [?|?]; contradiction).
           apply lookup_insert_ne. congruence.
Qed.

Lemma normalise_loop_lookup total legal_actions : forall strategy a,
  NoDup legal_actions ->
  fold_left (normalise_step total) legal_actions strategy !! a
  = if decide (a ∈ legal_actions) then Some (at_key strategy a / total)%float
    else strategy !! a.
Proof.
  induction legal_actions as [|b rest IH]; intros strategy a Hnd.
  - destruct (decide (a ∈ [])) as [H|_]; [inversion H | reflexivity].
  - apply NoDup_cons in Hnd as [Hb Hnd]. cbn [fold_left]. rewrite (IH _ _ Hnd).
    unfold normalise_step, at_key.
    destruct (decide (a ∈ rest)) as [Hin|Hnin].
    + rewrite decide_True by (right; exact Hin).
      rewrite lookup_insert_ne by (intros ->; contradiction). reflexivity.
    + destruct (decide (a = b)) as [->|Hne].
      * rewrite decide_True by left. apply lookup_insert_eq.
      * rewrite decide_False by (intros H; apply elem_of_cons in H as [?|?]; contradiction).
        apply lookup_insert_ne. congruence.
Qed.

Lemma no_positive_regret_sum rs legal_actions :
  (forall a, a ∈ legal_actions -> (0 <? at_key rs a)%float = false) ->
  fold_left (fun acc a => (acc + std_max 0 (at_key rs a))%float) legal_actions 0%float
  = 0%float.
Proof.
  induction legal_actions as [|b rest IH]; intros H; [reflexivity|].
  cbn [fold_left]. unfold std_max at 2. rewrite (H b) by left.
  change (0 + 0)%float with 0%float. apply IH. intros a Ha. apply H. right. exact Ha.
Qed.
Lemma normalise_loop_keys total legal_actions : forall (strategy : gmap Z float) a,
  is_Some (fold_left (normalise_step total) legal_actions strategy !! a)
  <-> is_Some (strategy !! a) \/ a ∈ legal_actions.
Proof.
  induction legal_actions as [|b rest IH]; intros strategy a.
  - cbn. split; [tauto|]. intros [H|H]; [exact H | inversion H].
  - cbn [fold_left]. rewrite IH. unfold normalise_step. rewrite elem_of_cons.
    destruct (decide (a = b)) as [->|Hne].
    + rewrite lookup_insert_eq. split; [tauto|]. intros _. left. eauto.
    + rewrite lookup_insert_ne by congruence. tauto.
Qed.

End InfoSetFacts2.

(** X23.  [InfoSet::get_strategy] returns a map whose keys are exactly the
    legal actions.  As a side effect of the lookups it stores the regret
    0.0 for every legal action that had none; all other regrets, the
    strategy sums and the visit count stay as they were. *)
Theorem get_strategy_keys_and_side_effect (i : CFREngine.InfoSet) (legal_actions : list Z)
    (a : Z) :
  let '(strategy, i') := CFREngine.info_get_strategy i legal_actions in
  (is_Some (strategy !! a) <-> a ∈ legal_actions) /\
  CFREngine.regret_sum i' !! a
  = (if decide (a ∈ legal_actions)
     then Some (CFREngine.at_key (CFREngine.regret_sum i) a)
     else CFREngine.regret_sum i !! a) /\
  CFREngine.strategy_sum i' = CFREngine.strategy_sum i /\
  CFREngine.visit_count i' = CFREngine.visit_count i.
Proof.
  unfold CFREngine.info_get_strategy.
  destruct (clip_loop_spec legal_actions (CFREngine.regret_sum i) ∅ 0%float)
    as (rs' & strategy' & -> & Hrs & Hst).
  assert (Hclip : is_Some (strategy' !! a) <-> a ∈ legal_actions).
  { rewrite Hst. destruct (decide (a ∈ legal_actions)) as [Hin|Hnin].
    - split; [intros _; exact Hin | intros _; eauto].
    - rewrite lookup_empty. split; [intros [? [=]] | contradiction]. }
  destruct (0 <? _)%float;
    cbn [CFREngine.regret_sum CFREngine.strategy_sum CFREngine.visit_count];
    (split; [|split; [apply Hrs | split; reflexivity]]).
  - rewrite normalise_loop_keys. tauto.
  - rewrite uniform_loop_lookup.
    destruct (bool_decide_reflect (a ∈ legal_actions)) as [Hin|Hnin].
    + split; [intros _; exact Hin | intros _; eauto].
    + tauto.
Qed.

(** X24.  Regret matching.  With [total] the sum, in the order of the
    list, of the regrets of the legal actions clipped at zero:  when
    [total] is positive and no action is listed twice, every legal action
    gets its clipped regret divided by [total]; when [total] is not
    positive, as when no legal action has a positive regret, every legal
    action gets [1.0 / legal_actions.size()]. *)
Theorem get_strategy_regret_matching (i : CFREngine.InfoSet) (legal_actions : list Z)
    (a : Z) :
  let total :=
    fold_left (fun acc b =>
                 (acc + std_max 0 (CFREngine.at_key (CFREngine.regret_sum i) b))%float)
              legal_actions 0%float in
  let strategy := fst (CFREngine.info_get_strategy i legal_actions) in
  let uniform := (1 / double_of_int (Z.of_nat (length legal_actions)))%float in
  a ∈ legal_actions ->
  ((0 <? total)%float = true -> NoDup legal_actions ->
   strategy !! a
   = Some (std_max 0 (CFREngine.at_key (CFREngine.regret_sum i) a) / total)%float) /\
  ((0 <? total)%float = false -> strategy !! a = Some uniform) /\
  ((forall b, b ∈ legal_actions ->
      (0 <? CFREngine.at_key (CFREngine.regret_sum i) b)%float = false) ->
   strategy !! a = Some uniform).
Proof.
  intros total strategy uniform Ha. subst strategy.
  unfold CFREngine.info_get_strategy.
  destruct (clip_loop_spec legal_actions (CFREngine.regret_sum i) ∅ 0%float)
    as (rs' & strategy' & -> & Hrs & Hst).
  fold total.
  assert (Huniform : (0 <? total)%float = false ->
            fst (if (0 <? total)%float
                 then (fold_left (CFREngine.normalise_step total) legal_actions strategy',
                       {| CFREngine.regret_sum := rs';
                          CFREngine.strategy_sum := CFREngine.strategy_sum i;
                          CFREngine.visit_count := CFREngine.visit_count i |})
                 else (fold_left (CFREngine.uniform_step uniform) legal_actions strategy',
                       {| CFREngine.regret_sum := rs';
                          CFREngine.strategy_sum := CFREngine.strategy_sum i;
                          CFREngine.visit_count := CFREngine.visit_count i |})) !! a
            = Some uniform).
  { intros ->. cbn [fst]. rewrite uniform_loop_lookup.
    rewrite bool_decide_eq_true_2 by exact Ha. reflexivity. }
  split; [|split].
  - intros Hpos Hnd. rewrite Hpos. cbn [fst].
    rewrite normalise_loop_lookup by exact Hnd.
    rewrite decide_True by exact Ha. unfold CFREngine.at_key at 1.
    rewrite Hst, decide_True by exact Ha. reflexivity.
  - exact Huniform.
  - intros Hnone. apply Huniform. subst total.
    rewrite no_positive_regret_sum by exact Hnone. reflexivity.
Qed.

Lemma get_strategy_regret_matching_witness :
  let i := CFREngine.run_ops
             [CFREngine.OpUpdateRegrets {[0 := 3%float; 1 := 1%float]} 1%float] in
  (fst (CFREngine.info_get_strategy i [0; 1; 2]) !! 0 = Some 0.75%float) /\
  (fst (CFREngine.info_get_strategy CFREngine.new_info_set [0; 1; 2]) !! 0
   = Some (1 / 3)%float).
Proof.
  split.
  - pose proof (get_strategy_regret_matching
                  (CFREngine.run_ops
                     [CFREngine.OpUpdateRegrets {[0 := 3%float; 1 := 1%float]} 1%float])
                  [0; 1; 2] 0) as H.
    cbv zeta in H. destruct H as [H _]; [repeat constructor|].
    rewrite H; [vm_compute; reflexivity | vm_compute; reflexivity |].
    apply (bool_decide_unpack _). vm_compute. exact I.
  - pose proof (get_strategy_regret_matching CFREngine.new_info_set [0; 1; 2] 0) as H.
    cbv zeta in H. destruct H as [_ [H _]]; [repeat constructor|].
    rewrite H; [reflexivity | vm_compute; reflexivity].
Defined.

(** ** The solver *)

Section SolverFacts2.
Import CFREngine.

Lemma SFadd_nonneg X Y :
  SFnonneg X = true -> SFnonneg Y = true -> SFnonneg (SFadd prec emax X Y) = true.
Proof.
  intros HX HY.
  destruct X as [sx|sx| |sx mx ex]; try discriminate HX;
    destruct Y as [sy|sy| |sy my ey]; try discriminate HY;
    try (destruct sx; try discriminate HX); try (destruct sy; try discriminate HY);
    try reflexivity.
  unfold SFadd. cbn [cond_Zopp]. rewrite <- Pos2Z.inj_add.
  unfold binary_normalize, binary_round.
  destruct (shl_align _ _ _) as [mz ez].
  apply binary_round_aux_nonneg. lia.
Qed.

Lemma add_nonneg x y : nonneg x -> nonneg y -> nonneg (x + y).
Proof.
  intros Hx Hy. apply nonneg_SF in Hx, Hy. apply nonneg_SF.
  rewrite add_spec. apply SFadd_nonneg; assumption.
Qed.

Lemma best_response_nonneg (rs : gmap Z float) :
  nonneg (map_fold (fun _ regret best => (best + std_max 0 regret)%float) 0%float rs).
Proof.
  apply (map_fold_weak_ind (fun res (_ : gmap Z float) => nonneg res)).
  - apply nonneg_zero.
  - intros k x m res _ IH. apply add_nonneg; [exact IH | apply std_max_nonneg].
Qed.

Lemma total_exploit_nonneg (sets : gmap string InfoSet) :
  nonneg (map_fold (fun _ i total =>
                      if 0 <? visit_count i then
                        (total + map_fold (fun _ regret best => (best + std_max 0 regret)%float)
                                          0%float (regret_sum i))%float
                      else total) 0%float sets).
Proof.
  apply (map_fold_weak_ind (fun res (_ : gmap string InfoSet) => nonneg res)).
  - apply nonneg_zero.
  - intros k i m res _ IH. destruct (0 <? visit_count i); [|exact IH].
    apply add_nonneg; [exact IH | apply best_response_nonneg].
Qed.

Lemma div_count_nonneg x v : nonneg x -> 1 <= v < 2 ^ 53 -> nonneg (x / double_of_int v).
Proof.
  intros Hx Hv. destruct (double_of_int_finite v Hv) as (m & e & Hd).
  apply nonneg_SF in Hx. apply nonneg_SF. rewrite div_spec, Hd.
  apply SFdiv_nonneg, Hx.
Qed.

End SolverFacts2.

(** X25.  [compute_exploitability] on a solver without information sets
    divides 0.0 by 0 and returns a NaN; on a solver with information sets
    it returns a value that compares as at least zero, whatever the stored
    regrets are, NaN and negative ones included. *)
Theorem compute_exploitability_sign (s : CFREngine.CFRSolver) :
  (CFREngine.info_sets s = ∅ -> CFREngine.compute_exploitability s = nan) /\
  (CFREngine.info_sets s <> ∅ -> Z.of_nat (size (CFREngine.info_sets s)) < 2 ^ 53 ->
   (0 <=? CFREngine.compute_exploitability s)%float = true).
Proof.
  split.
  - intros E. unfold CFREngine.compute_exploitability. rewrite E, map_fold_empty, map_size_empty.
    reflexivity.
  - intros Hne Hsize. unfold CFREngine.compute_exploitability.
    apply div_count_nonneg; [apply total_exploit_nonneg|].
    split; [|exact Hsize].
    destruct (size (CFREngine.info_sets s)) eqn:E; [|lia].
    apply map_size_empty_inv in E. contradiction.
Qed.



(** ** The tree search *)

Section EmptySearchFacts.
Import MCTSEngine.
Context {P : Platform}.


Lemma lone_root_step (v count : Z) (g : rng_state) :
  search_step {| nodes := [ {| visits := v; total_value := 0%float; action := -1;
                               parent := None; children := []; untried_actions := [];
                               is_terminal := false |} ];
                 rng := g; simulation_count := count |}
  = Val {| nodes := [ {| visits := v + 1; total_value := 0%float; action := -1;
                         parent := None; children := []; untried_actions := [];
                         is_terminal := false |} ];
           rng := g; simulation_count := count + 1 |}.
Proof. reflexivity. Qed.

Lemma lone_root_loop k : forall (v count : Z) (g : rng_state),
  search_loop k {| nodes := [ {| visits := v; total_value := 0%float; action := -1;
                                 parent := None; children := []; untried_actions := [];
                                 is_terminal := false |} ];
                   rng := g; simulation_count := count |}
  = Val {| nodes := [ {| visits := v + Z.of_nat k; total_value := 0%float; action := -1;
                         parent := None; children := []; untried_actions := [];
                         is_terminal := false |} ];
           rng := g; simulation_count := count + Z.of_nat k |}.
Proof.
  induction k as [|k IH]; intros v count g.
  - cbn [search_loop]. rewrite !Z.add_0_r. reflexivity.
  - cbn [search_loop]. rewrite lone_root_step, val_bind, IH.
    replace (v + 1 + Z.of_nat k) with (v + Z.of_nat (S k)) by lia.
    replace (count + 1 + Z.of_nat k) with (count + Z.of_nat (S k)) by lia.
    reflexivity.
Qed.
End EmptySearchFacts.

(** X27.  A search created with an empty list of legal actions never
    draws from the generator and never grows: after [search(n)] the tree
    is the root alone, visited [n] times with value total 0.0, the policy
    distribution is empty and [get_best_action] answers -1. *)
Theorem search_without_actions (P : MCTSEngine.Platform) (rd seed n : Z) :
  0 <= n < 2 ^ 31 ->
  exists s,
    MCTSEngine.search n (MCTSEngine.new_search rd [] seed) = Val s /\
    MCTSEngine.nodes s
    = [ {| MCTSEngine.visits := n; MCTSEngine.total_value := 0%float;
           MCTSEngine.action := -1; MCTSEngine.parent := None;
           MCTSEngine.children := []; MCTSEngine.untried_actions := [];
           MCTSEngine.is_terminal := false |} ] /\
    MCTSEngine.rng s = MCTSEngine.rng (MCTSEngine.new_search rd [] seed) /\
    MCTSEngine.simulation_count s = n /\
    MCTSEngine.get_policy_distribution s = Val [] /\
    MCTSEngine.get_best_action s = Val (-1).
Proof.
  intros Hn. unfold MCTSEngine.search, MCTSEngine.new_search.
  rewrite lone_root_loop. eexists. split; [reflexivity|].
  cbn [MCTSEngine.nodes MCTSEngine.rng MCTSEngine.simulation_count].
  rewrite Z2Nat.id by lia. repeat split.
Qed.

Lemma search_without_actions_witness :
  exists s,
    @MCTSEngine.search Searches.stand_in 7
      (@MCTSEngine.new_search Searches.stand_in 3 [] 1) = Val s /\
    MCTSEngine.nodes s
    = [ {| MCTSEngine.visits := 7; MCTSEngine.total_value := 0%float;
           MCTSEngine.action := -1; MCTSEngine.parent := None;
           MCTSEngine.children := []; MCTSEngine.untried_actions := [];
           MCTSEngine.is_terminal := false |} ] /\
    MCTSEngine.rng s = MCTSEngine.rng (@MCTSEngine.new_search Searches.stand_in 3 [] 1) /\
    MCTSEngine.simulation_count s = 7 /\
    MCTSEngine.get_policy_distribution s = Val [] /\
    MCTSEngine.get_best_action s = Val (-1).
Proof. apply (search_without_actions Searches.stand_in 3 1 7). lia. Defined.

Section AccountingFacts.
Import MCTSEngine.
Context {P : Platform}.

(** The child [expand] creates for action [b]. *)
Lemma search_step_shape (s : MCTSSearch) :
  platform_ok -> flat s -> simulation_count s + 1 < 2 ^ 53 ->
  exists r cs,
    nodes s = r :: cs /\
    ((untried_actions r = [] /\
      exists j n, cs !! j = Some n /\
        search_step s
        = Val {| nodes := bump r (- 0)%float :: <[j := bump n 0%float]> cs;
                 rng := rng s;
                 simulation_count := simulation_count s + 1 |})
     \/
     (exists idx b g',
        untried_actions r !! idx = Some b /\
        search_step s
        = Val {| nodes :=
                   bump {| visits := visits r; total_value := total_value r;
                           action := action r; parent := parent r;
                           children := children r ++ [S (length cs)];
                           untried_actions := delete idx (untried_actions r);
                           is_terminal := is_terminal r |} (- 0)%float
                   :: (cs ++ [bump {| visits := 0; total_value := 0%float; action := b;
                                      parent := Some 0%nat; children := [];
                                      untried_actions := get_legal_actions_after b;
                                      is_terminal := is_terminal_state_after b |}
                                   0%float]);
                 rng := g';
                 simulation_count := simulation_count s + 1 |})).
Proof.
  intros Hok (r & cs & Hnodes & Hpr & Htr & Htv & Hch & Hcs & Hvr & Hvr1 & Hsome) Hcount.
  exists r, cs. split; [exact Hnodes|].
  destruct s as [heap g count]. cbn [nodes rng simulation_count] in *. subst heap.
  unfold search_step. cbn [nodes rng simulation_count].
  destruct (untried_actions r) as [|a l] eqn:Hu.
  - left. split; [reflexivity|].
    destruct Hsome as [?|Hne]; [contradiction|].
    destruct (select_best_child_flat r cs count Hok Hch Hcs Hne (Hvr1 Hne) ltac:(lia))
      as (j & n & Hsel & Hn).
    pose proof (Forall_lookup_1 _ _ _ _ Hcs Hn) as Hleaf.
    assert (Hheap : (r :: cs) !! S j = Some n) by exact Hn.
    destruct Hleaf as (Hp & Hc & Hun & Ht & Htot & Hv).
    assert (Hselection : selection (length (r :: cs)) (r :: cs) root = Val (S j)).
    { cbn [length selection]. unfold deref, root.
      change ((r :: cs) !! 0%nat) with (Some r). cbn [mbind res_bind].
      rewrite Hu, Hch. destruct cs as [|c1 cs']; [contradiction|].
      cbn [length seq]. rewrite Hsel. cbn [mbind res_bind].
      apply (selection_leaf _ _ _ n Hheap Hc). }
    exists j, n. split; [exact Hn|].
    rewrite Hselection. cbn [mbind res_bind].
    unfold deref at 1. rewrite Hheap. cbn [mbind res_bind]. rewrite Hun.
    cbn [mbind res_bind].
    rewrite (simulate_leaf _ _ _ n Hheap Ht). cbn [mbind res_bind].
    destruct cs as [|c1 cs']; [contradiction|]. cbn [length].
    rewrite (backpropagate_leaf _ r (c1 :: cs') j n 0%float Hpr Hn Hp).
    reflexivity.
  - right.
    assert (Hselection : selection (length (r :: cs)) (r :: cs) root = Val root).
    { cbn [length selection]. unfold deref, root.
      change ((r :: cs) !! 0%nat) with (Some r). cbn [mbind res_bind].
      rewrite Hu. reflexivity. }
    rewrite Hselection. cbn [mbind res_bind].
    unfold deref at 1, root. change ((r :: cs) !! 0%nat) with (Some r).
    cbn [mbind res_bind]. rewrite Hu, Htr.
    unfold expand, deref. change ((r :: cs) !! 0%nat) with (Some r).
    cbn [mbind res_bind]. rewrite Hu.
    destruct Hok as [Hdraw _].
    pose proof (Hdraw 0 (Z.of_nat (length (a :: l)) - 1) g ltac:(cbn [length]; lia)) as Hidx.
    destruct (uniform_int 0 (Z.of_nat (length (a :: l)) - 1) g) as [idx g'].
    cbn [fst] in Hidx.
    destruct (lookup_lt_is_Some_2 (a :: l) (Z.to_nat idx) ltac:(lia)) as [b Hb].
    exists (Z.to_nat idx), b, g'. split; [exact Hb|].
    unfold read. destruct (Z.ltb_spec idx 0) as [?|_]; [lia|]. rewrite Hb.
    cbn [mbind res_bind].
    set (child := {| visits := 0; total_value := 0%float; action := b;
                     parent := Some 0%nat; children := [];
                     untried_actions := get_legal_actions_after b;
                     is_terminal := is_terminal_state_after b |}).
    set (r' := {| visits := visits r; total_value := total_value r;
                  action := action r; parent := parent r;
                  children := children r ++ [length (r :: cs)];
                  untried_actions := delete (Z.to_nat idx) (a :: l);
                  is_terminal := is_terminal r |}).
    change (<[0%nat := r']> (r :: cs) ++ [child]) with (r' :: (cs ++ [child])).
    assert (Hchild : (cs ++ [child]) !! length cs = Some child).
    { rewrite lookup_app_r by lia. rewrite Nat.sub_diag. reflexivity. }
    rewrite (simulate_leaf _ _ _ child); [|exact Hchild|reflexivity].
    cbn [mbind res_bind]. cbn [length].
    rewrite length_app. cbn [length]. rewrite Nat.add_1_r.
    rewrite (backpropagate_leaf _ r' (cs ++ [child]) (length cs) child 0%float Hpr Hchild eq_refl).
    cbn [mbind res_bind].
    assert (Hins : <[length cs := bump child 0%float]> (cs ++ [child])
                   = cs ++ [bump child 0%float]).
    { rewrite insert_app_r_alt by lia. rewrite Nat.sub_diag. reflexivity. }
    rewrite Hins. subst r'. rewrite Htr. reflexivity.
Qed.

Lemma sum_visits_app vs ws : sum_visits (vs ++ ws) = sum_visits vs + sum_visits ws.
Proof.
  induction vs as [|v vs IH]; [reflexivity|].
  cbn [app]. rewrite !sum_visits_cons, IH. lia.
Qed.

Lemma sum_visits_bump cs j n v :
  cs !! j = Some n ->
  sum_visits (map visits (<[j := bump n v]> cs)) = sum_visits (map visits cs) + 1.
Proof.
  intros Hn. rewrite <- (take_drop_middle cs j n Hn) at 2.
  rewrite insert_take_drop by (eapply lookup_lt_Some, Hn).
  rewrite !map_app. cbn [map]. rewrite !sum_visits_app, !sum_visits_cons.
  cbn [bump visits]. lia.
Qed.

Lemma map_action_bump cs j n v :
  cs !! j = Some n -> map action (<[j := bump n v]> cs) = map action cs.
Proof.
  intros Hn. rewrite <- (take_drop_middle cs j n Hn) at 2.
  rewrite insert_take_drop by (eapply lookup_lt_Some, Hn).
  rewrite !map_app. reflexivity.
Qed.

Lemma search_step_accounted legal_actions (s : MCTSSearch) :
  platform_ok -> flat s -> accounted legal_actions s ->
  simulation_count s + 1 < 2 ^ 53 ->
  exists s', search_step s = Val s' /\ flat s' /\ accounted legal_actions s'
             /\ simulation_count s' = simulation_count s + 1.
Proof.
  intros Hok Hflat (r0 & cs0 & Hnodes0 & Hvr & Hsum & Hperm & Hlen) Hcount.
  destruct (search_step_flat s Hok Hflat Hcount) as (s1 & Hs1 & Hflat1 & Hcount1).
  exists s1. split; [exact Hs1|]. split; [exact Hflat1|]. split; [|exact Hcount1].
  destruct (search_step_shape s Hok Hflat Hcount) as (r & cs & Hnodes & Hshape).
  rewrite Hnodes0 in Hnodes. injection Hnodes as <- <-.
  destruct Hshape as [(Hu & j & n & Hn & Hstep)|(idx & b & g' & Hb & Hstep)];
    rewrite Hstep in Hs1; injection Hs1 as <-.
  - eexists _, _. cbn [nodes simulation_count]. split; [reflexivity|].
    cbn [bump visits untried_actions].
    split; [lia|]. split; [rewrite (sum_visits_bump _ _ _ _ Hn); lia|].
    split; [rewrite (map_action_bump _ _ _ _ Hn); exact Hperm|].
    intros Hne. rewrite Hu in Hne. contradiction.
  - eexists _, _. cbn [nodes simulation_count]. split; [reflexivity|].
    cbn [bump visits untried_actions].
    assert (Hne : untried_actions r0 <> []) by (intros E; rewrite E in Hb; discriminate).
    split; [lia|]. split; [|split].
    + rewrite map_app, sum_visits_app. cbn. lia.
    + rewrite map_app. cbn [map action]. rewrite <- app_assoc. cbn [app].
      rewrite <- Hperm. apply Permutation_app_head.
      symmetry. apply delete_Permutation, Hb.
    + intros _. rewrite length_app. cbn [length]. specialize (Hlen Hne). lia.
Qed.

Lemma search_loop_accounted legal_actions k : forall s : MCTSSearch,
  platform_ok -> flat s -> accounted legal_actions s ->
  simulation_count s + Z.of_nat k < 2 ^ 53 ->
  exists s', search_loop k s = Val s' /\ flat s' /\ accounted legal_actions s'
             /\ simulation_count s' = simulation_count s + Z.of_nat k.
Proof.
  induction k as [|k IH]; intros s Hok Hflat Hacc Hcount.
  - exists s. cbn. repeat split; try assumption. lia.
  - destruct (search_step_accounted legal_actions s Hok Hflat Hacc ltac:(lia))
      as (s1 & Hs1 & Hflat1 & Hacc1 & Hc1).
    destruct (IH s1 Hok Hflat1 Hacc1 ltac:(lia)) as (s2 & Hs2 & Hflat2 & Hacc2 & Hc2).
    exists s2. cbn [search_loop]. rewrite Hs1, val_bind.
    split; [exact Hs2|]. split; [exact Hflat2|]. split; [exact Hacc2|]. lia.
Qed.

Lemma searches_accounted legal_actions counts : forall s : MCTSSearch,
  platform_ok -> flat s -> accounted legal_actions s ->
  simulation_count s + total_passes counts < 2 ^ 53 ->
  exists s', searches counts s = Val s' /\ flat s' /\ accounted legal_actions s'
             /\ simulation_count s' = simulation_count s + total_passes counts.
Proof.
  induction counts as [|n counts IH]; intros s Hok Hflat Hacc Hcount.
  - exists s. cbn. repeat split; try assumption. lia.
  - rewrite total_passes_cons in Hcount |- *.
    pose proof (total_passes_nonneg counts) as Hnn.
    destruct (search_loop_accounted legal_actions (Z.to_nat n) s Hok Hflat Hacc ltac:(lia))
      as (s1 & Hs1 & Hflat1 & Hacc1 & Hc1).
    destruct (IH s1 Hok Hflat1 Hacc1 ltac:(lia)) as (s2 & Hs2 & Hflat2 & Hacc2 & Hc2).
    exists s2. cbn [searches]. unfold search. rewrite Hs1, val_bind.
    split; [exact Hs2|]. split; [exact Hflat2|]. split; [exact Hacc2|]. lia.
Qed.

Lemma new_search_accounted rd legal_actions seed :
  accounted legal_actions (new_search rd legal_actions seed).
Proof.
  eexists _, []. unfold new_search. cbn [nodes simulation_count visits untried_actions].
  split; [reflexivity|]. split; [reflexivity|]. split; [reflexivity|].
  split; [reflexivity|]. intros _. reflexivity.
Qed.

Lemma visited_children_count cs :
  Forall (fun c => 1 <= visits c) cs -> Z.of_nat (length cs) <= sum_visits (map visits cs).
Proof.
  induction 1 as [|c cs Hc _ IH]; [reflexivity|].
  cbn [map length]. rewrite sum_visits_cons. lia.
Qed.

(** What the bookkeeping says about a search over a non-empty list. *)
Lemma searches_books rd legal_actions seed counts :
  legal_actions <> [] -> platform_ok -> total_passes counts < 2 ^ 31 ->
  exists (s : MCTSSearch) r cs,
    searches counts (new_search rd legal_actions seed) = Val s /\
    nodes s = r :: cs /\
    simulation_count s = total_passes counts /\
    visits r = total_passes counts /\
    sum_visits (map visits cs) = total_passes counts /\
    children r = seq 1 (length cs) /\
    Forall (fun c => children c = [] /\ parent c = Some root /\ 1 <= visits c) cs /\
    Z.of_nat (length cs)
    = Z.min (total_passes counts) (Z.of_nat (length legal_actions)) /\
    map action cs ++ untried_actions r ≡ₚ legal_actions.
Proof.
  intros Hne Hok Htotal.
  destruct (searches_accounted legal_actions counts (new_search rd legal_actions seed) Hok
              (new_search_flat rd legal_actions seed Hne)
              (new_search_accounted rd legal_actions seed))
    as (s & Hs & Hflat & Hacc & Hcount).
  { cbn [new_search simulation_count]. lia. }
  cbn [new_search simulation_count] in Hcount. rewrite Z.add_0_l in Hcount.
  destruct Hflat as (r & cs & Hnodes & Hpr & Htr & Htv & Hch & Hcs & Hvr & Hvr1 & Hsome).
  destruct Hacc as (r0 & cs0 & Hnodes0 & Hvis & Hsum & Hperm & Hlen).
  rewrite Hnodes in Hnodes0. injection Hnodes0 as <- <-.
  exists s, r, cs. rewrite Hcount in *.
  split; [exact Hs|]. split; [exact Hnodes|]. split; [reflexivity|].
  split; [exact Hvis|]. split; [exact Hsum|]. split; [exact Hch|].
  assert (Hleaves : Forall (fun c => children c = [] /\ parent c = Some root
                                     /\ 1 <= visits c) cs).
  { eapply Forall_impl; [exact Hcs|]. intros c (H1 & H2 & _ & _ & _ & H6).
    split; [exact H2|]. split; [exact H1 | lia]. }
  split; [exact Hleaves|]. split; [|exact Hperm].
  pose proof (Permutation_length Hperm) as Hl.
  rewrite length_app, length_map in Hl.
  assert (Hle : Z.of_nat (length cs) <= total_passes counts).
  { rewrite <- Hsum. apply visited_children_count.
    eapply Forall_impl; [exact Hleaves|]. intros c H. apply H. }
  destruct (untried_actions r) as [|a l] eqn:Hu.
  - cbn [length] in Hl. lia.
  - specialize (Hlen ltac:(discriminate)). cbn [length] in Hl. lia.
Qed.

(** The loop of [get_best_action] over the children from [pre] on. *)
Lemma best_loop_flat (r : MCTSNode) cs : forall rest pre best max_visits,
  cs = pre ++ rest ->
  match best with
  | None => max_visits = 0 /\ Forall (fun c => visits c <= 0) pre
  | Some n => n ∈ pre /\ visits n = max_visits /\ 0 < max_visits
              /\ Forall (fun c => visits c <= max_visits) pre
  end ->
  exists res,
    best_loop (r :: cs) (seq (S (length pre)) (length rest)) best max_visits = Val res /\
    match res with
    | None => Forall (fun c => visits c <= 0) cs
    | Some n => n ∈ cs /\ 0 < visits n /\ Forall (fun c => visits c <= visits n) cs
    end.
Proof.
  induction rest as [|c rest IH]; intros pre best m Hcs Hinv.
  - rewrite app_nil_r in Hcs. subst pre. exists best. split; [reflexivity|].
    destruct best as [n|].
    + destruct Hinv as (Hin & Hv & Hpos & Hall). rewrite Hv. repeat split; assumption.
    + apply Hinv.
  - cbn [length seq best_loop]. unfold deref.
    assert (Hc : (r :: cs) !! S (length pre) = Some c).
    { change ((r :: cs) !! S (length pre)) with (cs !! length pre).
      rewrite Hcs, lookup_app_r by lia. rewrite Nat.sub_diag. reflexivity. }
    rewrite Hc. cbn [mbind res_bind].
    assert (Hcs' : cs = (pre ++ [c]) ++ rest) by (rewrite <- app_assoc; exact Hcs).
    assert (Hlen : S (length pre) = length (pre ++ [c]))
      by (rewrite length_app; cbn; lia).
    rewrite Hlen.
    destruct (Z.ltb_spec m (visits c)) as [Hlt|Hge].
    + apply (IH (pre ++ [c]) (Some c) (visits c) Hcs').
      split; [apply elem_of_app; right; left|]. split; [reflexivity|].
      destruct best as [n|].
      * destruct Hinv as (_ & _ & Hpos & Hall). split; [lia|].
        apply Forall_app. split; [|apply Forall_singleton; lia].
        eapply Forall_impl; [exact Hall|]. intros x Hx. cbn beta in Hx. lia.
      * destruct Hinv as (-> & Hall). split; [lia|].
        apply Forall_app. split; [|apply Forall_singleton; lia].
        eapply Forall_impl; [exact Hall|]. intros x Hx. cbn beta in Hx. lia.
    + apply (IH (pre ++ [c]) best m Hcs').
      destruct best as [n|].
      * destruct Hinv as (Hin & Hv & Hpos & Hall).
        split; [apply elem_of_app; left; exact Hin|]. split; [exact Hv|]. split; [exact Hpos|].
        apply Forall_app. split; [exact Hall | apply Forall_singleton; lia].
      * destruct Hinv as (-> & Hall). split; [reflexivity|].
        apply Forall_app. split; [exact Hall | apply Forall_singleton; lia].
Qed.

End AccountingFacts.





(** ** The EQR layer *)

Section EqrFacts.
Import EQRCalculator.

Lemma clip_range x :
  (0 <=? std_min 1 (std_max 0 x))%float = true /\
  (std_min 1 (std_max 0 x) <=? 1)%float = true.
Proof.
  pose proof (std_max_nonneg x) as Hy. unfold nonneg in Hy.
  unfold std_min. destruct (std_max 0 x <? 1)%float eqn:E.
  - split; [exact Hy | apply ltb_leb, E].
  - split; reflexivity.
Qed.

Lemma get_factor_val position :
  0 <= position -> exists f, get_factor position = Val f.
Proof.
  intros H. unfold get_factor.
  destruct (lookup_lt_is_Some_2 FACTORS (Z.to_nat (Z.min position 8))) as [f Hf].
  { cbn [FACTORS length]. lia. }
  exists f. apply read_lookup; [lia | exact Hf].
Qed.
End EqrFacts.

(** X30.  The EQR computation returns for every position from 0 on,
    positions above 8 sharing the factor of the big blind, and the value
    it returns always compares as at least 0 and at most 1, whatever the
    other inputs are, NaN included; a negative position indexes the factor
    table out of bounds.  [adjust_for_street] clamps in the same way:
    streets from 3 on use the river factor 1.05, a negative street indexes
    its table out of bounds. *)
Theorem eqr_is_clipped (raw_equity : float) (position : Z) (stack pot : float)
    (board_texture opponents : Z) (in_position : bool) (opponent_skill : float) :
  (position < 0 ->
   EQRCalculator.calculate_eqr_advanced raw_equity position stack pot board_texture
     opponents in_position opponent_skill = Undef (OutOfBounds position)) /\
  (0 <= position ->
   exists e,
     EQRCalculator.calculate_eqr_advanced raw_equity position stack pot board_texture
       opponents in_position opponent_skill = Val e /\
     (0 <=? e)%float = true /\ (e <=? 1)%float = true) /\
  (8 <= position -> EQRCalculator.get_factor position = Val 0.68%float) /\
  (forall eqr street,
     (street < 0 ->
      EQRCalculator.adjust_for_street eqr street = Undef (OutOfBounds street)) /\
     (3 <= street ->
      EQRCalculator.adjust_for_street eqr street = Val (eqr * 1.05)%float)).
Proof.
  split; [|split; [|split]].
  - intros Hneg. unfold EQRCalculator.calculate_eqr_advanced,
      EQRCalculator.calculate_complete, EQRCalculator.get_factor, read.
    rewrite Z.min_l by lia. destruct (Z.ltb_spec position 0); [reflexivity | lia].
  - intros Hpos. destruct (get_factor_val position Hpos) as [f Hf].
    unfold EQRCalculator.calculate_eqr_advanced, EQRCalculator.calculate_complete.
    rewrite Hf, !val_bind. cbn [EQRCalculator.eqr].
    eexists. split; [reflexivity|]. apply clip_range.
  - intros H8. unfold EQRCalculator.get_factor. rewrite Z.min_r by lia. reflexivity.
  - intros eqr street. unfold EQRCalculator.adjust_for_street. split.
    + intros Hneg. unfold read. rewrite Z.min_l by lia.
      destruct (Z.ltb_spec street 0); [reflexivity | lia].
    + intros H3. rewrite Z.min_r by lia. reflexivity.
Qed.
